(** * Verification of the distributed data-shuffle pipeline
      (tools/distpartitioning/data_shuffle.py)

    The development embeds the functions of [data_shuffle.py] as Rocq
    functions and settles the properties stated about them.

    Conventions of the embedding.
    - Python integers and numpy [int64] values are [Z]; ranks, the world
      size, the number of partitions and local partition ids, which only
      ever index lists or bound [range], are [nat].  The chunk counts and
      chunk lengths that the source casts with [astype(np.int32)] are [Z]
      as well: the cast is exact below [2 ^ 31], and the results about them
      carry that bound as a hypothesis.
    - A raised exception is a value [Err e]; every function that can raise
      returns a [result].
    - The [W] worker processes run the same code and meet at every
      collective call, so a run of the process group is embedded as one
      function over the list of the workers' local inputs (index = rank):
      a collective is a function of all the workers' contributions. *)

From stdpp Require Import base tactics option list numbers sorting strings gmap fin_maps.
From Stdlib Require Import ZArith Lia.

#[local] Open Scope Z_scope.

(** ** Exceptions and the result monad *)

Inductive error :=
  | AssertionError
  | ZeroDivisionError
  | AttributeError
  | NameError
  | KeyError
  | ValueError
  | IndexError
  | TypeError
  | RuntimeError
  | CollectiveMismatch.

#[global] Instance error_eq_dec : EqDecision error.
Proof. solve_decision. Defined.

Inductive result (A : Type) :=
  | Ok (a : A)
  | Err (e : error).
Arguments Ok {A} a.
Arguments Err {A} e.

#[global] Instance result_ret : MRet result := λ A a, Ok a.
#[global] Instance result_bind : MBind result := λ A B f m,
  match m with Ok a => f a | Err e => Err e end.
#[global] Instance result_fmap : FMap result := λ A B f m,
  match m with Ok a => Ok (f a) | Err e => Err e end.

Definition is_Ok {A} (m : result A) : Prop := ∃ a, m = Ok a.

(** [assert c] of Python: continue when [c] holds, raise otherwise. *)
Definition assert (c : Prop) `{Decision c} : result unit :=
  if decide c then Ok () else Err AssertionError.

(** [d[k]] on a missing key / [l[i]] out of range. *)
Definition from_option {A} (e : error) (o : option A) : result A :=
  match o with Some a => Ok a | None => Err e end.

(** All the workers must succeed: the first failure aborts the job. *)
Fixpoint sequence {A} (l : list (result A)) : result (list A) :=
  match l with
  | [] => Ok []
  | m :: l => a ← m; r ← sequence l; Ok (a :: r)
  end.

(** ** numpy helpers *)

(** [np.sum] and [np.amax] over a vector of sizes (non-negative entries;
    [np.amax] is only ever applied to one entry per worker). *)
Definition np_sum (l : list Z) : Z := foldr Z.add 0 l.
Definition np_amax (l : list Z) : Z := foldr Z.max 0 l.
Definition np_prod (l : list Z) : Z := foldr Z.mul 1 l.

(** Integer [//] and [%] with a numpy scalar divisor: floor division, and
    a zero divisor yields 0 (with a warning) instead of raising. *)
Definition np_floordiv (a b : Z) : Z := if decide (b = 0) then 0 else a / b.
Definition np_mod (a b : Z) : Z := if decide (b = 0) then 0 else a mod b.

(** [np.ceil(a / b)] on exact integers. *)
Definition ceil_div (a b : Z) : Z := - ((- a) / b).

(** [a[start:stop]] for [0 <= start], [0 <= stop]: the slice is clipped to
    the array, as Python does. *)
Definition slice {A} (start stop : Z) (l : list A) : list A :=
  take (Z.to_nat stop - Z.to_nat start)%nat (drop (Z.to_nat start) l).

(** [np.arange(start, stop)]. *)
Definition arange (start stop : Z) : list Z := seqZ start (stop - start).

(** [a[mask]] with a boolean mask: the entries of [a] whose mask bit is
    set.  The mask always comes from comparing an array of the same length. *)
Fixpoint mask_select {A} (mask : list bool) (a : list A) : list A :=
  match mask, a with
  | b :: mask, x :: a => if b then x :: mask_select mask a else mask_select mask a
  | _, _ => []
  end.

(** [np.split(a, n)]: [n] equal sections, [ValueError] when the length is
    not a multiple of [n] (the test [N % n] divides by zero for [n = 0]). *)
Fixpoint sections {A} (n : nat) (k : nat) (l : list A) : list (list A) :=
  match n with
  | O => []
  | S n => take k l :: sections n k (drop k l)
  end.

Definition np_split {A} (l : list A) (n : nat) : result (list (list A)) :=
  if decide (n = 0%nat) then Err ZeroDivisionError
  else if decide ((length l mod n)%nat = 0%nat)
       then Ok (sections n (length l / n)%nat l)
       else Err ValueError.

(** ** Tensors *)

(** Modelled from the spec: the closed enumeration of the supported element
    types with their byte sizes, and the integer tags [DATA_TYPE_ID] /
    [REV_DATA_TYPE_ID] of utils.py (not among the sources) under which the
    shape negotiation ships an element type. *)
Inductive dtype := I8 | I16 | I32 | I64 | U8 | F16 | F32 | F64 | BF16.

#[global] Instance dtype_eq_dec : EqDecision dtype.
Proof. solve_decision. Defined.

Definition element_size (d : dtype) : Z :=
  match d with
  | I8 | U8 => 1
  | I16 | F16 | BF16 => 2
  | I32 | F32 => 4
  | I64 | F64 => 8
  end.

Definition DATA_TYPE_ID (d : dtype) : Z :=
  match d with
  | I8 => 0 | I16 => 1 | I32 => 2 | I64 => 3 | U8 => 4
  | F16 => 5 | F32 => 6 | F64 => 7 | BF16 => 8
  end.

Definition REV_DATA_TYPE_ID (tag : Z) : option dtype :=
  list_find (λ d, DATA_TYPE_ID d = tag)
    [I8; I16; I32; I64; U8; F16; F32; F64; BF16] ≫= λ p, Some p.2.

(** A dense feature tensor: its rows along the first dimension, the
    remaining dimensions, and the element type.  The content of a row is
    never inspected by the shuffle, so rows are values of an arbitrary
    type. *)
Record tensor (A : Type) := Tensor {
  tensor_rows : list A;
  tensor_row_shape : list Z;
  tensor_dtype : dtype
}.
Arguments Tensor {A} _ _ _.
Arguments tensor_rows {A} _.
Arguments tensor_row_shape {A} _.
Arguments tensor_dtype {A} _.

Definition shape {A} (t : tensor A) : list Z :=
  Z.of_nat (length (tensor_rows t)) :: tensor_row_shape t.

(** [t[start:end,]]. *)
Definition tensor_slice {A} (start stop : Z) (t : tensor A) : tensor A :=
  Tensor (slice start stop (tensor_rows t)) (tensor_row_shape t)
         (tensor_dtype t).

(** Size in bytes of a tensor. *)
Definition tensor_bytes {A} (t : tensor A) : Z :=
  np_prod (shape t) * element_size (tensor_dtype t).

(** [torch.promote_types]: the element type of a result that combines
    tensors of two element types. *)
Definition promote_types (a b : dtype) : dtype :=
  match a, b with
  | F64, _ | _, F64 => F64
  | F32, _ | _, F32 => F32
  | F16, BF16 | BF16, F16 => F32
  | F16, _ | _, F16 => F16
  | BF16, _ | _, BF16 => BF16
  | I64, _ | _, I64 => I64
  | I32, _ | _, I32 => I32
  | I16, _ | _, I16 => I16
  | U8, U8 => U8
  | I8, I8 => I8
  | U8, I8 | I8, U8 => I16
  end.

(** [torch.cat(tensors)] along the first dimension.  It raises
    [ValueError] on an empty list and [RuntimeError] when the trailing
    dimensions of the tensors differ; tensors of shape [(0,)] are skipped
    in that comparison; the element types are promoted to a common type. *)
Definition torch_cat {A} (tensors : list (tensor A)) : result (tensor A) :=
  match tensors with
  | [] => Err ValueError
  | t0 :: ts =>
      let dt := foldr promote_types (tensor_dtype t0) (tensor_dtype <$> ts) in
      match filter (λ t, shape t ≠ [0]) tensors with
      | [] => Ok (Tensor [] [] dt)
      | t1 :: rest =>
          if decide (Forall (λ t, tensor_row_shape t = tensor_row_shape t1)
                       rest)
          then Ok (Tensor (mjoin (tensor_rows <$> t1 :: rest))
                          (tensor_row_shape t1) dt)
          else Err RuntimeError
      end
  end.

(** ** Collective transport *)

(** Modelled from the spec: [allgather_sizes] of gloo_wrapper, which is
    not among the sources.  Every peer contributes a small vector of
    sizes; the result, the same on every peer, is the concatenation of the
    contributions in rank order. *)
Definition allgather_sizes (contribs : list (list Z)) : list Z := mjoin contribs.

(** What the transport does not take from a buffer's row count: its
    trailing dimensions and its element type. *)
Definition buffer_frame {B} (t : tensor B) : list Z * dtype :=
  (tensor_row_shape t, tensor_dtype t).

Definition frames_agree {B} (inputs : list (list (tensor B))) : Prop :=
  match mjoin inputs with
  | [] => True
  | b0 :: bs => Forall (λ b, buffer_frame b = buffer_frame b0) bs
  end.

#[global] Instance frames_agree_dec {B} (inputs : list (list (tensor B))) :
  Decision (frames_agree inputs).
Proof. unfold frames_agree. destruct (mjoin inputs); apply _. Defined.

(** Modelled from the spec: [alltoallv_cpu(rank, world_size, input_list,
    retain_nones=False)] of gloo_wrapper, which is not among the sources.
    [inputs] lists the [input_list] of every peer, in rank order; the
    result is what the call returns on peer [rank].  Peer [s] sends
    [inputs[s][r]] to peer [r], which receives the buffers in sender order.
    The sizes exchanged ahead of the payloads are row counts; trailing
    dimensions and element types are not framed, so a call whose buffers
    do not agree in them over the process group is not served: it fails.
    The spec keeps a zero-length send as an empty buffer; every call of
    the file passes [retain_nones=False], under which a buffer that arrives
    with zero rows is left out of the returned list. *)
Definition alltoallv_cpu {B} (inputs : list (list (tensor B))) (rank : nat)
    : result (list (tensor B)) :=
  _ ← assert (frames_agree inputs);
  Ok (filter (λ b, length (tensor_rows b) ≠ 0%nat)
        (omap (λ input_list : list (tensor B), input_list !! rank) inputs)).

(** ** Chunk count of the feature shuffle: [_get_num_chunks] *)

Definition MB : Z := 1024 * 1024.

Definition _get_num_chunks (shapes : list Z) (dtype_sz : Z)
    (rank world_size : nat) (msg_size : Z) : result Z :=
  s0 ← from_option IndexError (shapes !! 0%nat);
  _ ← assert (s0 ≠ 0);
  shapes ← np_split shapes world_size;
  let sizes := (λ s, np_prod s * dtype_sz) <$> shapes in
  if decide (msg_size = 0) then Ok 1
  else
    let max_msg_size :=
      if decide (np_amax sizes < MB) then 1 else np_amax sizes / MB in
    let num_chunks := ceil_div max_msg_size msg_size in
    Ok num_chunks.

(** ** Edge records *)

(** One row of the five parallel edge columns, in the order in which
    [exchange_edge_data] stacks them ([np.column_stack]).  The five columns
    of the source always have the same length and are sliced and masked
    together, so a table is embedded as the list of its rows. *)
Record edge := Edge {
  global_src_id : Z;
  global_dst_id : Z;
  global_type_eid : Z;
  etype_id : Z;
  global_eid : Z
}.

#[global] Instance edge_eq_dec : EqDecision edge.
Proof. solve_decision. Defined.

(** [np.concatenate(pieces)]: raises on an empty list of pieces. *)
Definition np_concatenate {A} (pieces : list (list A)) : result (list A) :=
  match pieces with
  | [] => Err ValueError
  | _ => Ok (mjoin pieces)
  end.

Definition CHUNK_SIZE : Z := 100 * 1000 * 1000.

(** [num_chunks] of [exchange_edge_data]. *)
Definition edge_num_chunks (max_edges : Z) : Z :=
  np_floordiv max_edges CHUNK_SIZE
  + (if decide (np_mod max_edges CHUNK_SIZE = 0) then 0 else 1).

(** [LOCAL_CHUNK_SIZE] of [exchange_edge_data]. *)
Definition LOCAL_CHUNK_SIZE (num_edges num_chunks : Z) : Z :=
  np_floordiv num_edges num_chunks
  + (if decide (np_mod num_edges num_chunks = 0) then 0 else 1).

(** The contribution of a worker to the size all-gather. *)
Definition edge_counts (edge_data : list (list edge)) : list Z :=
  allgather_sizes ((λ ed, [Z.of_nat (length ed)]) <$> edge_data).

Section with_lookup.

(** The distributed lookup service [id_lookup.get_partition_ids] (class
    DistLookupService, not among the sources) is taken as a parameter: the
    partition id of a global node id, the same whoever asks. *)
Variable partition_of : Z → Z.

Definition get_partition_ids (global_nids : list Z) : list Z :=
  partition_of <$> global_nids.

(** Ownership of an edge: its destination node belongs to the global
    partition [r + l * world_size], local partition [l] of rank [r]. *)
Definition owned_by (world_size r l : nat) (e : edge) : Prop :=
  partition_of (global_dst_id e) = Z.of_nat (r + l * world_size).

#[global] Instance owned_by_dec world_size r l e :
  Decision (owned_by world_size r l e).
Proof. unfold owned_by. apply _. Defined.

(** The [input_list] one worker builds for a chunk [cur] of its edges and a
    local partition: bucket [idx] holds the rows whose destination is owned
    by global partition [idx + local_part_id * world_size], as an [int64]
    tensor of shape [(n, 5)] (also when [n = 0]). *)
Definition edge_input_list (world_size local_part_id : nat) (cur : list edge)
    : list (tensor edge) :=
  let owner_ids := get_partition_ids (global_dst_id <$> cur) in
  (λ idx : nat,
     let send_idx :=
       (λ o, bool_decide (o = Z.of_nat (idx + local_part_id * world_size)))
         <$> owner_ids in
     let filt_data := mask_select send_idx cur in
     Tensor filt_data [5] I64) <$> seq 0 world_size.

(** The chunk a worker holding [ed] processes in round [chunk]. *)
Definition edge_chunk (num_chunks chunk : Z) (ed : list edge) : list edge :=
  let lcs := LOCAL_CHUNK_SIZE (Z.of_nat (length ed)) num_chunks in
  slice (chunk * lcs) ((chunk + 1) * lcs) ed.

(** One round of the chunk loop, on rank [r]: [rcvd_edge_data], the
    concatenation of the buffers the transport returns, in sender order.
    [torch.cat] is called on the returned list as it is: it raises when
    rank [r] receives no row in the round. *)
Definition edge_round (world_size local_part_id : nat) (num_chunks chunk : Z)
    (edge_data : list (list edge)) (r : nat) : result (list edge) :=
  let inputs : list (list (tensor edge)) :=
    (λ ed, edge_input_list world_size local_part_id
             (edge_chunk num_chunks chunk ed)) <$> edge_data in
  output_list ← alltoallv_cpu inputs r;
  rcvd_edge_data ← torch_cat output_list;
  Ok (tensor_rows rcvd_edge_data).

(** The rows rank [r] stores under local partition [local_part_id]. *)
Definition edge_local_part (world_size : nat) (num_chunks : Z)
    (edge_data : list (list edge)) (r local_part_id : nat)
    : result (list edge) :=
  pieces ← sequence
    ((λ chunk, edge_round world_size local_part_id num_chunks chunk
                 edge_data r) <$> seqZ 0 num_chunks);
  np_concatenate pieces.

(** The rows addressed to rank [r] in one round: those of the chunks of
    all the workers that its local partition [local_part_id] owns, sender
    after sender. *)
Definition edge_receipt (world_size local_part_id : nat)
    (num_chunks chunk : Z) (edge_data : list (list edge)) (r : nat)
    : list edge :=
  mjoin ((λ ed, filter (owned_by world_size r local_part_id)
                  (edge_chunk num_chunks chunk ed)) <$> edge_data).

(** The loop over the local partitions of [exchange_edge_data], on every
    rank: entry [r] lists, per local partition, the rows rank [r] holds
    after the exchange. *)
Definition edge_exchange_loop (world_size num_parts : nat) (num_chunks : Z)
    (edge_data : list (list edge)) : result (list (list (list edge))) :=
  sequence
    ((λ r, sequence
       ((λ local_part_id,
           edge_local_part world_size num_chunks edge_data r local_part_id)
          <$> seq 0 (num_parts / world_size)%nat))
       <$> seq 0 world_size).

(** [local_edge_count] of one rank after the exchange. *)
Definition local_edge_count (parts : list (list edge)) : Z :=
  np_sum ((λ part, Z.of_nat (length part)) <$> parts).

(** [exchange_edge_data] on the whole process group: [edge_data !! r] is
    the table read by rank [r]; the result gives, for every rank and every
    local partition, the rows held after the shuffle. *)
Definition exchange_edge_data (world_size num_parts : nat)
    (edge_data : list (list edge)) : result (list (list (list edge))) :=
  let all_counts := edge_counts edge_data in
  let max_edges := np_amax all_counts in
  let all_edges := np_sum all_counts in
  let num_chunks := edge_num_chunks max_edges in
  out ← edge_exchange_loop world_size num_parts num_chunks edge_data;
  (* Check if the data was exchanged correctly *)
  let shuffle_edge_counts :=
    allgather_sizes ((λ parts, [local_edge_count parts]) <$> out) in
  let shuffle_edge_total := np_sum shuffle_edge_counts in
  _ ← assert (shuffle_edge_total = all_edges);
  Ok out.

End with_lookup.


(** ** Sorting and indexing *)

(** [np.argsort]: the indices that sort the array.  numpy's default sort
    leaves the order among equal keys unspecified; the embedding fixes the
    stable order (an insertion sort, which is also what numpy runs on short
    arrays). *)
Fixpoint argsort_insert (x : Z * nat) (l : list (Z * nat)) : list (Z * nat) :=
  match l with
  | [] => [x]
  | y :: l' => if decide (x.1 ≤ y.1) then x :: y :: l'
               else y :: argsort_insert x l'
  end.

(** The order [argsort] sorts by: the key alone, not the position. *)
Definition key_le (x y : Z * nat) : Prop := x.1 ≤ y.1.

Definition argsort (a : list Z) : list nat :=
  snd <$> foldr argsort_insert [] (zip a (seq 0 (length a))).

(** [a[idx]] with an integer index array: [IndexError] when an index is out
    of range (the indices of the embedding are never negative). *)
Definition in_range {A} (a : list A) (idx : list nat) : Prop :=
  Forall (λ i, (i < length a)%nat) idx.

Definition gather {A} (a : list A) (idx : list nat) : list A :=
  omap (λ i, a !! i) idx.

Definition fancy_index {A} (a : list A) (idx : list nat) : result (list A) :=
  if decide (in_range a idx) then Ok (gather a idx) else Err IndexError.

(** [np.unique]: the sorted distinct values. *)
Definition np_unique (a : list Z) : list Z := merge_sort Z.le (remove_dups a).

(** Index of the first occurrence of [v] in [a]. *)
Definition first_index (a : list Z) (v : Z) : nat :=
  default 0%nat (fst <$> list_find (λ x, x = v) a).

(** [np.intersect1d(ar1, ar2, return_indices=True)]: the sorted common
    values, and the indices of their first occurrences in [ar1] and in
    [ar2]. *)
Definition intersect1d (ar1 ar2 : list Z) : list Z * list nat * list nat :=
  let common := filter (λ v, v ∈ ar2) (np_unique ar1) in
  (common, first_index ar1 <$> common, first_index ar2 <$> common).

(** ** Column dictionaries *)

(** The dictionaries [node_data] and [edge_data] map a key
    ["<column>/<local_part_id>"] to a column.  The key is embedded as the
    pair of the column name and the local partition id. *)
Abbreviation dict := (gmap (string * nat) (list Z)).

Definition GLOBAL_NID : string := "global_node_id".
Definition NTYPE_ID : string := "node_type_id".
Definition GLOBAL_TYPE_NID : string := "global_type_nid".
Definition SHUFFLE_GLOBAL_NID : string := "shuffle_global_nid".
Definition GLOBAL_SRC_ID : string := "global_src_id".
Definition GLOBAL_DST_ID : string := "global_dst_id".
Definition GLOBAL_TYPE_EID : string := "global_type_eid".
Definition ETYPE_ID : string := "edge_type_id".
Definition GLOBAL_EID : string := "global_edge_id".
Definition SHUFFLE_GLOBAL_EID : string := "shuffle_global_eid".

(** ** Sorting the records of a local partition: [reorder_data] *)

(** One iteration of the loop over the local partitions: every column whose
    key ends in [local_part_id] is permuted by the argsort of the [key]
    column. *)
Definition reorder_part (key : string) (local_part_id : nat) (data : dict)
    : result dict :=
  col ← from_option KeyError (data !! (key, local_part_id));
  let sorted_idx := argsort col in
  if decide (map_Forall (λ (k : string * nat) v,
                           k.2 = local_part_id → in_range v sorted_idx) data)
  then Ok (map_imap (λ (k : string * nat) v,
                       Some (if decide (k.2 = local_part_id)
                             then gather v sorted_idx else v)) data)
  else Err IndexError.

Definition reorder_data (num_parts world_size : nat) (data : dict)
    (key : string) : result dict :=
  foldl (λ acc local_part_id, data ← acc; reorder_part key local_part_id data)
        (Ok data) (seq 0 (num_parts / world_size)%nat).

(** The order the records of a local partition would have if they were
    sorted by type id and, within a type, by per-type id. *)
Definition type_then_id_le (x y : Z * Z) : Prop :=
  x.1 < y.1 ∨ (x.1 = y.1 ∧ x.2 ≤ y.2).

Definition sorted_by_type_then_id (type_ids per_type_ids : list Z) : Prop :=
  Sorted type_then_id_le (zip type_ids per_type_ids).

(** ** Re-ordering the received features: the loops of [gen_dist_partitions] *)

(** The body of the loops that re-order the node (resp. edge) features of
    one feature key and local partition: [ids] is the column
    [GLOBAL_NID/l] (resp. [GLOBAL_EID/l]) and [shuffle_ids] the column
    [SHUFFLE_GLOBAL_NID/l] (resp. [SHUFFLE_GLOBAL_EID/l]) of the renumbered
    table, [rcvd_global_ids] the global ids received with the feature rows
    [rcvd_features]. *)
Definition reorder_feature {A} (ids shuffle_ids rcvd_global_ids : list Z)
    (rcvd_features : list A) : result (list A) :=
  let '(_, idx1, _) := intersect1d ids rcvd_global_ids in
  shuffle_global_ids ← fancy_index shuffle_ids idx1;
  let feature_idx := argsort shuffle_global_ids in
  fancy_index rcvd_features feature_idx.

(** The shuffle-global id that the renumbered table gives a global id. *)
Definition shuffle_id_of (ids shuffle_ids : list Z) (g : Z) : Z :=
  default 0 (shuffle_ids !! first_index ids g).

Definition reorder_node_feature {A : Type} (node_data : dict) (local_part_id : nat)
    (global_nids : list Z) (features : list A) : result (list A) :=
  ids ← from_option KeyError (node_data !! (GLOBAL_NID, local_part_id));
  sids ← from_option KeyError (node_data !! (SHUFFLE_GLOBAL_NID, local_part_id));
  reorder_feature ids sids global_nids features.

Definition reorder_edge_feature {A : Type} (edge_data : dict) (local_part_id : nat)
    (global_eids : list Z) (features : list A) : result (list A) :=
  ids ← from_option KeyError (edge_data !! (GLOBAL_EID, local_part_id));
  sids ← from_option KeyError (edge_data !! (SHUFFLE_GLOBAL_EID, local_part_id));
  reorder_feature ids sids global_eids features.

(** ** The schema of the node types *)

(** The entries [node_type] and [num_nodes_per_chunk] of the metadata:
    every node type name with its node counts per chunk, in schema order. *)
Abbreviation schema := (list (string * list Z)).

(** Modelled from the spec: [get_idranges] (with [get_ntype_counts_map]) of
    utils.py, which is not among the sources.  Type ids are dense in
    [0, N_t); the global ids concatenate the types in schema order,
    [global = offset(t) + type_id] with [offset(t_i)] the sum of the counts
    of the earlier types.  The first result maps a type name to the type-id
    ranges of its chunks, the second to its range of global ids. *)
Fixpoint chunk_ranges (start : Z) (counts : list Z) : list (Z * Z) :=
  match counts with
  | [] => []
  | c :: counts => (start, start + c) :: chunk_ranges (start + c) counts
  end.

Fixpoint idranges_from (offset : Z) (sch : schema)
    : list (string * (list (Z * Z) * (Z * Z))) :=
  match sch with
  | [] => []
  | (name, counts) :: sch =>
      (name, (chunk_ranges 0 counts, (offset, offset + np_sum counts)))
        :: idranges_from (offset + np_sum counts) sch
  end.

Definition get_idranges (sch : schema)
    : gmap string (list (Z * Z)) * gmap string (Z * Z) :=
  let ranges := idranges_from 0 sch in
  (foldl (λ m p, <[p.1 := p.2.1]> m) ∅ ranges,
   foldl (λ m p, <[p.1 := p.2.2]> m) ∅ ranges).

(** Modelled from the spec: [get_node_types] of utils.py, which is not among
    the sources: the node type ids number the type names in schema order. *)
Definition get_node_types (sch : schema) : list (Z * string) :=
  imap (λ i p, (Z.of_nat i, p.1)) sch.

(** Modelled from the spec: the node records of the whole graph, as
    triples [(global_nid, type_nid, ntype_id)] in global id order. *)
Fixpoint graph_nodes_from (ntype_id offset : Z) (sch : schema)
    : list (Z * Z * Z) :=
  match sch with
  | [] => []
  | (_, counts) :: sch =>
      ((λ j, (offset + j, j, ntype_id)) <$> seqZ 0 (np_sum counts))
        ++ graph_nodes_from (ntype_id + 1) (offset + np_sum counts) sch
  end.

Definition graph_nodes (sch : schema) : list (Z * Z * Z) :=
  graph_nodes_from 0 0 sch.

Definition num_nodes (sch : schema) : Z := np_sum ((λ p, np_sum p.2) <$> sch).

(** The node type ids with their ranges of type ids and of global ids. *)
Fixpoint type_table_from (ntype_id offset : Z) (sch : schema)
    : list (Z * (Z * Z * (Z * Z))) :=
  match sch with
  | [] => []
  | (_, counts) :: sch =>
      (ntype_id, ((0, np_sum counts), (offset, offset + np_sum counts)))
        :: type_table_from (ntype_id + 1) (offset + np_sum counts) sch
  end.

(** ** Local-node synthesis: [gen_node_data] *)

Section node_synthesis.

Variable partition_of : Z → Z.

(** The ranges [type_start, type_end) and [gnid_start, gnid_end) that the
    loop over the node types reads off the two dictionaries. *)
Definition node_type_ranges (type_nid_dict : gmap string (list (Z * Z)))
    (global_nid_dict : gmap string (Z * Z)) (ntype_name : string)
    : result (Z * Z * (Z * Z)) :=
  type_ranges ← from_option KeyError (type_nid_dict !! ntype_name);
  first ← from_option IndexError (head type_ranges);
  final ← from_option IndexError (last type_ranges);
  gnid_range ← from_option KeyError (global_nid_dict !! ntype_name);
  Ok ((first.1, final.2), gnid_range).

(** What one iteration of the loops over the node types and the local
    partitions appends to the three columns: [(own_gnids, ntype ids,
    own_tnids)]. *)
Definition own_nodes (rank world_size local_part_id : nat) (ntype_id : Z)
    (type_range gnid_range : Z * Z) : list Z * list Z * list Z :=
  let '(type_start, type_end) := type_range in
  let '(gnid_start, gnid_end) := gnid_range in
  let node_partid_slice :=
    get_partition_ids partition_of (arange gnid_start gnid_end) in
  let cond :=
    (λ p, bool_decide (p = Z.of_nat (rank + local_part_id * world_size)))
      <$> node_partid_slice in
  let own_gnids := mask_select cond (arange gnid_start gnid_end) in
  let own_tnids := mask_select cond (arange type_start type_end) in
  (own_gnids, replicate (length own_gnids) ntype_id, own_tnids).

(** The three columns of one local partition, concatenated over the node
    types. *)
Definition node_columns (rank world_size local_part_id : nat)
    (ranges : list (Z * (Z * Z * (Z * Z))))
    : result (list Z * list Z * list Z) :=
  let pieces :=
    (λ r : Z * (Z * Z * (Z * Z)),
       own_nodes rank world_size local_part_id r.1 r.2.1 r.2.2) <$> ranges in
  gnids ← np_concatenate ((λ p : list Z * list Z * list Z, p.1.1) <$> pieces);
  ntype_ids ← np_concatenate ((λ p : list Z * list Z * list Z, p.1.2) <$> pieces);
  tnids ← np_concatenate ((λ p : list Z * list Z * list Z, p.2) <$> pieces);
  Ok (gnids, ntype_ids, tnids).

Definition insert_node_columns (d : dict) (l : nat)
    (cols : list Z * list Z * list Z) : dict :=
  <[(GLOBAL_TYPE_NID, l) := cols.2]>
    (<[(NTYPE_ID, l) := cols.1.2]> (<[(GLOBAL_NID, l) := cols.1.1]> d)).

(** [gen_node_data] as run by the worker [rank]. *)
Definition gen_node_data (rank world_size num_parts : nat)
    (ntid_ntype_map : list (Z * string)) (sch : schema) : result dict :=
  let '(type_nid_dict, global_nid_dict) := get_idranges sch in
  ranges ← sequence
    ((λ nt : Z * string,
        r ← node_type_ranges type_nid_dict global_nid_dict nt.2;
        Ok (nt.1, r)) <$> ntid_ntype_map);
  cols ← sequence
    ((λ local_part_id, node_columns rank world_size local_part_id ranges)
       <$> seq 0 (num_parts / world_size)%nat);
  Ok (foldl (λ d lc, insert_node_columns d lc.1 lc.2) ∅
        (zip (seq 0 (num_parts / world_size)%nat) cols)).

(** A node triple is owned by local partition [l] of worker [rank]. *)
Definition owns (rank world_size l : nat) (t : Z * Z * Z) : Prop :=
  partition_of t.1.1 = Z.of_nat (rank + l * world_size).

#[global] Instance owns_dec rank world_size l t :
  Decision (owns rank world_size l t).
Proof. unfold owns. apply _. Defined.

(** The global node ids worker [rank] holds under a local partition after
    [gen_node_data] (no ids when the call raises). *)
Definition local_nodes (rank world_size num_parts : nat) (sch : schema)
    (local_part_id : nat) : list Z :=
  match gen_node_data rank world_size num_parts (get_node_types sch) sch with
  | Ok node_data => default [] (node_data !! (GLOBAL_NID, local_part_id))
  | Err _ => []
  end.

End node_synthesis.

(** ** Exchange of one feature chunk: [exchange_feature] *)

Inductive feat_type := STR_NODE_FEATURES | STR_EDGE_FEATURES.

#[global] Instance feat_type_eq_dec : EqDecision feat_type.
Proof. solve_decision. Defined.

(** The arguments of [exchange_feature] that differ from worker to worker. *)
Record feature_args (A : Type) := FeatureArgs {
  fa_data : option (list edge);
  fa_featdata_key : option (tensor A);
  fa_gid_start : Z;
  fa_gid_end : Z;
  fa_type_id_start : Z;
  fa_type_id_end : Z
}.
Arguments FeatureArgs {A} _ _ _ _ _ _.
Arguments fa_data {A} _.
Arguments fa_featdata_key {A} _.
Arguments fa_gid_start {A} _.
Arguments fa_gid_end {A} _.
Arguments fa_type_id_start {A} _.
Arguments fa_type_id_end {A} _.

(** The dictionaries [cur_features] and [cur_global_ids] of one worker.  A
    key ["<type>/<feature>/<local_part_id>"] is embedded as a triple; the
    global ids are one-dimensional [int64] tensors. *)
Record feature_store (A : Type) := FeatureStore {
  cur_features : gmap (string * string * nat) (tensor A);
  cur_global_ids : gmap (string * string * nat) (tensor Z)
}.
Arguments FeatureStore {A} _ _.
Arguments cur_features {A} _.
Arguments cur_global_ids {A} _.

Definition empty_store {A} : feature_store A := FeatureStore ∅ ∅.

Definition feat_dim_len {A} (featdata_key : option (tensor A)) : Z :=
  match featdata_key with
  | Some t => Z.of_nat (length (shape t))
  | None => 0
  end.

Definition feat_dims_dtype {A} (rank0_shape_len : Z)
    (featdata_key : option (tensor A)) : list Z :=
  match featdata_key with
  | Some t => shape t ++ [DATA_TYPE_ID (tensor_dtype t)]
  | None => replicate (Z.to_nat rank0_shape_len) 0 ++ [DATA_TYPE_ID F32]
  end.

(** The loop [for idx in range(1, world_size)] with its assertion. *)
Definition check_shape_lens (world_size : nat) (all_lens : list Z)
    (rank0_shape_len : Z) : result (list unit) :=
  sequence
    ((λ idx, len ← from_option IndexError (all_lens !! idx);
             assert (len = 0 ∨ len = rank0_shape_len))
       <$> seq 1 (world_size - 1)).

(** Stitching the received buffers into the dictionaries of a worker. *)
Definition stitch {A} (local_feat_key : string * string * nat)
    (store : feature_store A) (output_feat_list : list (tensor A))
    (output_id_list : list (tensor Z)) : result (feature_store A) :=
  _ ← assert (length output_feat_list = length output_id_list);
  if decide (0 < length output_feat_list)%nat then
    feats ← torch_cat output_feat_list;
    ids ← torch_cat output_id_list;
    match cur_features store !! local_feat_key with
    | Some temp =>
        new_feats ← torch_cat [temp; feats];
        temp_ids ← from_option KeyError
                     (cur_global_ids store !! local_feat_key);
        new_ids ← torch_cat [temp_ids; ids];
        Ok (FeatureStore
              (<[local_feat_key := new_feats]> (cur_features store))
              (<[local_feat_key := new_ids]> (cur_global_ids store)))
    | None =>
        Ok (FeatureStore
              (<[local_feat_key := feats]> (cur_features store))
              (<[local_feat_key := ids]> (cur_global_ids store)))
    end
  else Ok store.

Section feature_shuffle.

Variable partition_of : Z → Z.
Context {A : Type}.

(** [partid_slice]: the owner partition of every row of the chunk.  For
    edge features the owner is that of the destination of the edge, found
    in the local edge table [data]. *)
Definition feature_partids (ft : feat_type) (a : feature_args A)
    : result (list Z) :=
  match ft with
  | STR_NODE_FEATURES =>
      Ok (get_partition_ids partition_of
            (arange (fa_gid_start a) (fa_gid_end a)))
  | STR_EDGE_FEATURES =>
      data ← from_option AssertionError (fa_data a);
      let global_eids := arange (fa_gid_start a) (fa_gid_end a) in
      let '(common, idx1, idx2) :=
        intersect1d (global_eid <$> data) global_eids in
      _ ← assert (length common = length idx2);
      _ ← assert (length common = length global_eids);
      global_dst_nids ← fancy_index (global_dst_id <$> data) idx1;
      eids ← fancy_index (global_eid <$> data) idx1;
      _ ← assert (global_eids = eids);
      Ok (get_partition_ids partition_of global_dst_nids)
  end.

(** The loop [for idx in range(world_size)] of one worker: the feature
    tensor and the global ids it sends to every rank.  For a rank that is
    to receive nothing the worker sends [torch.empty] of shape
    [(0, ..., 0)], with as many dimensions as the tensor of rank 0 and with
    its element type, and an empty vector of ids.  (The id range and the
    type-id range of a chunk have the same length, so the masks fit.) *)
Definition feature_send_lists (world_size local_part_id : nat)
    (a : feature_args A) (partid_slice all_dims_dtype : list Z)
    : result (list (tensor A * tensor Z)) :=
  let gids_feat := arange (fa_gid_start a) (fa_gid_end a) in
  let local_idx := arange 0 (fa_type_id_end a - fa_type_id_start a) in
  sequence
    ((λ idx : nat,
        let cond :=
          (λ p, bool_decide
                  (p = Z.of_nat (idx + local_part_id * world_size)))
            <$> partid_slice in
        let gids_per_partid := mask_select cond gids_feat in
        let local_idx_partid := mask_select cond local_idx in
        if decide (length gids_per_partid = 0%nat) then
          _ ← assert ((length all_dims_dtype mod world_size)%nat = 0%nat);
          let dim_len := (length all_dims_dtype / world_size)%nat in
          tag ← from_option IndexError (all_dims_dtype !! (dim_len - 1)%nat);
          rank0_dtype ← from_option KeyError (REV_DATA_TYPE_ID tag);
          Ok (Tensor [] (replicate (dim_len - 2) 0) rank0_dtype,
              Tensor [] [] I64)
        else
          t ← from_option TypeError (fa_featdata_key a);
          rows ← fancy_index (tensor_rows t) (Z.to_nat <$> local_idx_partid);
          Ok (Tensor rows (tensor_row_shape t) (tensor_dtype t),
              Tensor gids_per_partid [] I64))
       <$> seq 0 world_size).

(** [exchange_feature] on the whole process group, for one feature key and
    one local partition: [args !! r] and [stores !! r] belong to rank [r]. *)
Definition exchange_feature (world_size : nat) (ft : feat_type)
    (feat_key : string * string) (local_part_id : nat)
    (args : list (feature_args A)) (stores : list (feature_store A))
    : result (list (feature_store A)) :=
  let local_feat_key := (feat_key.1, feat_key.2, local_part_id) in
  partids ← sequence (feature_partids ft <$> args);
  let all_lens :=
    allgather_sizes ((λ a, [feat_dim_len (fa_featdata_key a)]) <$> args) in
  rank0_shape_len ← from_option IndexError (all_lens !! 0%nat);
  if decide (rank0_shape_len ≤ 0) then Ok stores
  else
    _ ← check_shape_lens world_size all_lens rank0_shape_len;
    let all_dims_dtype :=
      allgather_sizes
        ((λ a, feat_dims_dtype rank0_shape_len (fa_featdata_key a))
           <$> args) in
    sends ← sequence
      ((λ ap : feature_args A * list Z,
          feature_send_lists world_size local_part_id ap.1 ap.2
            all_dims_dtype) <$> zip args partids);
    let feats_per_rank :=
      (λ s : list (tensor A * tensor Z), s.*1) <$> sends in
    let global_id_per_rank :=
      (λ s : list (tensor A * tensor Z), s.*2) <$> sends in
    sequence
      (imap (λ rank store,
               output_feat_list ← alltoallv_cpu feats_per_rank rank;
               output_id_list ← alltoallv_cpu global_id_per_rank rank;
               stitch local_feat_key store output_feat_list output_id_list)
            stores).

(** ** The feature shuffle: [exchange_features] *)

(** What one worker brings to the shuffle of one feature key: the tensor
    it read (or [None]), the type-id range of its rows, the edge table for
    edge features. *)
Record feature_input := FeatureInput {
  fi_feature_data : option (tensor A);
  fi_type_id_start : Z;
  fi_type_id_end : Z;
  fi_data : option (list edge)
}.

Definition feat_dims (featdata_key : option (tensor A)) : list Z :=
  match featdata_key with
  | Some t => shape t
  | None => [0]
  end.

(** [rows_per_chunk] as [exchange_features] computes it from the number of
    rows and the chunk count of [_get_num_chunks]. *)
Definition rows_per_chunk (rows num_msg_chunks : Z) : Z :=
  if decide (rows < num_msg_chunks) then rows else rows / num_msg_chunks.

(** The state of the chunk loop. *)
Record chunk_bounds := ChunkBounds {
  cb_start : Z;
  cb_end : Z;
  cb_typeid_start : Z;
  cb_typeid_end : Z;
  cb_gid_start : Z;
  cb_gid_end : Z
}.

(** The loop [for _ in range(num_msg_chunks)]: the bounds with which every
    iteration calls [exchange_feature]. *)
Fixpoint chunk_loop (n : nat) (rows rpc type_id_end gid_end : Z)
    (st : chunk_bounds) : list chunk_bounds :=
  match n with
  | O => []
  | S n =>
      let end_ := cb_end st + rpc in
      let chunk_typeid_end := cb_typeid_end st + rpc in
      let chunk_gid_end := cb_gid_end st + rpc in
      let cur :=
        if decide (end_ > rows)
        then ChunkBounds (cb_start st) rows (cb_typeid_start st) type_id_end
                         (cb_gid_start st) gid_end
        else ChunkBounds (cb_start st) end_ (cb_typeid_start st)
                         chunk_typeid_end (cb_gid_start st) chunk_gid_end in
      cur :: chunk_loop n rows rpc type_id_end gid_end
               (ChunkBounds (cb_end cur) (cb_end cur)
                            (cb_typeid_end cur) (cb_typeid_end cur)
                            (cb_gid_end cur) (cb_gid_end cur))
  end.

(** The calls of [exchange_feature] one worker issues for a local
    partition, in order. *)
Definition feature_chunks (all_dims : list Z) (rank world_size : nat)
    (feat_mesg_size begin_global_id : Z) (inp : feature_input)
    : result (list (feature_args A)) :=
  featdata_key ← from_option AttributeError (fi_feature_data inp);
  num_msg_chunks ← _get_num_chunks all_dims
    (element_size (tensor_dtype featdata_key)) rank world_size feat_mesg_size;
  let rows := Z.of_nat (length (tensor_rows featdata_key)) in
  let rpc := rows_per_chunk rows num_msg_chunks in
  if decide (rpc = 0) then Err ZeroDivisionError
  else
    let num_msg_chunks := ceil_div rows rpc in
    let gid_start := begin_global_id + fi_type_id_start inp in
    let gid_end := begin_global_id + fi_type_id_end inp in
    Ok ((λ c, FeatureArgs (fi_data inp)
                (Some (tensor_slice (cb_start c) (cb_end c) featdata_key))
                (cb_gid_start c) (cb_gid_end c)
                (cb_typeid_start c) (cb_typeid_end c))
          <$> chunk_loop (Z.to_nat num_msg_chunks) rows rpc
                (fi_type_id_end inp) gid_end
                (ChunkBounds 0 0 (fi_type_id_start inp) (fi_type_id_start inp)
                             gid_start gid_start)).

(** The workers meet in every collective of [exchange_feature]: they must
    issue the same number of calls.  Workers that disagree leave their
    peers blocked in a collective that is never matched, which the
    embedding reports as [CollectiveMismatch]. *)
Definition lockstep {B} (plans : list (list B)) : result (list (list B)) :=
  match plans with
  | [] => Ok []
  | p :: _ =>
      if decide (Forall (λ q, length q = length p) plans)
      then Ok ((λ k, omap (λ q : list B, q !! k) plans) <$> seq 0 (length p))
      else Err CollectiveMismatch
  end.

(** One iteration of the loop over the local partitions, on the whole
    process group.  When rank 0 reports no rows the source logs a message
    that formats [local_feat_key], a name that is not defined in
    [exchange_features]: the branch raises [NameError] before it reaches
    its [continue]. *)
Definition exchange_features_part (world_size : nat)
    (feat_mesg_size begin_global_id : Z) (ft : feat_type)
    (feat_key : string * string) (inputs : list feature_input)
    (local_part_id : nat) (stores : list (feature_store A))
    : result (list (feature_store A)) :=
  let all_dims :=
    allgather_sizes ((λ inp, feat_dims (fi_feature_data inp)) <$> inputs) in
  dim0 ← from_option IndexError (all_dims !! 0%nat);
  if decide (dim0 ≤ 0) then Err NameError
  else
    plans ← sequence
      (imap (λ rank inp, feature_chunks all_dims rank world_size
                           feat_mesg_size begin_global_id inp) inputs);
    rounds ← lockstep plans;
    foldl (λ acc args,
             stores ← acc;
             exchange_feature world_size ft feat_key local_part_id args stores)
          (Ok stores) rounds.

(** [exchange_features] on the whole process group, for a [feature_tids]
    with a single feature key that lists one range of type ids on every
    worker: [inputs !! r] is what rank [r] read, the result holds the
    dictionaries [own_features] and [own_global_ids] of every rank. *)
Definition exchange_features (world_size num_parts : nat)
    (feat_mesg_size begin_global_id : Z) (ft : feat_type)
    (feat_key : string * string) (inputs : list feature_input)
    : result (list (feature_store A)) :=
  foldl (λ acc local_part_id,
           stores ← acc;
           exchange_features_part world_size feat_mesg_size begin_global_id
             ft feat_key inputs local_part_id stores)
        (Ok (replicate world_size empty_store))
        (seq 0 (num_parts / world_size)%nat).

End feature_shuffle.

Arguments FeatureInput {A} _ _ _ _.
Arguments fi_feature_data {A} _.
Arguments fi_type_id_start {A} _.
Arguments fi_type_id_end {A} _.
Arguments fi_data {A} _.

(** The rows of the tensor passed to a call of [exchange_feature], each
    paired with the global id at the same offset of the range
    [gid_start .. gid_end): the pairs in which the results on the exchange
    are stated. *)
Definition chunk_rows {A} (a : feature_args A) : list (A * Z) :=
  match fa_featdata_key a with
  | Some t => zip (tensor_rows t) (arange (fa_gid_start a) (fa_gid_end a))
  | None => []
  end.

(** The rows of the tensor a worker read for a feature, each paired with
    its global id: row [i] is the node (or edge) with the type id
    [type_id_start + i], that is the global id
    [begin_global_id + type_id_start + i]. *)
Definition input_rows {A} (begin_global_id : Z) (inp : feature_input (A:=A))
    : list (A * Z) :=
  match fi_feature_data inp with
  | Some t =>
      zip (tensor_rows t)
        (seqZ (begin_global_id + fi_type_id_start inp)
           (Z.of_nat (length (tensor_rows t))))
  | None => []
  end.

(** ** Notions in which the delivery of the features is stated *)

(** The rows of a call that rank [r] is to receive for its local partition
    [local_part_id]: those whose global id belongs to the global partition
    [r + local_part_id * world_size]. *)
Definition owned_rows {A} (partition_of : Z → Z)
    (world_size local_part_id r : nat) (a : feature_args A) : list (A * Z) :=
  filter (λ p, partition_of p.2 = Z.of_nat (r + local_part_id * world_size))
    (chunk_rows a).

(** A call with a tensor of trailing dimensions [rs] and element type
    [dt] whose ranges have as many ids as the tensor has rows. *)
Definition call_wf {A} (rs : list Z) (dt : dtype) (a : feature_args A)
    : Prop :=
  ∃ t, fa_featdata_key a = Some t
    ∧ tensor_row_shape t = rs
    ∧ tensor_dtype t = dt
    ∧ Z.of_nat (length (tensor_rows t))
      = fa_type_id_end a - fa_type_id_start a
    ∧ fa_gid_end a - fa_gid_start a
      = fa_type_id_end a - fa_type_id_start a.

(** The two dictionaries of a worker agree on the key [k]: it is in both
    or in none, with features of trailing dimensions [rs]. *)
Definition store_wf {A} (rs : list Z) (k : string * string * nat)
    (st : feature_store A) : Prop :=
  (cur_features st !! k = None ↔ cur_global_ids st !! k = None)
  ∧ (∀ t, cur_features st !! k = Some t → tensor_row_shape t = rs)
  ∧ (∀ t, cur_global_ids st !! k = Some t → tensor_row_shape t = []).

(** The dictionaries [st'] of rank [r] hold what [st] held and, appended
    under the key of the local partition, the rows rank [r] owns of the
    calls [args], with their global ids. *)
Definition delivered {A} (partition_of : Z → Z)
    (world_size local_part_id : nat) (feat_key : string * string)
    (rs : list Z) (args : list (feature_args A)) (r : nat)
    (st st' : feature_store A) : Prop :=
  let k := (feat_key.1, feat_key.2, local_part_id) in
  let got := mjoin (owned_rows partition_of world_size local_part_id r
                      <$> args) in
  default [] (tensor_rows <$> cur_features st' !! k)
  = default [] (tensor_rows <$> cur_features st !! k) ++ got.*1
  ∧ default [] (tensor_rows <$> cur_global_ids st' !! k)
    = default [] (tensor_rows <$> cur_global_ids st !! k) ++ got.*2
  ∧ store_wf rs k st'
  ∧ ∀ k', k' ≠ k →
      cur_features st' !! k' = cur_features st !! k'
      ∧ cur_global_ids st' !! k' = cur_global_ids st !! k'.

(** The call that carries the whole tensor of a worker. *)
Definition whole_call {A} (begin_global_id : Z) (inp : feature_input (A:=A))
    : feature_args A :=
  FeatureArgs (fi_data inp) (fi_feature_data inp)
    (begin_global_id + fi_type_id_start inp)
    (begin_global_id + fi_type_id_start inp
     + Z.of_nat (length (tensor_rows
                           (default (Tensor [] [] F32) (fi_feature_data inp)))))
    (fi_type_id_start inp)
    (fi_type_id_start inp
     + Z.of_nat (length (tensor_rows
                           (default (Tensor [] [] F32) (fi_feature_data inp))))).

(** The rows rank [r] is to hold for its local partition [l], out of the
    tensors the workers read. *)
Definition expected_rows {A} (partition_of : Z → Z) (world_size : nat)
    (begin_global_id : Z) (inputs : list (feature_input (A:=A)))
    (r l : nat) : list (A * Z) :=
  mjoin ((λ inp, filter (λ p, partition_of p.2
                              = Z.of_nat (r + l * world_size))
                   (input_rows begin_global_id inp)) <$> inputs).

(** The dictionaries of the workers when the local partitions below [n]
    have been exchanged. *)
Definition shuffled_upto {A} (partition_of : Z → Z) (world_size : nat)
    (begin_global_id : Z) (feat_key : string * string)
    (inputs : list (feature_input (A:=A))) (n : nat)
    (stores : list (feature_store A)) : Prop :=
  length stores = world_size
  ∧ ∀ r st, stores !! r = Some st →
      (∀ l, (l < n)%nat →
         default [] (tensor_rows
                       <$> cur_features st !! (feat_key.1, feat_key.2, l))
         = (expected_rows partition_of world_size begin_global_id
              inputs r l).*1
         ∧ default [] (tensor_rows
                         <$> cur_global_ids st !! (feat_key.1, feat_key.2, l))
           = (expected_rows partition_of world_size begin_global_id
                inputs r l).*2)
      ∧ (∀ l, (n ≤ l)%nat →
           cur_features st !! (feat_key.1, feat_key.2, l) = None
           ∧ cur_global_ids st !! (feat_key.1, feat_key.2, l) = None).

(** The byte sizes of the feature tensors of the workers, as
    [_get_num_chunks] computes them from the gathered shapes. *)
Definition peer_sizes (shapes : list Z) (dtype_sz : Z) (world_size : nat)
    : list Z :=
  (λ s, np_prod s * dtype_sz)
    <$> sections world_size (length shapes / world_size)%nat shapes.

(** The rule the specification states for the rows of a chunk:
    [max(1, floor(R / ceil(max_peer_bytes / MSG_CAP)))]. *)
Definition spec_rows_per_chunk (R max_peer_bytes msg_cap : Z) : Z :=
  Z.max 1 (R / ceil_div max_peer_bytes msg_cap).

(** ** Sample data *)

(** Two edges of one type that arrived in descending per-type id order. *)
Definition unsorted_edge_data : dict :=
  <[(ETYPE_ID, 0%nat) := [0; 0]]>
    (<[(GLOBAL_TYPE_EID, 0%nat) := [1; 0]]>
       (<[(GLOBAL_EID, 0%nat) := [1; 0]]>
          (<[(GLOBAL_SRC_ID, 0%nat) := [7; 5]]>
             (<[(GLOBAL_DST_ID, 0%nat) := [4; 6]]> ∅)))).


(** A schema with two node types, and an assignment of its five nodes to
    two partitions. *)
Definition sample_schema : schema :=
  [("author"%string, [1; 1]); ("paper"%string, [2; 1])].

Definition sample_partition_of (global_nid : Z) : Z :=
  if decide (global_nid ∈ [0; 3]) then 1 else 0.

(** * Properties *)

Example edge_demo :
  exchange_edge_data (λ g, g mod 2) 2 2
    [ [Edge 0 1 0 0 0; Edge 1 2 1 0 1]; [Edge 2 3 2 0 2; Edge 3 0 3 0 3] ]
  = Ok [ [[Edge 1 2 1 0 1; Edge 3 0 3 0 3]];
         [[Edge 0 1 0 0 0; Edge 2 3 2 0 2]] ].
Proof. vm_compute. reflexivity. Qed.

(** ** Arithmetic of the chunk sizes *)

Lemma floor_plus_rem_is_ceil (a b : Z) :
  b ≠ 0 →
  a / b + (if decide (a mod b = 0) then 0 else 1) = ceil_div a b.
Proof.
  intros Hb. unfold ceil_div. case_decide as Hm.
  - rewrite Z_div_zero_opp_full by done. lia.
  - rewrite Z_div_nz_opp_full by done. lia.
Qed.

Lemma ceil_div_bounds (a b : Z) :
  0 < b → (ceil_div a b - 1) * b < a ≤ ceil_div a b * b.
Proof.
  intros Hb. unfold ceil_div.
  pose proof (Z.div_mod (- a) b ltac:(lia)) as Hdm.
  pose proof (Z.mod_pos_bound (- a) b Hb). nia.
Qed.

Lemma edge_num_chunks_ceil (max_edges : Z) :
  edge_num_chunks max_edges = ceil_div max_edges CHUNK_SIZE.
Proof.
  unfold edge_num_chunks, np_floordiv, np_mod.
  destruct (decide (CHUNK_SIZE = 0)) as [Hc|Hc]; [done|].
  by apply floor_plus_rem_is_ceil.
Qed.

Lemma LOCAL_CHUNK_SIZE_ceil (num_edges num_chunks : Z) :
  LOCAL_CHUNK_SIZE num_edges num_chunks = ceil_div num_edges num_chunks.
Proof.
  unfold LOCAL_CHUNK_SIZE, np_floordiv, np_mod.
  destruct (decide (num_chunks = 0)) as [->|Hn].
  - unfold ceil_div. rewrite Z.div_0_r. by case_decide.
  - by apply floor_plus_rem_is_ceil.
Qed.

Lemma np_amax_nonneg (l : list Z) : 0 ≤ np_amax l.
Proof. induction l; simpl; lia. Qed.

Lemma np_amax_ge (l : list Z) (x : Z) : x ∈ l → x ≤ np_amax l.
Proof.
  induction 1 as [|x y l _ IH]; simpl; [lia|].
  pose proof (np_amax_nonneg l). lia.
Qed.

Lemma edge_counts_elem (edge_data : list (list edge)) r ed :
  edge_data !! r = Some ed →
  Z.of_nat (length ed) ∈ edge_counts edge_data.
Proof.
  intros Hr. unfold edge_counts, allgather_sizes.
  apply list_elem_of_join. exists [Z.of_nat (length ed)]. split; [set_solver|].
  apply list_elem_of_fmap. exists ed. split; [done|].
  by eapply list_elem_of_lookup_2.
Qed.

(** ** The chunk slices of a table *)

Lemma slices_take {A} (l : list A) (lcs : Z) (n : nat) :
  0 ≤ lcs →
  mjoin ((λ chunk, slice (chunk * lcs) ((chunk + 1) * lcs) l)
            <$> seqZ 0 (Z.of_nat n))
  = take (n * Z.to_nat lcs) l.
Proof.
  intros Hl. induction n as [|n IH].
  - done.
  - rewrite seqZ_S, fmap_app, join_app, IH. simpl.
    rewrite app_nil_r. unfold slice.
    replace (Z.to_nat ((0 + Z.of_nat n) * lcs)) with (n * Z.to_nat lcs)%nat
      by lia.
    replace (Z.to_nat ((0 + Z.of_nat n + 1) * lcs) - n * Z.to_nat lcs)%nat
      with (Z.to_nat lcs) by lia.
    rewrite take_take_drop. f_equal. lia.
Qed.

Lemma slices_cover {A} (l : list A) (lcs n : Z) :
  0 ≤ lcs → Z.of_nat (length l) ≤ n * lcs →
  mjoin ((λ chunk, slice (chunk * lcs) ((chunk + 1) * lcs) l) <$> seqZ 0 n) = l.
Proof.
  intros Hl Hn. destruct (decide (n ≤ 0)) as [Hn0|Hn0].
  - rewrite seqZ_nil by done. simpl.
    destruct l; [done|]. simpl in Hn. nia.
  - rewrite <-(Z2Nat.id n) at 1 by lia. rewrite slices_take by done.
    apply take_ge. nia.
Qed.

Lemma edge_chunks_concat (max_edges : Z) (ed : list edge) :
  Z.of_nat (length ed) ≤ max_edges →
  mjoin ((λ chunk, edge_chunk (edge_num_chunks max_edges) chunk ed)
            <$> seqZ 0 (edge_num_chunks max_edges)) = ed.
Proof.
  intros Hle. unfold edge_chunk.
  set (n := edge_num_chunks max_edges).
  set (lcs := LOCAL_CHUNK_SIZE _ _).
  assert (Hn : 0 ≤ n ∧ max_edges ≤ n * CHUNK_SIZE).
  { subst n. rewrite edge_num_chunks_ceil.
    pose proof (ceil_div_bounds max_edges CHUNK_SIZE ltac:(done)) as Hb.
    unfold CHUNK_SIZE in *. lia. }
  destruct (decide (n = 0)) as [Hn0|Hn0].
  - rewrite Hn0. simpl. destruct ed; [done|]. simpl in Hle. lia.
  - assert (Hl : (lcs - 1) * n < Z.of_nat (length ed) ≤ lcs * n).
    { subst lcs. rewrite LOCAL_CHUNK_SIZE_ceil.
      apply ceil_div_bounds. lia. }
    apply slices_cover; nia.
Qed.

(** C7.  In the edge-data shuffle the number of exchange chunks is the
    ceiling of [max_edges] (the largest local edge count of the size
    all-gather) over the cap [CHUNK_SIZE] = 10^8 rows, the local chunk size
    of a worker is the ceiling of its local edge count over that number of
    chunks, and the chunk slices, taken in order, make up the local edge
    table again: every local edge lies in exactly one chunk. *)
Theorem edge_chunking_covers (edge_data : list (list edge)) (r : nat)
    (ed : list edge) :
  edge_data !! r = Some ed →
  let num_edges := Z.of_nat (length ed) in
  let max_edges := np_amax (edge_counts edge_data) in
  let num_chunks := edge_num_chunks max_edges in
  let lcs := LOCAL_CHUNK_SIZE num_edges num_chunks in
  CHUNK_SIZE = 10 ^ 8
  ∧ num_chunks = ceil_div max_edges CHUNK_SIZE
  ∧ (num_chunks - 1) * CHUNK_SIZE < max_edges ≤ num_chunks * CHUNK_SIZE
  ∧ lcs = ceil_div num_edges num_chunks
  ∧ (0 < num_chunks → (lcs - 1) * num_chunks < num_edges ≤ lcs * num_chunks)
  ∧ mjoin ((λ chunk, edge_chunk num_chunks chunk ed) <$> seqZ 0 num_chunks)
    = ed
  ∧ (∀ i : nat, (i < length ed)%nat →
       ∃ chunk, 0 ≤ chunk < num_chunks
         ∧ chunk * lcs ≤ Z.of_nat i < (chunk + 1) * lcs
         ∧ ∀ chunk', chunk' * lcs ≤ Z.of_nat i < (chunk' + 1) * lcs →
             chunk' = chunk).
Proof.
  intros Hr num_edges max_edges num_chunks lcs.
  assert (Hle : num_edges ≤ max_edges).
  { apply np_amax_ge. by eapply edge_counts_elem. }
  assert (Hceil : num_chunks = ceil_div max_edges CHUNK_SIZE)
    by apply edge_num_chunks_ceil.
  assert (Hb : (num_chunks - 1) * CHUNK_SIZE < max_edges ≤ num_chunks * CHUNK_SIZE).
  { rewrite Hceil. by apply ceil_div_bounds. }
  assert (Hlcs : lcs = ceil_div num_edges num_chunks)
    by apply LOCAL_CHUNK_SIZE_ceil.
  assert (Hlb : 0 < num_chunks →
                (lcs - 1) * num_chunks < num_edges ≤ lcs * num_chunks).
  { intros Hpos. rewrite Hlcs. by apply ceil_div_bounds. }
  do 5 (split; [done|]). split.
  - by apply edge_chunks_concat.
  - intros i Hi.
    assert (0 < num_chunks) as Hpos.
    { unfold CHUNK_SIZE in Hb. subst num_edges. lia. }
    specialize (Hlb Hpos).
    assert (0 < lcs) as Hlpos by (subst num_edges; nia).
    exists (Z.of_nat i / lcs).
    pose proof (Z.div_mod (Z.of_nat i) lcs ltac:(lia)) as Hdm.
    pose proof (Z.mod_pos_bound (Z.of_nat i) lcs Hlpos) as Hmb.
    split; [split|split; [split|]].
    + apply Z.div_pos; lia.
    + apply Z.div_lt_upper_bound; [done|]. subst num_edges. nia.
    + nia.
    + nia.
    + intros chunk' Hc.
      apply Z.div_unique with (Z.of_nat i - chunk' * lcs); lia.
Qed.

Lemma edge_chunking_covers_witness :
  let ed := [Edge 0 1 0 0 0; Edge 1 2 1 0 1] in
  mjoin ((λ chunk, edge_chunk 1 chunk ed) <$> seqZ 0 1) = ed.
Proof.
  intros ed.
  exact (proj1 (proj2 (proj2 (proj2 (proj2 (proj2
    (edge_chunking_covers [ed; [Edge 2 3 2 0 2]] 0 ed eq_refl))))))).
Defined.

(** ** The result monad *)

Ltac unfold_result :=
  unfold mbind, result_bind, mret, result_ret, fmap, result_fmap in *.

Lemma bind_Ok_inv {A B} (m : result A) (f : A → result B) (b : B) :
  m ≫= f = Ok b → ∃ a, m = Ok a ∧ f a = Ok b.
Proof. destruct m as [a|e]; [by exists a|done]. Qed.

Lemma bind_Ok {A B} (a : A) (f : A → result B) : Ok a ≫= f = f a.
Proof. done. Qed.

Lemma bind_Err {A B} (e : error) (f : A → result B) : Err e ≫= f = Err e.
Proof. done. Qed.

Lemma sequence_cons {A} (m : result A) (l : list (result A)) :
  sequence (m :: l) = a ← m; r ← sequence l; Ok (a :: r).
Proof. done. Qed.

Lemma sequence_fmap_Ok {A B} (f : A → result B) (l : list A) (r : list B) :
  sequence (f <$> l) = Ok r ↔ Forall2 (λ a b, f a = Ok b) l r.
Proof.
  revert r. induction l as [|a l IH]; intros r.
  - split.
    + intros [= <-]. constructor.
    + by intros ->%Forall2_nil_inv_l.
  - rewrite fmap_cons, sequence_cons. split.
    + intros (b & Hb & (r' & Hr & [= <-])%bind_Ok_inv)%bind_Ok_inv.
      constructor; [done|]. by apply IH.
    + intros (b & r' & Hb & Hr & ->)%Forall2_cons_inv_l.
      rewrite Hb, bind_Ok. apply IH in Hr. by rewrite Hr.
Qed.

Lemma sequence_fmap_lookup {A B} (f : A → result B) (l : list A) (r : list B)
    (i : nat) (b : B) :
  sequence (f <$> l) = Ok r → r !! i = Some b →
  ∃ a, l !! i = Some a ∧ f a = Ok b.
Proof.
  intros Hs%sequence_fmap_Ok Hi.
  destruct (Forall2_lookup_r _ _ _ _ _ Hs Hi) as (a & Ha & Hf). eauto.
Qed.

Lemma sequence_fmap_total {A B} (f : A → result B) (l : list A) :
  (∀ a, a ∈ l → is_Ok (f a)) → is_Ok (sequence (f <$> l)).
Proof.
  induction l as [|a l IH]; intros Hl.
  - by eexists.
  - rewrite fmap_cons, sequence_cons.
    destruct (Hl a) as [b Hb]; [left|]. rewrite Hb, bind_Ok.
    destruct IH as [r Hr]; [intros; apply Hl; by right|].
    rewrite Hr. by eexists.
Qed.

Lemma sequence_fmap_length {A B} (f : A → result B) (l : list A) (r : list B) :
  sequence (f <$> l) = Ok r → length r = length l.
Proof. intros Hs%sequence_fmap_Ok. symmetry. by eapply Forall2_length. Qed.

(** ** Masks and the transport *)

Lemma mask_select_filter {A} (P : A → Prop) `{∀ x, Decision (P x)}
    (l : list A) :
  mask_select ((λ x, bool_decide (P x)) <$> l) l = filter P l.
Proof.
  induction l as [|x l IH]; [done|].
  rewrite fmap_cons. cbn [mask_select]. rewrite IH, filter_cons.
  destruct (decide (P x)).
  - by rewrite bool_decide_true.
  - by rewrite bool_decide_false.
Qed.

Lemma frames_agree_intro {B} (inputs : list (list (tensor B)))
    (f : list Z * dtype) :
  (∀ inp b, inp ∈ inputs → b ∈ inp → buffer_frame b = f) →
  frames_agree inputs.
Proof.
  intros Hf. unfold frames_agree.
  assert (∀ b, b ∈ mjoin inputs → buffer_frame b = f) as Hall.
  { intros b (inp & Hinp & Hb)%list_elem_of_join. by eapply Hf. }
  destruct (mjoin inputs) as [|b0 bs]; [done|].
  apply Forall_forall. intros b Hb.
  rewrite (Hall b), (Hall b0); [done|left|by right].
Qed.

Lemma alltoallv_cpu_Ok {B} (inputs : list (list (tensor B))) (rank : nat) :
  frames_agree inputs →
  alltoallv_cpu inputs rank
  = Ok (filter (λ b, length (tensor_rows b) ≠ 0%nat)
          (omap (λ input_list : list (tensor B), input_list !! rank) inputs)).
Proof.
  intros Hf. unfold alltoallv_cpu, assert. by rewrite decide_True.
Qed.

Lemma omap_lookup_fmap {B C D} (f : B → list C) (g : B → D) (h : C → D)
    (l : list B) (r : nat) :
  (∀ x, x ∈ l → h <$> f x !! r = Some (g x)) →
  h <$> omap (λ inp : list C, inp !! r) (f <$> l) = g <$> l.
Proof.
  induction l as [|x l IH]; intros Hl; [done|].
  rewrite !fmap_cons. cbn [omap list_omap].
  pose proof (Hl x ltac:(left)) as Hx.
  destruct (f x !! r) as [c|]; [|done]. injection Hx as <-.
  rewrite fmap_cons. f_equal. apply IH. intros y Hy. apply Hl. by right.
Qed.

Lemma join_fmap_filter {B C} (P : B → Prop) `{∀ x, Decision (P x)}
    (f : B → list C) (l : list B) :
  (∀ x, ¬ P x → f x = []) →
  mjoin (f <$> filter P l) = mjoin (f <$> l).
Proof.
  intros Hf. induction l as [|x l IH]; [done|].
  rewrite filter_cons, fmap_cons. case_decide as HP.
  - rewrite fmap_cons. csimpl. by rewrite IH.
  - csimpl. by rewrite IH, (Hf x HP).
Qed.

Lemma filter_nil_Forall {B} (P : B → Prop) `{∀ x, Decision (P x)}
    (l : list B) :
  filter P l = [] ↔ Forall (λ x, ¬ P x) l.
Proof.
  induction l as [|x l IH]; [done|].
  rewrite filter_cons. case_decide as HP.
  - split; [done|]. by intros [? _]%Forall_cons.
  - rewrite IH. split; [by constructor|]. by intros [_ ?]%Forall_cons.
Qed.

Lemma join_nil_Forall {C} (ls : list (list C)) :
  mjoin ls = [] ↔ Forall (λ l, l = []) ls.
Proof.
  induction ls as [|l ls IH]; [done|]. csimpl. split.
  - intros [-> Hls]%app_eq_nil. constructor; [done|]. by apply IH.
  - intros [-> Hls]%Forall_cons. by apply IH.
Qed.

Lemma nonempty_rows_join {B} (bs : list (tensor B)) :
  mjoin (tensor_rows
           <$> filter (λ b, length (tensor_rows b) ≠ 0%nat) bs)
  = mjoin (tensor_rows <$> bs).
Proof.
  apply (join_fmap_filter (λ b, length (tensor_rows b) ≠ 0%nat)).
  intros b Hb. destruct (tensor_rows b); [done|]. cbn [length] in Hb. lia.
Qed.

Lemma nonempty_rows_nil {B} (bs : list (tensor B)) :
  filter (λ b, length (tensor_rows b) ≠ 0%nat) bs = []
  ↔ mjoin (tensor_rows <$> bs) = [].
Proof.
  rewrite filter_nil_Forall, join_nil_Forall, Forall_fmap.
  apply Forall_iff. intros b. cbn. destruct (tensor_rows b); cbn [length].
  - split; [done|]. lia.
  - split; [lia|done].
Qed.

(** [torch.cat] of a non-empty list of tensors with the same trailing
    dimensions. *)
Lemma torch_cat_uniform {B} (ts : list (tensor B)) (rs : list Z) :
  ts ≠ [] → Forall (λ t, tensor_row_shape t = rs) ts →
  ∃ dt, torch_cat ts = Ok (Tensor (mjoin (tensor_rows <$> ts)) rs dt).
Proof.
  intros Hne Hrs. unfold torch_cat.
  destruct ts as [|t0 ts0] eqn:Hts; [done|]. rewrite <-Hts in *.
  set (dt := foldr promote_types _ _). exists dt.
  assert (∀ t : tensor B, ¬ shape t ≠ [0] → tensor_rows t = []) as Hskip.
  { intros t Ht. destruct (decide (shape t = [0])) as [Heq|]; [|done].
    unfold shape in Heq. injection Heq as Hlen _.
    destruct (tensor_rows t); [done|]. cbn [length] in Hlen. lia. }
  pose proof (join_fmap_filter (λ t : tensor B, shape t ≠ [0]) tensor_rows ts
                Hskip) as Hrows.
  destruct (filter (λ t : tensor B, shape t ≠ [0]) ts) as [|t1 rest] eqn:Hf.
  - rewrite <-Hrows. cbn. f_equal. f_equal.
    apply filter_nil_Forall in Hf. rewrite Hts in Hf, Hrs.
    apply Forall_cons in Hf as [Ht0 _]. apply Forall_cons in Hrs as [<- _].
    destruct (decide (shape t0 = [0])) as [Heq|]; [|done].
    unfold shape in Heq. by injection Heq as _ ->.
  - assert (Forall (λ t, tensor_row_shape t = rs) (t1 :: rest)) as Hall.
    { rewrite <-Hf. apply Forall_forall. intros t [_ Ht]%list_elem_of_filter.
      by eapply Forall_forall in Hrs. }
    apply Forall_cons in Hall as [Ht1 Hrest].
    rewrite decide_True.
    + by rewrite Hrows, Ht1.
    + eapply Forall_impl; [exact Hrest|]. intros t ->. done.
Qed.

(** ** Joins, filters and sums *)

Lemma filter_join {A} (P : A → Prop) `{∀ x, Decision (P x)}
    (ls : list (list A)) :
  filter P (mjoin ls) = mjoin (filter P <$> ls).
Proof.
  induction ls as [|l ls IH]; [done|]. simpl.
  by rewrite filter_app, IH.
Qed.

Lemma join_fmap_nil {A B} (xs : list A) :
  mjoin ((λ _, @nil B) <$> xs) = [].
Proof. induction xs; [done|]. simpl. done. Qed.

Lemma join_fmap_app {A B} (f g : A → list B) (xs : list A) :
  mjoin ((λ x, f x ++ g x) <$> xs) ≡ₚ mjoin (f <$> xs) ++ mjoin (g <$> xs).
Proof.
  induction xs as [|x xs IH]; [done|]. simpl. rewrite IH.
  rewrite <-!(assoc (++)). f_equiv. apply Permutation_app_swap_app.
Qed.

Lemma join_swap {A K B} (f : K → A → list B) (ks : list K) (xs : list A) :
  mjoin ((λ k, mjoin ((λ x, f k x) <$> xs)) <$> ks)
  ≡ₚ mjoin ((λ x, mjoin ((λ k, f k x) <$> ks)) <$> xs).
Proof.
  induction ks as [|k ks IH]; simpl.
  - by rewrite join_fmap_nil.
  - rewrite IH. symmetry.
    apply (join_fmap_app (f k) (λ x, mjoin ((λ k, f k x) <$> ks))).
Qed.

Lemma np_sum_of_nat (ns : list nat) :
  np_sum (Z.of_nat <$> ns) = Z.of_nat (sum_list ns).
Proof.
  induction ns as [|n ns IH]; csimpl; [done|].
  unfold np_sum in *. simpl. rewrite IH. lia.
Qed.

Lemma sum_list_fmap_add {A} (f g : A → nat) (xs : list A) :
  sum_list ((λ x, f x + g x)%nat <$> xs)
  = (sum_list (f <$> xs) + sum_list (g <$> xs))%nat.
Proof. induction xs as [|x xs IH]; csimpl; [done|]. rewrite IH. lia. Qed.

Lemma sum_list_fmap_ext {A} (f g : A → nat) (xs : list A) :
  (∀ x, x ∈ xs → f x = g x) → sum_list (f <$> xs) = sum_list (g <$> xs).
Proof.
  induction xs as [|x xs IH]; intros Hfg; csimpl; [done|].
  rewrite Hfg by left. rewrite IH; [done|]. intros; apply Hfg; by right.
Qed.

Lemma sum_list_fmap_zero {A} (xs : list A) :
  sum_list ((λ _, 0%nat) <$> xs) = 0%nat.
Proof. induction xs; csimpl; done. Qed.

(** Exactly one index of [seq 0 n] equals a given [a < n]. *)
Lemma sum_indicator_seq (n a : nat) :
  sum_list ((λ i, if decide (a = i) then 1 else 0)%nat <$> seq 0 n)
  = (if decide (a < n)%nat then 1 else 0)%nat.
Proof.
  induction n as [|n IH]; [done|].
  rewrite seq_S, fmap_app, sum_list_with_app, IH. csimpl.
  repeat case_decide; lia.
Qed.

(** ** The cyclic mapping of partitions to (rank, local partition) *)

(** A partition id [p < k * W] is [r + l * W] for exactly one rank [r < W]
    and one local partition [l < k]. *)
Lemma cyclic_owner_unique (W k p : nat) :
  (p < k * W)%nat →
  sum_list
    ((λ r, sum_list
       ((λ l, if decide (p = r + l * W) then 1 else 0)%nat <$> seq 0 k))
       <$> seq 0 W) = 1%nat.
Proof.
  intros Hp.
  assert (HW : (0 < W)%nat) by (destruct W; lia).
  pose proof (Nat.div_mod_eq p W) as Hdm.
  pose proof (Nat.mod_upper_bound p W ltac:(lia)) as Hmb.
  assert (Hq : (p / W < k)%nat).
  { apply Nat.Div0.div_lt_upper_bound. lia. }
  rewrite (sum_list_fmap_ext _ (λ r, if decide (p mod W = r) then 1 else 0)%nat).
  - rewrite sum_indicator_seq. by case_decide.
  - intros r [_ Hr]%elem_of_seq. simpl in Hr.
    rewrite (sum_list_fmap_ext _
               (λ l, if decide (p mod W = r) then
                       (if decide (p / W = l) then 1 else 0)
                     else 0)%nat).
    + destruct (decide (p mod W = r)%nat) as [Hm|Hm].
      * rewrite sum_indicator_seq. by case_decide.
      * apply sum_list_fmap_zero.
    + intros l _. repeat case_decide; try done; exfalso.
      * assert (l = p / W)%nat by (apply Nat.div_unique with r; lia). lia.
      * assert (r = p mod W)%nat by (apply Nat.mod_unique with l; lia).
        lia.
      * nia.
Qed.

Lemma cyclic_partition_count {A} (f : A → Z) (W k : nat) (xs : list A) :
  (∀ x, x ∈ xs → 0 ≤ f x < Z.of_nat (k * W)) →
  sum_list
    ((λ r, sum_list
       ((λ l, length (filter (λ x, f x = Z.of_nat (r + l * W)) xs))
          <$> seq 0 k)) <$> seq 0 W)
  = length xs.
Proof.
  induction xs as [|x xs IH]; intros Hf.
  - csimpl. rewrite (sum_list_fmap_ext _ (λ _, 0%nat)).
    + apply sum_list_fmap_zero.
    + intros r _. apply sum_list_fmap_zero.
  - rewrite (sum_list_fmap_ext _
      (λ r, sum_list ((λ l, if decide (Z.to_nat (f x) = r + l * W)
                            then 1 else 0) <$> seq 0 k)
            + sum_list ((λ l, length (filter (λ x, f x = Z.of_nat (r + l * W)) xs))
                          <$> seq 0 k))%nat).
    + rewrite sum_list_fmap_add, IH by (intros; apply Hf; by right).
      rewrite cyclic_owner_unique; [done|].
      specialize (Hf x ltac:(left)). lia.
    + intros r _. rewrite <-sum_list_fmap_add.
      apply sum_list_fmap_ext. intros l _.
      rewrite filter_cons. specialize (Hf x ltac:(left)).
      repeat case_decide; csimpl; lia.
Qed.

(** ** The edge-data shuffle *)

Lemma join_singletons {A B} (f : A → B) (l : list A) :
  mjoin ((λ x, [f x]) <$> l) = f <$> l.
Proof. induction l as [|x l IH]; [done|]. csimpl. by rewrite IH. Qed.

Lemma Forall2_fmap_eq {A B C} (f : A → C) (g : B → C) (l : list A)
    (r : list B) :
  Forall2 (λ a b, g b = f a) l r → g <$> r = f <$> l.
Proof. induction 1; csimpl; congruence. Qed.

Lemma np_concatenate_Ok {A} (pieces : list (list A)) (r : list A) :
  np_concatenate pieces = Ok r → r = mjoin pieces.
Proof. destruct pieces; [done|]. by intros [= <-]. Qed.

Lemma np_concatenate_is_Ok {A} (pieces : list (list A)) :
  pieces ≠ [] → np_concatenate pieces = Ok (mjoin pieces).
Proof. by destruct pieces. Qed.

Section edge_shuffle.

Variable partition_of : Z → Z.

Lemma edge_input_list_lookup (W l r : nat) (cur : list edge) :
  (r < W)%nat →
  edge_input_list partition_of W l cur !! r
  = Some (Tensor (filter (owned_by partition_of W r l) cur) [5] I64).
Proof.
  intros Hr. unfold edge_input_list, get_partition_ids.
  rewrite list_lookup_fmap, lookup_seq_lt by done. simpl. do 2 f_equal.
  rewrite <-!list_fmap_compose.
  apply (mask_select_filter (owned_by partition_of W r l)).
Qed.

Lemma edge_input_list_frames (W l : nat) (n k : Z)
    (edge_data : list (list edge)) :
  frames_agree ((λ ed, edge_input_list partition_of W l (edge_chunk n k ed))
                  <$> edge_data).
Proof.
  apply (frames_agree_intro _ ([5], I64)).
  intros inp b (ed & -> & _)%list_elem_of_fmap Hb.
  unfold edge_input_list in Hb.
  by apply list_elem_of_fmap in Hb as (idx & -> & _).
Qed.

(** A round hands rank [r] the rows addressed to it, and raises when there
    is none. *)
Lemma edge_round_eq (W l r : nat) (n k : Z) (edge_data : list (list edge)) :
  (r < W)%nat →
  edge_round partition_of W l n k edge_data r
  = match edge_receipt partition_of W l n k edge_data r with
    | [] => Err ValueError
    | e :: es => Ok (e :: es)
    end.
Proof.
  intros Hr. unfold edge_round. cbv zeta.
  rewrite alltoallv_cpu_Ok by apply edge_input_list_frames. rewrite bind_Ok.
  set (bs := omap _ _).
  assert (tensor_rows <$> bs
          = (λ ed, filter (owned_by partition_of W r l) (edge_chunk n k ed))
              <$> edge_data) as Hbs.
  { subst bs. apply omap_lookup_fmap. intros ed _.
    by rewrite edge_input_list_lookup. }
  assert (Forall (λ b : tensor edge, tensor_row_shape b = [5]) bs) as Hshape.
  { subst bs. apply Forall_forall. intros b Hb.
    apply list_elem_of_omap in Hb as (inp & Hinp & Hb).
    apply list_elem_of_fmap in Hinp as (ed & -> & _).
    rewrite edge_input_list_lookup in Hb by done. by injection Hb as <-. }
  assert (edge_receipt partition_of W l n k edge_data r
          = mjoin (tensor_rows <$> bs)) as Hrec
    by (by rewrite Hbs).
  rewrite Hrec, <-nonempty_rows_join.
  destruct (filter _ bs) as [|b rcvd] eqn:Hf.
  - done.
  - destruct (torch_cat_uniform (b :: rcvd) [5]) as [dt Hcat]; [done| |].
    { rewrite <-Hf. apply Forall_forall.
      intros b' [_ Hb']%list_elem_of_filter.
      by eapply Forall_forall in Hshape. }
    rewrite Hcat, bind_Ok. cbn [tensor_rows].
    destruct (mjoin (tensor_rows <$> b :: rcvd)) as [|e es] eqn:Hj; [|done].
    exfalso. rewrite <-Hf, nonempty_rows_join in Hj.
    apply nonempty_rows_nil in Hj. by rewrite Hf in Hj.
Qed.

Lemma edge_round_Ok (W l r : nat) (n k : Z) (edge_data : list (list edge))
    (rcvd : list edge) :
  (r < W)%nat →
  edge_round partition_of W l n k edge_data r = Ok rcvd →
  rcvd = edge_receipt partition_of W l n k edge_data r.
Proof.
  intros Hr. rewrite edge_round_eq by done.
  destruct (edge_receipt _ _ _ _ _ _ _); [done|]. by intros [= <-].
Qed.

Lemma edge_round_is_Ok (W l r : nat) (n k : Z) (edge_data : list (list edge)) :
  (r < W)%nat →
  is_Ok (edge_round partition_of W l n k edge_data r)
  ↔ edge_receipt partition_of W l n k edge_data r ≠ [].
Proof.
  intros Hr. rewrite edge_round_eq by done.
  destruct (edge_receipt _ _ _ _ _ _ _).
  - split; [by intros [? ?]|done].
  - split; [done|]. intros _. by eexists.
Qed.

(** What a rank stores under a local partition: the rows addressed to it,
    round after round. *)
Lemma edge_local_part_Ok (W r l : nat) (n : Z) (edge_data : list (list edge))
    (es : list edge) :
  (r < W)%nat →
  edge_local_part partition_of W n edge_data r l = Ok es →
  es = mjoin ((λ k, edge_receipt partition_of W l n k edge_data r)
                <$> seqZ 0 n).
Proof.
  intros Hr. unfold edge_local_part.
  intros (pieces & Hpieces & ->%np_concatenate_Ok)%bind_Ok_inv.
  f_equal. apply sequence_fmap_Ok in Hpieces.
  rewrite <-(list_fmap_id pieces).
  apply Forall2_fmap_eq. eapply Forall2_impl; [exact Hpieces|].
  intros k p Hp. cbn. by eapply edge_round_Ok.
Qed.

(** What a rank stores under a local partition is, up to the order of
    arrival, the set of all the edges of the cluster owned by that
    partition. *)
Lemma edge_local_part_perm (W r l : nat) (max_edges : Z)
    (edge_data : list (list edge)) (es : list edge) :
  (r < W)%nat →
  (∀ ed, ed ∈ edge_data → Z.of_nat (length ed) ≤ max_edges) →
  edge_local_part partition_of W (edge_num_chunks max_edges) edge_data r l
  = Ok es →
  es ≡ₚ filter (owned_by partition_of W r l) (mjoin edge_data).
Proof.
  intros Hr Hmax ->%edge_local_part_Ok; [|done].
  set (n := edge_num_chunks max_edges). unfold edge_receipt.
  rewrite (join_swap (λ k ed, filter (owned_by partition_of W r l)
                                (edge_chunk n k ed))).
  rewrite filter_join.
  match goal with |- ?a ≡ₚ ?b => enough (a = b) as -> by done end.
  f_equal. apply list_fmap_ext. intros i ed Hed. simpl.
  transitivity (filter (owned_by partition_of W r l)
                  (mjoin ((λ k, edge_chunk n k ed) <$> seqZ 0 n))).
  - by rewrite filter_join, <-list_fmap_compose.
  - f_equal. apply edge_chunks_concat, Hmax. by eapply list_elem_of_lookup_2.
Qed.

Lemma edge_counts_max (edge_data : list (list edge)) (ed : list edge) :
  ed ∈ edge_data → Z.of_nat (length ed) ≤ np_amax (edge_counts edge_data).
Proof.
  intros [r Hr]%list_elem_of_lookup_1.
  apply np_amax_ge. by eapply edge_counts_elem.
Qed.

Lemma edge_counts_total (edge_data : list (list edge)) :
  np_sum (edge_counts edge_data) = Z.of_nat (length (mjoin edge_data)).
Proof.
  unfold edge_counts, allgather_sizes.
  rewrite (join_singletons (λ ed, Z.of_nat (length ed))).
  rewrite length_join, <-np_sum_of_nat, <-list_fmap_compose. done.
Qed.

Lemma edge_exchange_loop_perm (W P : nat) (edge_data : list (list edge))
    (out : list (list (list edge))) :
  edge_exchange_loop partition_of W P
    (edge_num_chunks (np_amax (edge_counts edge_data))) edge_data = Ok out →
  Forall2 (λ r parts,
    Forall2 (λ l es,
      es ≡ₚ filter (owned_by partition_of W r l) (mjoin edge_data))
      (seq 0 (P / W)%nat) parts) (seq 0 W) out.
Proof.
  unfold edge_exchange_loop.
  intros [Hlen Hout]%sequence_fmap_Ok%Forall2_same_length_lookup.
  apply Forall2_same_length_lookup_2; [done|].
  intros i r parts [-> Hr]%lookup_seq Hparts. simpl.
  specialize (Hout i i parts (lookup_seq_lt _ _ _ Hr) Hparts).
  apply sequence_fmap_Ok in Hout.
  eapply Forall2_impl; [exact Hout|]. simpl. intros l es Hes.
  eapply edge_local_part_perm; [done| |exact Hes].
  apply edge_counts_max.
Qed.

Lemma exchange_edge_data_Ok_inv (W P : nat) (edge_data : list (list edge))
    (out : list (list (list edge))) :
  exchange_edge_data partition_of W P edge_data = Ok out →
  edge_exchange_loop partition_of W P
    (edge_num_chunks (np_amax (edge_counts edge_data))) edge_data = Ok out
  ∧ np_sum (local_edge_count <$> out) = np_sum (edge_counts edge_data).
Proof.
  unfold exchange_edge_data.
  intros (out' & Hloop & (u & Hassert & [= <-])%bind_Ok_inv)%bind_Ok_inv.
  split; [done|]. unfold assert in Hassert. case_decide as Hsum; [|done].
  unfold allgather_sizes in Hsum. by rewrite join_singletons in Hsum.
Qed.

(** C2.  After the edge-data shuffle every edge record that worker [r]
    holds under local partition [l] has a destination node whose partition
    id is [r + l * W]: the owner of the destination is one of the local
    partitions [r], [r + W], [r + 2 W], ... of that worker. *)
Theorem edge_shuffle_ownership (W P : nat) (edge_data : list (list edge))
    (out : list (list (list edge))) (r l : nat) (parts : list (list edge))
    (es : list edge) (e : edge) :
  exchange_edge_data partition_of W P edge_data = Ok out →
  out !! r = Some parts →
  parts !! l = Some es →
  e ∈ es →
  partition_of (global_dst_id e) = Z.of_nat (r + l * W)
  ∧ (r < W)%nat ∧ (l < P / W)%nat.
Proof.
  intros [Hloop _]%exchange_edge_data_Ok_inv Hr Hl He.
  apply edge_exchange_loop_perm in Hloop.
  destruct (Forall2_lookup_r _ _ _ _ _ Hloop Hr) as (r' & Hr' & Hparts).
  apply lookup_seq in Hr' as [-> Hrlt].
  destruct (Forall2_lookup_r _ _ _ _ _ Hparts Hl) as (l' & Hl' & Hes).
  apply lookup_seq in Hl' as [-> Hllt].
  rewrite Hes in He. apply list_elem_of_filter in He as [Hown _].
  done.
Qed.

Lemma local_edge_count_sum (parts : list (list edge)) :
  local_edge_count parts = Z.of_nat (sum_list (length <$> parts)).
Proof.
  unfold local_edge_count. by rewrite <-np_sum_of_nat, <-list_fmap_compose.
Qed.

Lemma edge_exchange_loop_count (W P : nat) (edge_data : list (list edge))
    (out : list (list (list edge))) :
  edge_exchange_loop partition_of W P
    (edge_num_chunks (np_amax (edge_counts edge_data))) edge_data = Ok out →
  np_sum (local_edge_count <$> out)
  = Z.of_nat (sum_list ((λ r, sum_list
      ((λ l, length (filter (owned_by partition_of W r l) (mjoin edge_data)))
         <$> seq 0 (P / W)%nat)) <$> seq 0 W)).
Proof.
  intros Hloop%edge_exchange_loop_perm.
  rewrite <-np_sum_of_nat, <-list_fmap_compose. f_equal.
  apply Forall2_fmap_eq. eapply Forall2_impl; [exact Hloop|].
  simpl. intros r parts Hparts. rewrite local_edge_count_sum. do 2 f_equal.
  apply Forall2_fmap_eq. eapply Forall2_impl; [exact Hparts|].
  simpl. intros l es Hes. by rewrite Hes.
Qed.

Lemma sequence_fmap_is_Ok {B C} (f : B → result C) (l : list B) :
  is_Ok (sequence (f <$> l)) ↔ ∀ a, a ∈ l → is_Ok (f a).
Proof.
  split; [|apply sequence_fmap_total].
  intros [r Hr%sequence_fmap_Ok] a [i Hi]%list_elem_of_lookup_1.
  destruct (Forall2_lookup_l _ _ _ _ _ Hr Hi) as (b & _ & Hb). by exists b.
Qed.

Lemma edge_num_chunks_pos (edge_data : list (list edge)) :
  0 < np_sum (edge_counts edge_data) →
  0 < edge_num_chunks (np_amax (edge_counts edge_data)).
Proof.
  intros Hpos. rewrite edge_num_chunks_ceil.
  pose proof (ceil_div_bounds (np_amax (edge_counts edge_data)) CHUNK_SIZE
                ltac:(done)) as Hb.
  assert (0 < np_amax (edge_counts edge_data)); [|unfold CHUNK_SIZE in *; lia].
  revert Hpos. generalize (edge_counts edge_data) as cs.
  induction cs as [|c cs IH]; simpl; lia.
Qed.

(** The exchange loop returns exactly when every round hands every rank
    at least one row for each of its local partitions. *)
Lemma edge_exchange_loop_is_Ok (W P : nat) (n : Z)
    (edge_data : list (list edge)) :
  0 < n →
  is_Ok (edge_exchange_loop partition_of W P n edge_data)
  ↔ ∀ r l k, (r < W)%nat → (l < P / W)%nat → 0 ≤ k < n →
      edge_receipt partition_of W l n k edge_data r ≠ [].
Proof.
  intros Hn. unfold edge_exchange_loop.
  rewrite sequence_fmap_is_Ok. split.
  - intros Hloop r l k Hr Hl Hk.
    specialize (Hloop r ltac:(apply elem_of_seq; lia)).
    rewrite sequence_fmap_is_Ok in Hloop.
    destruct (Hloop l ltac:(apply elem_of_seq; lia)) as [es Hes].
    unfold edge_local_part in Hes.
    apply bind_Ok_inv in Hes as (pieces & Hpieces & _).
    apply edge_round_is_Ok; [done|].
    apply (proj1 (sequence_fmap_is_Ok
                    (λ k, edge_round partition_of W l n k edge_data r)
                    (seqZ 0 n))); [by exists pieces|].
    apply elem_of_seqZ. lia.
  - intros Hfed r [_ Hr]%elem_of_seq. apply sequence_fmap_is_Ok.
    intros l [_ Hl]%elem_of_seq. unfold edge_local_part.
    destruct (proj2 (sequence_fmap_is_Ok
                (λ k, edge_round partition_of W l n k edge_data r)
                (seqZ 0 n))) as [pieces Hpieces].
    { intros k Hk%elem_of_seqZ. apply edge_round_is_Ok; [lia|].
      apply Hfed; lia. }
    rewrite Hpieces, bind_Ok.
    assert (pieces ≠ []) as Hne.
    { apply sequence_fmap_length in Hpieces. rewrite length_seqZ in Hpieces.
      destruct pieces; [cbn [length] in Hpieces; lia|done]. }
    rewrite np_concatenate_is_Ok by done. by eexists.
Qed.

(** The exchange loop can only stop at the concatenation of the receipts
    of a round. *)
Lemma edge_exchange_loop_Err (W P : nat) (n : Z)
    (edge_data : list (list edge)) (e : error) :
  0 < n →
  edge_exchange_loop partition_of W P n edge_data = Err e → e = ValueError.
Proof.
  intros Hn. unfold edge_exchange_loop.
  assert (∀ {B C} (f : B → result C) (l : list B) e,
            sequence (f <$> l) = Err e → ∃ a, a ∈ l ∧ f a = Err e) as Hseq.
  { clear. intros B C f l e. induction l as [|a l IH]; [done|].
    rewrite fmap_cons, sequence_cons.
    destruct (f a) as [c|e'] eqn:Hfa.
    - rewrite bind_Ok. destruct (sequence (f <$> l)) as [r|e'] eqn:Hl; [done|].
      intros [= ->]. destruct IH as (a' & Ha' & He); [done|].
      exists a'. split; [by right|done].
    - intros [= ->]. exists a. split; [left|done]. }
  intros (r & [_ Hr]%elem_of_seq & (l & _ & Hpart)%Hseq)%Hseq.
  unfold edge_local_part in Hpart.
  destruct (sequence _) as [pieces|e'] eqn:Hpieces.
  - rewrite bind_Ok in Hpart.
    destruct pieces; [by injection Hpart as <-|done].
  - injection Hpart as ->.
    apply Hseq in Hpieces as (k & _ & Hk).
    rewrite edge_round_eq in Hk by lia.
    destruct (edge_receipt _ _ _ _ _ _ _); [by injection Hk as <-|done].
Qed.

Lemma exchange_edge_data_loop (W P : nat) (edge_data : list (list edge))
    (out : list (list (list edge))) :
  edge_exchange_loop partition_of W P
    (edge_num_chunks (np_amax (edge_counts edge_data))) edge_data = Ok out →
  exchange_edge_data partition_of W P edge_data
  = (_ ← assert (np_sum (local_edge_count <$> out)
                 = np_sum (edge_counts edge_data)); Ok out).
Proof.
  intros Hloop. unfold exchange_edge_data. cbv zeta. rewrite Hloop, bind_Ok.
  unfold allgather_sizes. by rewrite join_singletons.
Qed.

(** C3.  The edge shuffle conserves the edges.  It gathers the
    post-shuffle edge counts of all the workers (each summed over the local
    partitions of the worker) and compares their sum with the pre-shuffle
    total gathered before the exchange: a run that returns satisfies the
    equality, and a mismatch aborts the run with the failed assertion and
    yields no output.  The equality is a property of the exchange itself:
    whenever the exchange loop has returned on valid inputs (every
    destination is assigned a partition id in [0, P), P a multiple of W),
    the counts agree, the check passes and the run returns what the loop
    produced. *)
Theorem edge_shuffle_conservation (W P : nat) (edge_data : list (list edge)) :
  let all_edges := np_sum (edge_counts edge_data) in
  let num_chunks := edge_num_chunks (np_amax (edge_counts edge_data)) in
  (∀ out, exchange_edge_data partition_of W P edge_data = Ok out →
     np_sum (local_edge_count <$> out) = all_edges)
  ∧ (∀ out,
       edge_exchange_loop partition_of W P num_chunks edge_data = Ok out →
       np_sum (local_edge_count <$> out) ≠ all_edges →
       exchange_edge_data partition_of W P edge_data = Err AssertionError)
  ∧ (∀ out,
       edge_exchange_loop partition_of W P num_chunks edge_data = Ok out →
       length edge_data = W → (0 < W)%nat → (P mod W = 0)%nat →
       (∀ ed e, ed ∈ edge_data → e ∈ ed →
          0 ≤ partition_of (global_dst_id e) < Z.of_nat P) →
       exchange_edge_data partition_of W P edge_data = Ok out
       ∧ length out = W
       ∧ np_sum (local_edge_count <$> out)
         = np_sum ((λ ed, Z.of_nat (length ed)) <$> edge_data)).
Proof.
  intros all_edges num_chunks. split; [|split].
  - by intros out [_ Hsum]%exchange_edge_data_Ok_inv.
  - intros out Hloop Hne. rewrite (exchange_edge_data_loop _ _ _ _ Hloop).
    unfold assert. by rewrite decide_False.
  - intros out Hloop Hlen HW HP Hvalid.
    assert (Hcount : np_sum (local_edge_count <$> out) = all_edges).
    { rewrite (edge_exchange_loop_count W P edge_data out Hloop).
      subst all_edges. rewrite edge_counts_total. f_equal.
      apply cyclic_partition_count. intros e (ed & He & Hed)%list_elem_of_join.
      replace (P / W * W)%nat with P; [by eapply Hvalid|].
      pose proof (Nat.div_mod_eq P W). lia. }
    split; [|split].
    + rewrite (exchange_edge_data_loop _ _ _ _ Hloop).
      unfold assert. by rewrite decide_True.
    + unfold edge_exchange_loop in Hloop.
      apply sequence_fmap_length in Hloop. by rewrite Hloop, length_seq.
    + rewrite Hcount. subst all_edges. unfold edge_counts, allgather_sizes.
      by rewrite join_singletons.
Qed.

End edge_shuffle.

Lemma edge_shuffle_ownership_witness :
  let edge_data :=
    [ [Edge 0 1 0 0 0; Edge 1 2 1 0 1]; [Edge 2 3 2 0 2; Edge 3 0 3 0 3] ] in
  let e := Edge 3 0 3 0 3 in
  exchange_edge_data (λ g, g mod 2) 2 2 edge_data
  = Ok [ [[Edge 1 2 1 0 1; e]]; [[Edge 0 1 0 0 0; Edge 2 3 2 0 2]] ]
  ∧ (global_dst_id e) mod 2 = Z.of_nat (0 + 0 * 2).
Proof.
  intros edge_data e. split; [vm_compute; reflexivity|].
  refine (proj1 (edge_shuffle_ownership (λ g, g mod 2) 2 2 edge_data
    [ [[Edge 1 2 1 0 1; e]]; [[Edge 0 1 0 0 0; Edge 2 3 2 0 2]] ]
    0 0 [[Edge 1 2 1 0 1; e]] [Edge 1 2 1 0 1; e] e _ _ _ _)).
  - vm_compute; reflexivity.
  - reflexivity.
  - reflexivity.
  - apply list_elem_of_In. simpl. auto.
Defined.

Lemma edge_shuffle_conservation_witness :
  let edge_data :=
    [ [Edge 0 1 0 0 0; Edge 1 2 1 0 1]; [Edge 2 3 2 0 2; Edge 3 0 3 0 3] ] in
  let out :=
    [ [[Edge 1 2 1 0 1; Edge 3 0 3 0 3]];
      [[Edge 0 1 0 0 0; Edge 2 3 2 0 2]] ] in
  exchange_edge_data (λ g, g mod 2) 2 2 edge_data = Ok out
  ∧ length out = 2%nat
  ∧ np_sum (local_edge_count <$> out) = 4.
Proof.
  intros edge_data out.
  refine (proj2 (proj2 (edge_shuffle_conservation (λ g, g mod 2) 2 2 edge_data))
            out _ _ _ _ _).
  - vm_compute. reflexivity.
  - reflexivity.
  - lia.
  - reflexivity.
  - intros ed e _ _. simpl. apply Z.mod_pos_bound. lia.
Defined.

Example argsort_demo : argsort [3; 1; 2; 1; 3; 0; 1] = [5; 1; 3; 6; 2; 0; 4]%nat.
Proof. vm_compute. reflexivity. Qed.

Example intersect1d_demo :
  intersect1d [10; 12; 11; 13] [13; 10; 11]
  = ([10; 11; 13], [0; 2; 3]%nat, [1; 2; 0]%nat).
Proof. vm_compute. reflexivity. Qed.

(** ** Sorting: [argsort] and index arrays *)

Lemma argsort_insert_perm (x : Z * nat) (l : list (Z * nat)) :
  argsort_insert x l ≡ₚ x :: l.
Proof.
  induction l as [|y l IH]; [done|]. simpl. case_decide; [done|].
  rewrite IH. apply Permutation_swap.
Qed.

Lemma argsort_insert_sorted (x : Z * nat) (l : list (Z * nat)) :
  Sorted key_le l → Sorted key_le (argsort_insert x l).
Proof.
  induction 1 as [|y l Hs IH Hhd]; simpl.
  - repeat constructor.
  - case_decide as Hxy.
    + repeat constructor; done.
    + constructor; [done|].
      destruct l as [|z l]; simpl in *.
      * constructor. unfold key_le. lia.
      * case_decide; constructor; unfold key_le; [lia|].
        by apply HdRel_inv in Hhd.
Qed.

Lemma argsort_pairs_perm (ps : list (Z * nat)) :
  foldr argsort_insert [] ps ≡ₚ ps.
Proof.
  induction ps as [|p ps IH]; [done|]. simpl.
  by rewrite argsort_insert_perm, IH.
Qed.

Lemma argsort_pairs_sorted (ps : list (Z * nat)) :
  Sorted key_le (foldr argsort_insert [] ps).
Proof.
  induction ps as [|p ps IH]; simpl; [constructor|].
  by apply argsort_insert_sorted.
Qed.

Lemma gather_pairs (a : list Z) (s : list (Z * nat)) :
  (∀ v i, (v, i) ∈ s → a !! i = Some v) →
  gather a (snd <$> s) = fst <$> s.
Proof.
  induction s as [|[v i] s IH]; intros Hs; [done|].
  unfold gather in *. csimpl. rewrite (Hs v i) by left. simpl.
  f_equal. apply IH. intros; apply Hs; by right.
Qed.

Lemma argsort_perm (a : list Z) : argsort a ≡ₚ seq 0 (length a).
Proof.
  unfold argsort. rewrite argsort_pairs_perm.
  rewrite snd_zip; [done|]. by rewrite length_seq.
Qed.

Lemma argsort_gather (a : list Z) :
  gather a (argsort a)
  = fst <$> foldr argsort_insert [] (zip a (seq 0 (length a))).
Proof.
  unfold argsort. apply gather_pairs. intros v i Hvi.
  rewrite argsort_pairs_perm in Hvi.
  apply list_elem_of_lookup in Hvi as [j Hj].
  apply lookup_zip_Some in Hj as [Hv [-> _]%lookup_seq]. done.
Qed.

Lemma argsort_sorted (a : list Z) : Sorted Z.le (gather a (argsort a)).
Proof.
  rewrite argsort_gather.
  eapply Sorted_fmap; [|apply argsort_pairs_sorted]. done.
Qed.

Lemma perm_seq_in_range {A} (v : list A) (idx : list nat) :
  idx ≡ₚ seq 0 (length v) → in_range v idx.
Proof.
  intros Hp. unfold in_range. rewrite Hp.
  apply Forall_forall. intros i [_ Hi]%elem_of_seq. lia.
Qed.

Lemma gather_seq {A} (v : list A) : gather v (seq 0 (length v)) = v.
Proof.
  unfold gather. induction v as [|x v IH] using rev_ind; [done|].
  rewrite length_app. simpl. rewrite Nat.add_1_r, seq_S, omap_app. simpl.
  rewrite lookup_app_r, Nat.sub_diag by lia. simpl. f_equal.
  rewrite <-IH at 2. apply list_omap_ext.
  apply Forall2_same_length_lookup_2; [done|].
  intros i x1 x2 [-> Hi]%lookup_seq [-> _]%lookup_seq.
  by rewrite lookup_app_l.
Qed.

(** Indexing a column by a permutation of its positions rearranges it. *)
Lemma gather_perm {A} (v : list A) (idx : list nat) :
  idx ≡ₚ seq 0 (length v) → gather v idx ≡ₚ v.
Proof.
  intros Hp. unfold gather. rewrite Hp. apply eq_subrelation; [apply _|].
  apply gather_seq.
Qed.

Lemma gather_length {A} (v : list A) (idx : list nat) :
  in_range v idx → length (gather v idx) = length idx.
Proof.
  unfold in_range, gather. induction 1 as [|i idx Hi _ IH]; [done|].
  csimpl. destruct (lookup_lt_is_Some_2 v i Hi) as [x ->]. simpl.
  by rewrite IH.
Qed.

Lemma gather_lookup {A} (v : list A) (idx : list nat) (j i : nat) :
  in_range v idx → idx !! j = Some i → gather v idx !! j = v !! i.
Proof.
  unfold in_range, gather. intros Hr. revert j.
  induction Hr as [|i0 idx Hi _ IH]; intros j Hj; [done|].
  csimpl. destruct (lookup_lt_is_Some_2 v i0 Hi) as [x Hx]. rewrite Hx.
  simpl. destruct j as [|j]; simpl in *.
  - by injection Hj as ->.
  - by apply IH.
Qed.

(** ** [reorder_data] *)

Lemma foldl_result_Err {A B} (f : A → B → result A) (e : error) (l : list B) :
  foldl (λ acc b, a ← acc; f a b) (Err e) l = Err e.
Proof. induction l as [|b l IH]; [done|]. exact IH. Qed.

Lemma reorder_part_Ok (key : string) (l : nat) (data out : dict) :
  reorder_part key l data = Ok out →
  ∃ col, data !! (key, l) = Some col
    ∧ (∀ c l', out !! (c, l') =
         (λ v, if decide (l' = l) then gather v (argsort col) else v)
           <$> data !! (c, l'))
    ∧ (∀ c v, data !! (c, l) = Some v → in_range v (argsort col)).
Proof.
  unfold reorder_part.
  intros (col & Hcol & Hrest)%bind_Ok_inv.
  exists col. destruct (data !! (key, l)) as [col'|] eqn:Hk; [|done].
  injection Hcol as ->. split; [done|].
  case_decide as Hall; [|done]. injection Hrest as <-. split.
  - intros c l'. rewrite map_lookup_imap.
    destruct (data !! (c, l')) as [v|]; simpl; [|done].
    by repeat case_decide.
  - intros c v Hv. by apply (Hall (c, l) v Hv).
Qed.

Lemma reorder_fold_Ok (key : string) (ls : list nat) (data out : dict) :
  NoDup ls →
  foldl (λ acc l, d ← acc; reorder_part key l d) (Ok data) ls = Ok out →
  (∀ l, l ∈ ls → ∃ col, data !! (key, l) = Some col
      ∧ (∀ c v, data !! (c, l) = Some v →
           in_range v (argsort col)
           ∧ out !! (c, l) = Some (gather v (argsort col))))
  ∧ (∀ c l, l ∉ ls → out !! (c, l) = data !! (c, l))
  ∧ (∀ k, is_Some (out !! k) ↔ is_Some (data !! k)).
Proof.
  intros Hnd. revert data. induction Hnd as [|l0 ls Hnotin Hnd IH]; intros data.
  - intros [= <-]. split; [|done]. by intros l ?%elem_of_nil.
  - change (foldl _ (Ok data) (l0 :: ls))
      with (foldl (λ acc l, d ← acc; reorder_part key l d)
                  (reorder_part key l0 data) ls).
    destruct (reorder_part key l0 data) as [data1|e] eqn:Hstep;
      [|by rewrite foldl_result_Err].
    intros Hfold. apply reorder_part_Ok in Hstep as (col0 & Hcol0 & Hupd & Hrng).
    destruct (IH data1 Hfold) as (Hin & Hout & Hdom).
    split; [|split].
    + intros l [->|Hl]%elem_of_cons.
      * exists col0. split; [done|]. intros c v Hv. split; [by eapply Hrng|].
        rewrite Hout by done. rewrite Hupd, Hv. simpl. by rewrite decide_True.
      * destruct (Hin l Hl) as (col & Hcol & Hcols).
        assert (l ≠ l0) as Hne by (intros ->; done).
        rewrite Hupd in Hcol.
        destruct (data !! (key, l)) as [col'|] eqn:Hk; [|done].
        simpl in Hcol. rewrite decide_False in Hcol by done.
        injection Hcol as ->. exists col. split; [done|].
        intros c v Hv. apply Hcols. rewrite Hupd, Hv. simpl.
        by rewrite decide_False.
    + intros c l [Hne Hl]%not_elem_of_cons.
      rewrite Hout by done. rewrite Hupd.
      destruct (data !! (c, l)); simpl; [|done]. by rewrite decide_False.
    + intros [c l]. rewrite Hdom, Hupd. by rewrite fmap_is_Some.
Qed.

(** C8, as amended.  [reorder_data] sorts the records of every local
    partition by the key column alone (the type id, for the two calls of
    the pipeline): the key column comes out ascending, and one and the same
    permutation of the row positions, the argsort of the key column, is
    applied to every column of that local partition; the columns of other
    local partitions and the set of keys are left as they were. *)
Theorem reorder_data_sorts_by_key (num_parts world_size : nat)
    (data out : dict) (key : string) :
  reorder_data num_parts world_size data key = Ok out →
  (∀ l, (l < num_parts / world_size)%nat →
     ∃ col sorted_idx,
       data !! (key, l) = Some col
       ∧ sorted_idx ≡ₚ seq 0 (length col)
       ∧ out !! (key, l) = Some (gather col sorted_idx)
       ∧ Sorted Z.le (gather col sorted_idx)
       ∧ (∀ c v, data !! (c, l) = Some v →
            out !! (c, l) = Some (gather v sorted_idx)
            ∧ (∀ j i, sorted_idx !! j = Some i →
                 gather v sorted_idx !! j = v !! i)
            ∧ (length v = length col → gather v sorted_idx ≡ₚ v)))
  ∧ (∀ c l, (num_parts / world_size ≤ l)%nat → out !! (c, l) = data !! (c, l))
  ∧ (∀ k, is_Some (out !! k) ↔ is_Some (data !! k)).
Proof.
  unfold reorder_data. intros Hfold.
  apply reorder_fold_Ok in Hfold as (Hin & Hout & Hdom); [|apply NoDup_seq].
  split; [|split].
  - intros l Hl. destruct (Hin l) as (col & Hcol & Hcols).
    { apply elem_of_seq. lia. }
    exists col, (argsort col). split; [done|].
    split; [apply argsort_perm|].
    split; [by apply Hcols|]. split; [apply argsort_sorted|].
    intros c v Hv. destruct (Hcols c v Hv) as [Hrng Hlook].
    split; [done|]. split.
    + intros j i Hj. by apply gather_lookup.
    + intros Hlen. apply gather_perm. rewrite Hlen. apply argsort_perm.
  - intros c l Hl. apply Hout. rewrite elem_of_seq. lia.
  - done.
Qed.

Lemma reorder_part_total (key : string) (l : nat) (data : dict)
    (col : list Z) :
  data !! (key, l) = Some col →
  (∀ c v, data !! (c, l) = Some v → (length col ≤ length v)%nat) →
  is_Ok (reorder_part key l data).
Proof.
  intros Hcol Hlen. unfold reorder_part. rewrite Hcol.
  cbn [from_option]. rewrite bind_Ok.
  rewrite decide_True; [by eexists|].
  intros [c l'] v Hv Hl. simpl in Hl. subst l'.
  unfold in_range. rewrite argsort_perm.
  apply Forall_forall. intros i [_ Hi]%elem_of_seq.
  specialize (Hlen c v Hv). lia.
Qed.

Lemma reorder_fold_total (key : string) (ls : list nat) (data : dict) :
  NoDup ls →
  (∀ l, l ∈ ls → ∃ col, data !! (key, l) = Some col
      ∧ ∀ c v, data !! (c, l) = Some v → (length col ≤ length v)%nat) →
  is_Ok (foldl (λ acc l, d ← acc; reorder_part key l d) (Ok data) ls).
Proof.
  intros Hnd. revert data.
  induction Hnd as [|l0 ls Hnotin Hnd IH]; intros data Hwf.
  - by eexists.
  - change (foldl _ (Ok data) (l0 :: ls))
      with (foldl (λ acc l, d ← acc; reorder_part key l d)
                  (reorder_part key l0 data) ls).
    destruct (Hwf l0) as (col0 & Hcol0 & Hlen0); [left|].
    destruct (reorder_part_total key l0 data col0 Hcol0 Hlen0) as [d1 Hd1].
    rewrite Hd1. apply IH. intros l Hl.
    apply reorder_part_Ok in Hd1 as (col0' & _ & Hupd & _).
    assert (l ≠ l0) as Hne by (intros ->; done).
    destruct (Hwf l) as (col & Hcol & Hlen); [by right|].
    exists col. split.
    + rewrite Hupd, Hcol. simpl. by rewrite decide_False.
    + intros c v. rewrite Hupd.
      destruct (data !! (c, l)) as [v'|] eqn:Hv'; [|done]. simpl.
      rewrite decide_False by done. intros [= <-]. by eapply Hlen.
Qed.

Lemma reorder_data_total (num_parts world_size : nat) (data : dict)
    (key : string) :
  (∀ l, (l < num_parts / world_size)%nat →
     ∃ col, data !! (key, l) = Some col
       ∧ ∀ c v, data !! (c, l) = Some v → (length col ≤ length v)%nat) →
  is_Ok (reorder_data num_parts world_size data key).
Proof.
  intros Hwf. apply reorder_fold_total; [apply NoDup_seq|].
  intros l [_ Hl]%elem_of_seq. apply Hwf. lia.
Qed.

Lemma unsorted_edge_data_columns (c : string) (l : nat) (v : list Z) :
  unsorted_edge_data !! (c, l) = Some v → length v = 2%nat.
Proof.
  unfold unsorted_edge_data.
  repeat (intros [[_ <-]|[_ Hv]]%lookup_insert_Some; [done|revert Hv]).
  by rewrite lookup_empty.
Qed.

Lemma unsorted_edge_data_reorders :
  is_Ok (reorder_data 1 1 unsorted_edge_data ETYPE_ID).
Proof.
  apply reorder_data_total. intros l Hl. exists [0; 0]. split.
  - change (1 / 1)%nat with 1%nat in Hl. assert (l = 0%nat) as -> by lia.
    apply lookup_insert_eq.
  - intros c v Hv. by rewrite (unsorted_edge_data_columns c l v Hv).
Qed.

Lemma reorder_data_sorts_by_key_witness :
  ∃ out, reorder_data 1 1 unsorted_edge_data ETYPE_ID = Ok out
    ∧ ∀ k, is_Some (out !! k) ↔ is_Some (unsorted_edge_data !! k).
Proof.
  destruct unsorted_edge_data_reorders as [out Hout].
  exists out. split; [exact Hout|].
  exact (proj2 (proj2
    (reorder_data_sorts_by_key 1 1 unsorted_edge_data out ETYPE_ID Hout))).
Defined.

(** C8, as stated, fails: the reorder pass leaves two records of the same
    type in the order in which they arrived, here with descending per-type
    ids, so the result is not sorted by (type id, per-type id). *)
Lemma reorder_data_keeps_arrival_order :
  ∃ out, reorder_data 1 1 unsorted_edge_data ETYPE_ID = Ok out
    ∧ out !! (ETYPE_ID, 0%nat) = Some [0; 0]
    ∧ out !! (GLOBAL_TYPE_EID, 0%nat) = Some [1; 0]
    ∧ ¬ sorted_by_type_then_id [0; 0] [1; 0].
Proof.
  destruct unsorted_edge_data_reorders as [out Hout].
  exists out. split; [exact Hout|].
  unfold reorder_data in Hout.
  apply reorder_fold_Ok in Hout as (Hin & _ & _); [|apply NoDup_seq].
  destruct (Hin 0%nat) as (col & Hcol & Hcols); [by left|].
  assert (col = [0; 0]) as ->.
  { unfold unsorted_edge_data in Hcol. rewrite lookup_insert_eq in Hcol.
    by injection Hcol as <-. }
  split; [|split].
  - by apply (Hcols ETYPE_ID [0; 0]).
  - apply (Hcols GLOBAL_TYPE_EID [1; 0]).
    unfold unsorted_edge_data.
    rewrite lookup_insert_ne by done. apply lookup_insert_eq.
  - unfold sorted_by_type_then_id. simpl. intros Hs.
    apply Sorted_inv in Hs as [_ Hhd]. apply HdRel_inv in Hhd.
    unfold type_then_id_le in Hhd. simpl in Hhd. lia.
Qed.

(** The defect does not depend on how [argsort] orders equal keys: an index
    array computed from the key column alone cannot put both of two tables
    with the same keys and opposite per-type ids in (type id, per-type id)
    order. *)
Lemma key_sort_cannot_order_ids (sorted_idx : list nat) :
  sorted_idx ≡ₚ seq 0 2 →
  ¬ (sorted_by_type_then_id (gather [0; 0] sorted_idx) (gather [0; 1] sorted_idx)
     ∧ sorted_by_type_then_id (gather [0; 0] sorted_idx)
         (gather [1; 0] sorted_idx)).
Proof.
  intros Hp.
  assert (sorted_idx = [0; 1]%nat ∨ sorted_idx = [1; 0]%nat) as [->| ->].
  { assert (length sorted_idx = 2%nat) as Hlen by by rewrite Hp.
    destruct sorted_idx as [|i [|j [|? ?]]]; try done.
    assert (i ∈ [0; 1]%nat) as Hi by (rewrite <-Hp; left).
    assert (j ∈ [0; 1]%nat) as Hj by (rewrite <-Hp; right; left).
    assert (NoDup [i; j]) as Hnd by (rewrite Hp; apply NoDup_seq).
    apply NoDup_cons in Hnd as [Hij _].
    apply not_elem_of_cons in Hij as [Hij _].
    apply elem_of_cons in Hi as [Hi|Hi%list_elem_of_singleton];
      apply elem_of_cons in Hj as [Hj|Hj%list_elem_of_singleton];
      subst; try done; auto. }
  - intros [_ Hs]. unfold sorted_by_type_then_id in Hs. simpl in Hs.
    apply Sorted_inv in Hs as [_ Hhd]. apply HdRel_inv in Hhd.
    unfold type_then_id_le in Hhd. simpl in Hhd. lia.
  - intros [Hs _]. unfold sorted_by_type_then_id in Hs. simpl in Hs.
    apply Sorted_inv in Hs as [_ Hhd]. apply HdRel_inv in Hhd.
    unfold type_then_id_le in Hhd. simpl in Hhd. lia.
Qed.

Example gen_node_data_demo :
  (d ← gen_node_data sample_partition_of 0 2 2
         (get_node_types sample_schema) sample_schema;
   Ok (d !! (GLOBAL_NID, 0%nat), d !! (NTYPE_ID, 0%nat),
       d !! (GLOBAL_TYPE_NID, 0%nat)))
  = Ok (Some [1; 2; 4], Some [0; 1; 1], Some [1; 0; 2]).
Proof. vm_compute. reflexivity. Qed.

(** ** Local-node synthesis *)

Lemma filter_fmap {A B} (f : A → B) (P : B → Prop) `{∀ y, Decision (P y)}
    (l : list A) :
  filter P (f <$> l) = f <$> filter (λ x, P (f x)) l.
Proof.
  induction l as [|x l IH]; [done|]. csimpl.
  rewrite !filter_cons, IH. by case_decide.
Qed.

Lemma mask_select_fmap {A B} (P : A → Prop) `{∀ x, Decision (P x)}
    (h : A → B) (l : list A) :
  mask_select ((λ x, bool_decide (P x)) <$> l) (h <$> l) = h <$> filter P l.
Proof.
  induction l as [|x l IH]; [done|].
  rewrite !fmap_cons. cbn [mask_select]. rewrite IH, filter_cons.
  destruct (decide (P x)).
  - by rewrite bool_decide_true.
  - by rewrite bool_decide_false.
Qed.

Lemma chunk_ranges_ends (start : Z) (counts : list Z) :
  counts ≠ [] →
  ∃ first final, head (chunk_ranges start counts) = Some first
    ∧ last (chunk_ranges start counts) = Some final
    ∧ first.1 = start ∧ final.2 = start + np_sum counts.
Proof.
  revert start. induction counts as [|c counts IH]; intros start Hne; [done|].
  destruct counts as [|c' counts].
  - exists (start, start + c), (start, start + c). simpl. split_and!; try done.
    unfold np_sum. simpl. lia.
  - destruct (IH (start + c) ltac:(done)) as (f & l & _ & Hl & _ & Hl2).
    exists (start, start + c), l. split; [done|]. split.
    + change (chunk_ranges start (c :: c' :: counts))
        with ((start, start + c) :: chunk_ranges (start + c) (c' :: counts)).
      rewrite last_cons, Hl. done.
    + split; [done|]. rewrite Hl2. unfold np_sum. simpl. lia.
Qed.

Lemma foldl_insert_lookup {V W} (f : V → W) (l : list (string * V))
    (k : string) (v : V) :
  NoDup l.*1 → (k, v) ∈ l →
  foldl (λ (m : gmap string W) p, <[p.1 := f p.2]> m) ∅ l !! k = Some (f v).
Proof.
  induction l as [|p l IH] using rev_ind; intros Hnd Hin.
  - by apply elem_of_nil in Hin.
  - rewrite foldl_snoc. rewrite fmap_app in Hnd.
    apply NoDup_app in Hnd as (Hnd & Hdisj & _).
    apply elem_of_app in Hin as [Hin|Hin%list_elem_of_singleton].
    + rewrite lookup_insert_ne; [by apply IH|].
      intros <-. eapply Hdisj; [|left].
      apply list_elem_of_fmap. by exists (p.1, v).
    + subst p. by rewrite lookup_insert_eq.
Qed.

Lemma idranges_from_names (offset : Z) (sch : schema) :
  (idranges_from offset sch).*1 = sch.*1.
Proof.
  revert offset. induction sch as [|[name counts] sch IH]; intros offset;
    [done|].
  simpl. f_equal. apply IH.
Qed.

Lemma get_idranges_lookup (sch : schema) (name : string)
    (r : list (Z * Z) * (Z * Z)) :
  NoDup sch.*1 → (name, r) ∈ idranges_from 0 sch →
  (get_idranges sch).1 !! name = Some r.1
  ∧ (get_idranges sch).2 !! name = Some r.2.
Proof.
  intros Hnd Hin. unfold get_idranges. simpl. split.
  - apply (foldl_insert_lookup fst); [by rewrite idranges_from_names|done].
  - apply (foldl_insert_lookup snd); [by rewrite idranges_from_names|done].
Qed.

Section node_synthesis_facts.

Variable partition_of : Z → Z.

Lemma node_type_ranges_Ok (tnd : gmap string (list (Z * Z)))
    (gnd : gmap string (Z * Z)) (name : string) (counts : list Z)
    (gnid_range : Z * Z) :
  counts ≠ [] →
  tnd !! name = Some (chunk_ranges 0 counts) →
  gnd !! name = Some gnid_range →
  node_type_ranges tnd gnd name = Ok ((0, np_sum counts), gnid_range).
Proof.
  intros Hc Ht Hg.
  destruct (chunk_ranges_ends 0 counts Hc) as (f & l & Hf & Hl & Hf1 & Hl2).
  unfold node_type_ranges. rewrite Ht, Hg. simpl. rewrite Hf, Hl. simpl.
  rewrite Hf1, Hl2. do 3 f_equal.
Qed.

Lemma node_type_table (tnd : gmap string (list (Z * Z)))
    (gnd : gmap string (Z * Z)) (sch : schema) (n : nat) (offset : Z) :
  Forall (λ p, p.2 ≠ []) sch →
  (∀ name r, (name, r) ∈ idranges_from offset sch →
     tnd !! name = Some r.1 ∧ gnd !! name = Some r.2) →
  sequence ((λ nt : Z * string,
               r ← node_type_ranges tnd gnd nt.2; Ok (nt.1, r))
              <$> imap (λ i p, (Z.of_nat (n + i), p.1)) sch)
  = Ok (type_table_from (Z.of_nat n) offset sch).
Proof.
  revert n offset. induction sch as [|[name counts] sch IH];
    intros n offset Hne Hdict; [done|].
  apply Forall_cons in Hne as [Hc Hne]. simpl in Hc.
  rewrite imap_cons, fmap_cons, sequence_cons.
  destruct (Hdict name (chunk_ranges 0 counts,
                        (offset, offset + np_sum counts))) as [Ht Hg];
    [left|].
  cbn [fst snd].
  rewrite (node_type_ranges_Ok tnd gnd name counts _ Hc Ht Hg), !bind_Ok.
  rewrite (imap_ext _ (λ i p, (Z.of_nat (S n + i), p.1))).
  2:{ intros i x _. simpl. do 2 f_equal. lia. }
  rewrite IH with (offset := offset + np_sum counts); [| done |].
  - rewrite bind_Ok. cbn [type_table_from]. rewrite Nat.add_0_r.
    do 3 f_equal. lia.
  - intros name' r Hin. apply Hdict. by right.
Qed.

Lemma own_nodes_triples (rank W l : nat) (ntype_id offset n : Z) :
  let F := filter (owns partition_of rank W l)
             ((λ j, (offset + j, j, ntype_id)) <$> seqZ 0 n) in
  own_nodes partition_of rank W l ntype_id (0, n) (offset, offset + n)
  = ((λ t : Z * Z * Z, t.1.1) <$> F, (λ t : Z * Z * Z, t.2) <$> F,
     (λ t : Z * Z * Z, t.1.2) <$> F).
Proof.
  intros F. unfold own_nodes, get_partition_ids, arange.
  replace (offset + n - offset) with n by lia.
  replace (n - 0) with n by lia.
  assert (Hseq : seqZ offset n = (λ j, offset + j) <$> seqZ 0 n).
  { transitivity (seqZ (offset + 0) n); [f_equal; lia|].
    symmetry. apply (fmap_add_seqZ offset 0 n). }
  rewrite Hseq, <-!list_fmap_compose.
  pose (Q := λ j, partition_of (offset + j) = Z.of_nat (rank + l * W)).
  assert (HF : F = (λ j, (offset + j, j, ntype_id)) <$> filter Q (seqZ 0 n)).
  { subst F. by rewrite filter_fmap. }
  change (mask_select _ ((λ j, offset + j) <$> seqZ 0 n))
    with (mask_select ((λ j, bool_decide (Q j)) <$> seqZ 0 n)
            ((λ j, offset + j) <$> seqZ 0 n)).
  change (mask_select _ (seqZ 0 n))
    with (mask_select ((λ j, bool_decide (Q j)) <$> seqZ 0 n) (seqZ 0 n)).
  rewrite (mask_select_fmap Q), (mask_select_filter Q).
  rewrite HF, <-!list_fmap_compose. f_equal; [f_equal|].
  - rewrite length_fmap. symmetry. by apply const_fmap.
  - symmetry. apply list_fmap_id.
Qed.

Lemma zip3_proj (a b c : list Z) :
  length a = length b → length a = length c →
  (λ t : Z * Z * Z, t.1.1) <$> zip (zip a b) c = a
  ∧ (λ t : Z * Z * Z, t.1.2) <$> zip (zip a b) c = b
  ∧ (λ t : Z * Z * Z, t.2) <$> zip (zip a b) c = c.
Proof.
  revert b c. induction a as [|x a IH]; intros [|y b] [|z c] Hb Hc;
    try done.
  simpl in Hb, Hc. destruct (IH b c) as (H1 & H2 & H3); [lia..|].
  csimpl. by rewrite H1, H2, H3.
Qed.

Lemma node_columns_triples (rank W l : nat) (ntype_id offset : Z)
    (sch : schema) :
  sch ≠ [] →
  let F := filter (owns partition_of rank W l)
             (graph_nodes_from ntype_id offset sch) in
  node_columns partition_of rank W l (type_table_from ntype_id offset sch)
  = Ok ((λ t : Z * Z * Z, t.1.1) <$> F, (λ t : Z * Z * Z, t.2) <$> F,
        (λ t : Z * Z * Z, t.1.2) <$> F).
Proof.
  intros Hne F. unfold node_columns.
  set (pieces := _ <$> type_table_from ntype_id offset sch).
  assert (Hpieces : pieces ≠ []).
  { subst pieces. destruct sch as [|[? ?] ?]; done. }
  rewrite !np_concatenate_is_Ok, !bind_Ok
    by (intros ?%fmap_nil_inv; done).
  assert (Hall : ∀ proj : Z * Z * Z → Z,
    mjoin ((λ p : list Z * list Z * list Z,
              (proj <$> zip (zip p.1.1 p.2) p.1.2)) <$> pieces)
    = proj <$> F
    ∧ Forall (λ p : list Z * list Z * list Z,
                length p.1.1 = length p.2 ∧ length p.1.1 = length p.1.2)
        pieces).
  { intros proj. subst pieces F. clear Hne Hpieces.
    revert ntype_id offset.
    induction sch as [|[name counts] sch IH]; intros ntype_id offset;
      [done|].
    cbn [type_table_from graph_nodes_from]. rewrite fmap_cons. cbn [fst snd].
    rewrite own_nodes_triples. destruct (IH (ntype_id + 1)
      (offset + np_sum counts)) as [IH1 IH2].
    split.
    - cbn [mjoin list_join fmap list_fmap]. rewrite filter_app, fmap_app.
      f_equal; [|exact IH1]. cbn [fst snd].
      set (G := filter _ _). clearbody G.
      induction G as [|[[g t] i] G IHG]; [done|]. csimpl. by rewrite IHG.
    - constructor; [|exact IH2]. cbn [fst snd]. by rewrite !length_fmap. }
  assert (Hproj : ∀ (sel : list Z * list Z * list Z → list Z)
                    (proj : Z * Z * Z → Z),
    (∀ p : list Z * list Z * list Z,
       length p.1.1 = length p.2 → length p.1.1 = length p.1.2 →
       proj <$> zip (zip p.1.1 p.2) p.1.2 = sel p) →
    mjoin (sel <$> pieces) = proj <$> F).
  { intros sel proj Hsel. destruct (Hall proj) as [<- Hlen]. f_equal.
    apply list_fmap_ext. intros i p Hp.
    eapply Forall_lookup_1 in Hlen as [H1 H2]; [|exact Hp].
    symmetry. by apply Hsel. }
  f_equal. f_equal; [f_equal|].
  - apply (Hproj (λ p, p.1.1) (λ t, t.1.1)). intros p H1 H2.
    by apply zip3_proj.
  - apply (Hproj (λ p, p.1.2) (λ t, t.2)). intros p H1 H2.
    by apply zip3_proj.
  - apply (Hproj (λ p, p.2) (λ t, t.1.2)). intros p H1 H2.
    by apply zip3_proj.
Qed.

Lemma sequence_fmap_all_Ok {A B} (f : A → result B) (g : A → B)
    (l : list A) :
  (∀ a, a ∈ l → f a = Ok (g a)) → sequence (f <$> l) = Ok (g <$> l).
Proof.
  intros Hf. apply sequence_fmap_Ok.
  apply Forall2_fmap_r, Forall_Forall2_diag, Forall_forall. done.
Qed.

Lemma insert_node_columns_fold (d0 : dict)
    (lcs : list (nat * (list Z * list Z * list Z))) (l : nat)
    (c : list Z * list Z * list Z) :
  NoDup lcs.*1 → (l, c) ∈ lcs →
  let d := foldl (λ d lc, insert_node_columns d lc.1 lc.2) d0 lcs in
  d !! (GLOBAL_NID, l) = Some c.1.1
  ∧ d !! (NTYPE_ID, l) = Some c.1.2
  ∧ d !! (GLOBAL_TYPE_NID, l) = Some c.2.
Proof.
  induction lcs as [|[l' c'] lcs IH] using rev_ind; intros Hnd Hin.
  - by apply elem_of_nil in Hin.
  - cbv zeta. rewrite foldl_snoc. rewrite fmap_app in Hnd.
    apply NoDup_app in Hnd as (Hnd & Hdisj & _).
    unfold insert_node_columns. cbn [fst snd].
    apply elem_of_app in Hin as [Hin|Hin%list_elem_of_singleton].
    + assert (l ≠ l') as Hne.
      { intros <-. eapply Hdisj; [|left].
        apply list_elem_of_fmap. by exists (l, c). }
      rewrite !lookup_insert_ne by congruence. by apply IH.
    + injection Hin as -> ->.
      rewrite lookup_insert_ne, lookup_insert_ne, lookup_insert_eq by done.
      rewrite lookup_insert_ne, lookup_insert_eq by done.
      by rewrite lookup_insert_eq.
Qed.

Lemma gen_node_data_Ok (rank W P : nat) (sch : schema) :
  sch ≠ [] → NoDup sch.*1 → Forall (λ p, p.2 ≠ []) sch →
  ∃ node_data,
    gen_node_data partition_of rank W P (get_node_types sch) sch
    = Ok node_data
    ∧ ∀ l, (l < P / W)%nat →
        let F := filter (owns partition_of rank W l) (graph_nodes sch) in
        node_data !! (GLOBAL_NID, l) = Some ((λ t : Z * Z * Z, t.1.1) <$> F)
        ∧ node_data !! (NTYPE_ID, l) = Some ((λ t : Z * Z * Z, t.2) <$> F)
        ∧ node_data !! (GLOBAL_TYPE_NID, l)
          = Some ((λ t : Z * Z * Z, t.1.2) <$> F).
Proof.
  intros Hne Hnd Hcounts. unfold gen_node_data.
  destruct (get_idranges sch) as [tnd gnd] eqn:Hdicts.
  assert (Hranges : sequence ((λ nt : Z * string,
             r ← node_type_ranges tnd gnd nt.2; Ok (nt.1, r))
            <$> get_node_types sch) = Ok (type_table_from 0 0 sch)).
  { apply (node_type_table tnd gnd sch 0 0 Hcounts).
    intros name r Hin.
    destruct (get_idranges_lookup sch name r Hnd Hin) as [H1 H2].
    by rewrite Hdicts in H1, H2. }
  rewrite Hranges, bind_Ok.
  pose (g := λ l : nat,
    let F := filter (owns partition_of rank W l) (graph_nodes sch) in
    ((λ t : Z * Z * Z, t.1.1) <$> F, (λ t : Z * Z * Z, t.2) <$> F,
     (λ t : Z * Z * Z, t.1.2) <$> F)).
  rewrite (sequence_fmap_all_Ok _ g), bind_Ok.
  2:{ intros l _. by apply node_columns_triples. }
  eexists. split; [done|]. intros l Hl.
  apply (insert_node_columns_fold ∅ _ l (g l)).
  - rewrite fst_zip; [apply NoDup_seq|]. by rewrite length_fmap.
  - apply list_elem_of_lookup. exists l. apply lookup_zip_Some. split.
    + by apply lookup_seq_lt.
    + rewrite list_lookup_fmap, lookup_seq_lt by done. done.
Qed.

Lemma local_nodes_eq (rank W P : nat) (sch : schema) (l : nat) :
  sch ≠ [] → NoDup sch.*1 → Forall (λ p, p.2 ≠ []) sch → (l < P / W)%nat →
  local_nodes partition_of rank W P sch l
  = (λ t : Z * Z * Z, t.1.1)
      <$> filter (owns partition_of rank W l) (graph_nodes sch).
Proof.
  intros Hne Hnd Hcounts Hl. unfold local_nodes.
  destruct (gen_node_data_Ok rank W P sch Hne Hnd Hcounts) as (nd & -> & Hnd').
  destruct (Hnd' l Hl) as (-> & _). done.
Qed.

Lemma np_sum_app (l k : list Z) : np_sum (l ++ k) = np_sum l + np_sum k.
Proof.
  unfold np_sum. induction l as [|x l IH]; simpl; [done|]. rewrite IH. lia.
Qed.

Lemma np_sum_nonneg (l : list Z) : Forall (λ c, 0 ≤ c) l → 0 ≤ np_sum l.
Proof. unfold np_sum. induction 1; simpl; lia. Qed.

Lemma graph_nodes_from_gids (ntype_id offset : Z) (sch : schema) :
  Forall (λ p, Forall (λ c, 0 ≤ c) p.2) sch →
  (λ t : Z * Z * Z, t.1.1) <$> graph_nodes_from ntype_id offset sch
  = seqZ offset (num_nodes sch).
Proof.
  revert ntype_id offset. induction sch as [|[name counts] sch IH];
    intros ntype_id offset Hpos; [done|].
  apply Forall_cons in Hpos as [Hc Hpos]. simpl in Hc.
  cbn [graph_nodes_from]. rewrite fmap_app, IH by done.
  unfold num_nodes. rewrite fmap_cons. cbn [snd].
  change (np_sum (np_sum counts :: ?l)) with (np_sum counts + np_sum l).
  rewrite seqZ_app.
  - f_equal. rewrite <-list_fmap_compose.
    transitivity (seqZ (offset + 0) (np_sum counts)); [|f_equal; lia].
    apply (fmap_add_seqZ offset 0).
  - by apply np_sum_nonneg.
  - clear -Hpos. induction Hpos as [|p sch Hp _ IH]; [done|].
    rewrite fmap_cons. change (np_sum (?x :: ?l)) with (x + np_sum l).
    pose proof (np_sum_nonneg _ Hp). lia.
Qed.

Lemma graph_nodes_gids (sch : schema) :
  Forall (λ p, Forall (λ c, 0 ≤ c) p.2) sch →
  (λ t : Z * Z * Z, t.1.1) <$> graph_nodes sch = seqZ 0 (num_nodes sch).
Proof. apply graph_nodes_from_gids. Qed.

Lemma local_nodes_filter (rank W P : nat) (sch : schema) (l : nat) :
  sch ≠ [] → NoDup sch.*1 →
  Forall (λ p, p.2 ≠ [] ∧ Forall (λ c, 0 ≤ c) p.2) sch →
  (l < P / W)%nat →
  local_nodes partition_of rank W P sch l
  = filter (λ g, partition_of g = Z.of_nat (rank + l * W))
      (seqZ 0 (num_nodes sch)).
Proof.
  intros Hne Hnd Hsch Hl.
  rewrite local_nodes_eq; [|done|done| |done].
  - rewrite <-graph_nodes_gids.
    + by rewrite (filter_fmap (λ t : Z * Z * Z, t.1.1)).
    + eapply Forall_impl; [exact Hsch|]. by intros p [_ ?].
  - eapply Forall_impl; [exact Hsch|]. by intros p [? _].
Qed.

Lemma filter_eq_NoDup {A} `{EqDecision A} (x : A) (l : list A) :
  NoDup l → x ∈ l → filter (λ y, x = y) l = [x].
Proof.
  induction 1 as [|y l Hy Hnd IH]; intros Hin.
  - by apply elem_of_nil in Hin.
  - rewrite filter_cons. apply elem_of_cons in Hin as [->|Hin].
    + rewrite decide_True by done. f_equal.
      clear IH Hnd. induction l as [|z l IHl]; [done|].
      apply not_elem_of_cons in Hy as [Hyz Hy].
      rewrite filter_cons, decide_False by done. by apply IHl.
    + rewrite decide_False by (intros <-; done). by apply IH.
Qed.

(** C5.  Node synthesis reads no node file: from the schema alone, worker
    [rank] looks up the partition ids of the whole global-id range of every
    node type and keeps, under each local partition [l], exactly the
    triples (global_nid, type_nid, ntype_id) of the graph whose partition
    id is [rank + l * W].  Consequently every global node id whose
    partition id lies in [0, P) is held by exactly one (worker, local
    partition), once, and when all partition ids lie in [0, P) the node
    counts of all the workers add up to the number of nodes of the
    graph. *)
Theorem node_synthesis_partitions (W P : nat) (sch : schema) :
  sch ≠ [] → NoDup sch.*1 →
  Forall (λ p, p.2 ≠ [] ∧ Forall (λ c, 0 ≤ c) p.2) sch →
  (∀ rank, ∃ node_data,
     gen_node_data partition_of rank W P (get_node_types sch) sch
     = Ok node_data
     ∧ ∀ l, (l < P / W)%nat →
         let kept := filter (owns partition_of rank W l) (graph_nodes sch) in
         node_data !! (GLOBAL_NID, l)
         = Some ((λ t : Z * Z * Z, t.1.1) <$> kept)
         ∧ node_data !! (GLOBAL_TYPE_NID, l)
           = Some ((λ t : Z * Z * Z, t.1.2) <$> kept)
         ∧ node_data !! (NTYPE_ID, l)
           = Some ((λ t : Z * Z * Z, t.2) <$> kept))
  ∧ (λ t : Z * Z * Z, t.1.1) <$> graph_nodes sch = seqZ 0 (num_nodes sch)
  ∧ ((0 < W)%nat → (P mod W = 0)%nat →
     (∀ g, 0 ≤ g < num_nodes sch → 0 ≤ partition_of g < Z.of_nat P →
        ∃ r l, (r < W)%nat ∧ (l < P / W)%nat
          ∧ filter (λ g', g = g') (local_nodes partition_of r W P sch l) = [g]
          ∧ ∀ r' l', (r' < W)%nat → (l' < P / W)%nat →
              g ∈ local_nodes partition_of r' W P sch l' →
              r' = r ∧ l' = l)
     ∧ ((∀ g, 0 ≤ g < num_nodes sch → 0 ≤ partition_of g < Z.of_nat P) →
        Z.of_nat (sum_list ((λ r, sum_list
            ((λ l, length (local_nodes partition_of r W P sch l))
               <$> seq 0 (P / W)%nat)) <$> seq 0 W))
        = num_nodes sch)).
Proof.
  intros Hne Hnd Hsch.
  assert (Hc1 : Forall (λ p : string * list Z, p.2 ≠ []) sch).
  { eapply Forall_impl; [exact Hsch|]. by intros p [? _]. }
  assert (Hc2 : Forall (λ p : string * list Z, Forall (λ c, 0 ≤ c) p.2) sch).
  { eapply Forall_impl; [exact Hsch|]. by intros p [_ ?]. }
  split; [|split; [by apply graph_nodes_gids|]].
  { intros rank.
    destruct (gen_node_data_Ok rank W P sch Hne Hnd Hc1) as (nd & Hok & Hcols).
    exists nd. split; [done|]. intros l Hl kept.
    destruct (Hcols l Hl) as (H1 & H2 & H3). done. }
  intros HW HP.
  assert (HPW : (P / W * W = P)%nat).
  { pose proof (Nat.div_mod_eq P W). lia. }
  split.
  - intros g Hg Hp.
    set (p := Z.to_nat (partition_of g)).
    assert (Hplt : (p < P)%nat) by (subst p; lia).
    pose proof (Nat.div_mod_eq p W) as Hdm.
    pose proof (Nat.mod_upper_bound p W ltac:(lia)) as Hmb.
    assert (Hq : (p / W < P / W)%nat).
    { apply Nat.Div0.div_lt_upper_bound. lia. }
    exists (p mod W)%nat, (p / W)%nat. split; [done|]. split; [done|].
    split.
    + rewrite local_nodes_filter by done.
      apply filter_eq_NoDup.
      * apply NoDup_filter, NoDup_seqZ.
      * apply list_elem_of_filter. split; [subst p; lia|].
        apply elem_of_seqZ. lia.
    + intros r' l' Hr' Hl'. rewrite local_nodes_filter by done.
      intros [Hown _]%list_elem_of_filter.
      assert (p = r' + l' * W)%nat as Hpeq by (subst p; lia).
      split.
      * apply Nat.mod_unique with l'; lia.
      * apply Nat.div_unique with r'; lia.
  - intros Hall.
    rewrite (sum_list_fmap_ext _ (λ r, sum_list ((λ l,
        length (filter (λ g, partition_of g = Z.of_nat (r + l * W))
                  (seqZ 0 (num_nodes sch)))) <$> seq 0 (P / W)%nat))).
    + rewrite cyclic_partition_count.
      * rewrite length_seqZ. unfold num_nodes.
        assert (0 ≤ np_sum ((λ p, np_sum p.2) <$> sch)); [|lia].
        apply np_sum_nonneg, Forall_fmap.
        eapply Forall_impl; [exact Hc2|]. intros p Hp. by apply np_sum_nonneg.
      * intros g Hg%elem_of_seqZ. rewrite HPW. apply Hall. lia.
    + intros r _. apply sum_list_fmap_ext. intros l [_ Hl]%elem_of_seq.
      by rewrite local_nodes_filter.
Qed.

End node_synthesis_facts.

Lemma sample_schema_wf :
  sample_schema ≠ [] ∧ NoDup sample_schema.*1
  ∧ Forall (λ p, p.2 ≠ [] ∧ Forall (λ c, 0 ≤ c) p.2) sample_schema.
Proof.
  split; [done|]. split.
  - apply (bool_decide_unpack (NoDup sample_schema.*1)). vm_compute. done.
  - repeat constructor; done.
Qed.

Lemma node_synthesis_partitions_witness :
  (sample_schema ≠ [] ∧ NoDup sample_schema.*1
   ∧ Forall (λ p, p.2 ≠ [] ∧ Forall (λ c, 0 ≤ c) p.2) sample_schema)
  ∧ (λ t : Z * Z * Z, t.1.1) <$> graph_nodes sample_schema
    = seqZ 0 (num_nodes sample_schema).
Proof.
  split; [exact sample_schema_wf|].
  destruct sample_schema_wf as (H1 & H2 & H3).
  exact (proj1 (proj2
    (node_synthesis_partitions sample_partition_of 2 2 sample_schema
       H1 H2 H3))).
Defined.

(** * Further properties of the edge-data shuffle *)

Section edge_shuffle_more.

Variable partition_of : Z → Z.

Lemma exchange_edge_data_lookup (W P : nat) (edge_data : list (list edge))
    (out : list (list (list edge))) (r l : nat) (parts : list (list edge))
    (es : list edge) :
  exchange_edge_data partition_of W P edge_data = Ok out →
  out !! r = Some parts → parts !! l = Some es →
  (r < W)%nat ∧ (l < P / W)%nat
  ∧ edge_local_part partition_of W
      (edge_num_chunks (np_amax (edge_counts edge_data))) edge_data r l
    = Ok es.
Proof.
  intros [Hloop _]%exchange_edge_data_Ok_inv Hr Hl.
  unfold edge_exchange_loop in Hloop.
  destruct (sequence_fmap_lookup _ _ _ _ _ Hloop Hr) as (r' & Hr' & Hparts).
  apply lookup_seq in Hr' as [-> Hrlt].
  destruct (sequence_fmap_lookup _ _ _ _ _ Hparts Hl) as (l' & Hl' & Hes).
  apply lookup_seq in Hl' as [-> Hllt]. done.
Qed.

(** X1.  The edge shuffle moves whole records and neither loses nor
    duplicates any: after a successful run, what rank [r] holds under local
    partition [l] is, up to the order of arrival, exactly the collection of
    all the edge records read by all the workers whose destination is owned
    by global partition [r + l * W]; source, type-edge-id, edge type and
    global edge id of a record travel with it unchanged. *)
Theorem edge_shuffle_delivers (W P : nat) (edge_data : list (list edge))
    (out : list (list (list edge))) (r l : nat) (parts : list (list edge))
    (es : list edge) :
  exchange_edge_data partition_of W P edge_data = Ok out →
  out !! r = Some parts →
  parts !! l = Some es →
  es ≡ₚ filter (owned_by partition_of W r l) (mjoin edge_data).
Proof.
  intros Hok Hr Hl.
  destruct (exchange_edge_data_lookup W P edge_data out r l parts es
              Hok Hr Hl) as (Hrlt & _ & Hes).
  eapply edge_local_part_perm; [done| |exact Hes].
  apply edge_counts_max.
Qed.

Lemma edge_counts_all_empty (edge_data : list (list edge)) :
  Forall (λ ed, ed = []) edge_data → np_amax (edge_counts edge_data) = 0.
Proof.
  unfold edge_counts, allgather_sizes.
  induction 1 as [|ed edge_data -> _ IH]; [done|].
  rewrite fmap_cons. simpl. simpl in IH. rewrite IH. done.
Qed.

(** X2.  A graph without edges is not supported: when no worker holds an
    edge the number of chunks is 0, the chunk loop never runs, and the
    concatenation of the (empty) list of received pieces raises
    [ValueError] for the first local partition of rank 0. *)
Theorem edge_shuffle_rejects_empty_graph (W P : nat)
    (edge_data : list (list edge)) :
  (0 < W)%nat → (W ≤ P)%nat →
  Forall (λ ed, ed = []) edge_data →
  exchange_edge_data partition_of W P edge_data = Err ValueError.
Proof.
  intros HW HP Hempty. unfold exchange_edge_data. cbv zeta.
  rewrite (edge_counts_all_empty edge_data Hempty).
  change (edge_num_chunks 0) with 0.
  unfold edge_exchange_loop.
  destruct W as [|W]; [lia|].
  assert (0 < P / S W)%nat as Hk.
  { apply Nat.div_str_pos. lia. }
  destruct (P / S W)%nat as [|k]; [lia|]. done.
Qed.

(** Counting over the cyclic mapping when some ids are out of range. *)
Lemma cyclic_partition_count_in_range {A} (f : A → Z) (W k : nat)
    (xs : list A) :
  sum_list
    ((λ r, sum_list
       ((λ l, length (filter (λ x, f x = Z.of_nat (r + l * W)) xs))
          <$> seq 0 k)) <$> seq 0 W)
  = length (filter (λ x, 0 ≤ f x < Z.of_nat (k * W)) xs).
Proof.
  rewrite <-(cyclic_partition_count f W k
               (filter (λ x, 0 ≤ f x < Z.of_nat (k * W)) xs)).
  - apply sum_list_fmap_ext. intros r [_ Hr]%elem_of_seq.
    apply sum_list_fmap_ext. intros l [_ Hl]%elem_of_seq.
    f_equal. rewrite list_filter_filter. apply list_filter_iff.
    intros x. split; [|tauto]. intros Hx. split; [done|]. rewrite Hx. nia.
  - by intros x [? _]%list_elem_of_filter.
Qed.

Lemma filter_length_all {A} (P : A → Prop) `{∀ x, Decision (P x)}
    (xs : list A) :
  length (filter P xs) = length xs ↔ Forall P xs.
Proof.
  split.
  - intros Hlen. apply Forall_forall. intros x Hx.
    destruct (decide (P x)) as [|Hn]; [done|].
    pose proof (length_filter_lt P xs x Hx Hn). lia.
  - induction 1 as [|x xs Hx _ IH]; [done|].
    rewrite filter_cons, decide_True by done. simpl. by rewrite IH.
Qed.

(** X3.  When the edge shuffle returns.  On a cluster of [W > 0] workers
    holding at least one edge, the shuffle returns if and only if (a) in
    every round every rank is sent at least one row for each of its local
    partitions and (b) the destination of every edge is assigned a
    partition id in [0, (P // W) * W).  When (a) fails, a rank calls
    [torch.cat] on an empty list of receipts and the run stops with
    [ValueError], before the conservation check is reached; when (a) holds
    and (b) fails, an edge is sent to nobody and the conservation check
    stops the run with [AssertionError]. *)
Theorem edge_shuffle_returns_iff (W P : nat) (edge_data : list (list edge)) :
  (0 < W)%nat →
  0 < np_sum (edge_counts edge_data) →
  let num_chunks := edge_num_chunks (np_amax (edge_counts edge_data)) in
  let fed :=
    ∀ r l k, (r < W)%nat → (l < P / W)%nat → 0 ≤ k < num_chunks →
      edge_receipt partition_of W l num_chunks k edge_data r ≠ [] in
  let in_range :=
    Forall (λ e, 0 ≤ partition_of (global_dst_id e) < Z.of_nat (P / W * W))
      (mjoin edge_data) in
  (is_Ok (exchange_edge_data partition_of W P edge_data) ↔ fed ∧ in_range)
  ∧ (¬ fed → exchange_edge_data partition_of W P edge_data = Err ValueError)
  ∧ (fed → ¬ in_range →
     exchange_edge_data partition_of W P edge_data = Err AssertionError).
Proof.
  intros HW Hpos num_chunks fed in_range.
  pose proof (edge_num_chunks_pos edge_data Hpos) as Hn.
  fold num_chunks in Hn.
  pose proof (edge_exchange_loop_is_Ok partition_of W P num_chunks edge_data
                Hn) as Hloop_iff.
  fold fed in Hloop_iff.
  assert (∀ out,
            edge_exchange_loop partition_of W P num_chunks edge_data = Ok out →
            exchange_edge_data partition_of W P edge_data
            = if decide (in_range) then Ok out else Err AssertionError)
    as Hcheck.
  { intros out Hloop.
    rewrite (exchange_edge_data_loop partition_of _ _ _ _ Hloop).
    assert (np_sum (local_edge_count <$> out)
            = Z.of_nat (length (filter
                (λ e, 0 ≤ partition_of (global_dst_id e)
                      < Z.of_nat (P / W * W)) (mjoin edge_data)))) as ->.
    { rewrite (edge_exchange_loop_count partition_of W P edge_data out Hloop).
      f_equal.
      apply (cyclic_partition_count_in_range
               (λ e, partition_of (global_dst_id e))). }
    rewrite edge_counts_total. unfold assert.
    pose proof (filter_length_all
                  (λ e, 0 ≤ partition_of (global_dst_id e)
                        < Z.of_nat (P / W * W)) (mjoin edge_data)) as Hall.
    fold in_range in Hall.
    destruct (decide in_range) as [Hin|Hin].
    - rewrite decide_True; [done|]. by rewrite (proj2 Hall Hin).
    - rewrite decide_False; [done|]. intros Heq. apply Hin, Hall. lia. }
  assert (¬ fed → exchange_edge_data partition_of W P edge_data
                  = Err ValueError) as Hunfed.
  { intros Hfed. unfold exchange_edge_data. cbv zeta. fold num_chunks.
    destruct (edge_exchange_loop partition_of W P num_chunks edge_data)
      as [out|e] eqn:Hloop.
    - exfalso. apply Hfed, Hloop_iff. by exists out.
    - by rewrite (edge_exchange_loop_Err partition_of _ _ _ _ _ Hn Hloop). }
  split; [|split].
  - split.
    + intros [out Hok].
      destruct (edge_exchange_loop partition_of W P num_chunks edge_data)
        as [out'|e] eqn:Hloop.
      * split; [apply Hloop_iff; by exists out'|].
        rewrite (Hcheck out' eq_refl) in Hok. by case_decide.
      * exfalso. unfold exchange_edge_data in Hok. cbv zeta in Hok.
        fold num_chunks in Hok. by rewrite Hloop in Hok.
    + intros [Hfed Hin]. apply Hloop_iff in Hfed as [out Hloop].
      rewrite (Hcheck out Hloop), decide_True by done. by exists out.
  - exact Hunfed.
  - intros Hfed Hin. apply Hloop_iff in Hfed as [out Hloop].
    by rewrite (Hcheck out Hloop), decide_False.
Qed.

(** X4.  While the largest local edge count does not exceed the chunk cap
    of 10^8 rows the exchange takes a single round, and the rows arrive in
    a definite order: what rank [r] holds under local partition [l] is the
    list of the owned edges of rank 0, then those of rank 1, and so on, each
    in the order in which its reader held them. *)
Theorem edge_shuffle_keeps_sender_order (W P : nat)
    (edge_data : list (list edge)) (out : list (list (list edge)))
    (r l : nat) (parts : list (list edge)) (es : list edge) :
  np_amax (edge_counts edge_data) ≤ CHUNK_SIZE →
  exchange_edge_data partition_of W P edge_data = Ok out →
  out !! r = Some parts →
  parts !! l = Some es →
  es = mjoin (filter (owned_by partition_of W r l) <$> edge_data).
Proof.
  intros Hcap Hok Hr Hl.
  destruct (exchange_edge_data_lookup W P edge_data out r l parts es
              Hok Hr Hl) as (Hrlt & _ & Hes).
  set (m := np_amax (edge_counts edge_data)) in *.
  pose proof (np_amax_nonneg (edge_counts edge_data)) as Hm. fold m in Hm.
  destruct (decide (m = 0)) as [Hm0|Hm0].
  - rewrite Hm0 in Hes. change (edge_num_chunks 0) with 0 in Hes.
    unfold edge_local_part in Hes. done.
  - assert (edge_num_chunks m = 1) as Hn.
    { rewrite edge_num_chunks_ceil.
      pose proof (ceil_div_bounds m CHUNK_SIZE ltac:(done)) as Hb.
      unfold CHUNK_SIZE in *. nia. }
    apply edge_local_part_Ok in Hes; [|done]. rewrite Hn in Hes.
    change (seqZ 0 1) with [0] in Hes.
    rewrite fmap_cons, fmap_nil in Hes. cbn [mjoin list_join] in Hes.
    rewrite app_nil_r in Hes. subst es. unfold edge_receipt.
    f_equal. apply list_fmap_ext. intros i ed Hed. f_equal.
    unfold edge_chunk. rewrite LOCAL_CHUNK_SIZE_ceil.
    unfold ceil_div, slice. rewrite Z.div_1_r, Z.mul_0_l.
    change (Z.to_nat 0) with 0%nat. rewrite drop_0.
    apply take_ge. lia.
Qed.

End edge_shuffle_more.

Lemma edge_shuffle_delivers_witness :
  let edge_data :=
    [ [Edge 0 1 0 0 0; Edge 1 2 1 0 1]; [Edge 2 3 2 0 2; Edge 3 0 3 0 3] ] in
  exchange_edge_data (λ g, g mod 2) 2 2 edge_data
  = Ok [ [[Edge 1 2 1 0 1; Edge 3 0 3 0 3]];
         [[Edge 0 1 0 0 0; Edge 2 3 2 0 2]] ]
  ∧ [Edge 0 1 0 0 0; Edge 2 3 2 0 2]
    ≡ₚ filter (owned_by (λ g, g mod 2) 2 1 0) (mjoin edge_data).
Proof.
  intros edge_data. split; [vm_compute; reflexivity|].
  refine (edge_shuffle_delivers (λ g, g mod 2) 2 2 edge_data _ 1 0 _ _
            _ _ _).
  - vm_compute; reflexivity.
  - reflexivity.
  - reflexivity.
Defined.

Lemma edge_shuffle_rejects_empty_graph_witness :
  exchange_edge_data (λ g, g mod 2) 2 4 [ []; [] ] = Err ValueError.
Proof.
  apply edge_shuffle_rejects_empty_graph; [lia|lia|].
  repeat constructor.
Defined.

Lemma edge_shuffle_returns_iff_witness :
  (* the destination 5 has no owner among the two partitions, and rank 0
     is sent no row *)
  exchange_edge_data (λ g, g) 2 2 [ [Edge 0 1 0 0 0]; [Edge 1 5 1 0 1] ]
  = Err ValueError.
Proof.
  refine (proj1 (proj2 (edge_shuffle_returns_iff (λ g, g) 2 2
            [ [Edge 0 1 0 0 0]; [Edge 1 5 1 0 1] ] _ _)) _).
  - lia.
  - vm_compute. reflexivity.
  - intros Hfed. apply (Hfed 0%nat 0%nat 0); [lia|simpl; lia|done|].
    vm_compute. reflexivity.
Defined.

(** Every destination is owned by partition 0: rank 1 is sent no row, and
    the run raises although every partition id is in range. *)
Example edge_shuffle_unfed_rank :
  exchange_edge_data (λ g, g mod 2) 2 2
    [ [Edge 0 0 0 0 0]; [Edge 1 2 1 0 1] ] = Err ValueError.
Proof. vm_compute. reflexivity. Qed.

Lemma edge_shuffle_keeps_sender_order_witness :
  let edge_data :=
    [ [Edge 0 1 0 0 0; Edge 1 2 1 0 1]; [Edge 2 3 2 0 2; Edge 3 0 3 0 3] ] in
  np_amax (edge_counts edge_data) ≤ CHUNK_SIZE
  ∧ [Edge 1 2 1 0 1; Edge 3 0 3 0 3]
    = mjoin (filter (owned_by (λ g, g mod 2) 2 0 0) <$> edge_data).
Proof.
  intros edge_data. split; [vm_compute; discriminate|].
  refine (edge_shuffle_keeps_sender_order (λ g, g mod 2) 2 2 edge_data _ 0 0
            _ _ _ _ _ _).
  - vm_compute; discriminate.
  - vm_compute; reflexivity.
  - reflexivity.
  - reflexivity.
Defined.

(** * Further properties of the local-node synthesis *)

Lemma StronglySorted_filter {A} (R : relation A) (P : A → Prop)
    `{∀ x, Decision (P x)} (l : list A) :
  StronglySorted R l → StronglySorted R (filter P l).
Proof.
  induction 1 as [|x l Hs IH Hx]; [constructor|].
  rewrite filter_cons. case_decide; [|done].
  constructor; [done|]. apply Forall_forall.
  intros y [_ Hy]%list_elem_of_filter.
  by eapply Forall_forall in Hx.
Qed.

Lemma StronglySorted_seqZ (m n : Z) : StronglySorted Z.lt (seqZ m n).
Proof.
  destruct (decide (n ≤ 0)) as [Hn|Hn]; [rewrite seqZ_nil by done; constructor|].
  rewrite <-(Z2Nat.id n) by lia. generalize (Z.to_nat n) as k. clear.
  induction k as [|k IH]; [constructor|].
  rewrite seqZ_S. apply StronglySorted_app_2; [|done|repeat constructor].
  intros x1 x2 Hx1%elem_of_seqZ Hx2%list_elem_of_singleton. lia.
Qed.

Lemma graph_nodes_from_types (ntype_id offset : Z) (sch : schema)
    (t : Z * Z * Z) :
  t ∈ graph_nodes_from ntype_id offset sch → ntype_id ≤ t.2.
Proof.
  revert ntype_id offset. induction sch as [|[name counts] sch IH];
    intros ntype_id offset Ht; [by apply elem_of_nil in Ht|].
  cbn [graph_nodes_from] in Ht. apply elem_of_app in Ht as [Ht|Ht].
  - apply list_elem_of_fmap in Ht as (j & -> & _). simpl. lia.
  - apply IH in Ht. lia.
Qed.

Lemma graph_nodes_from_sorted (ntype_id offset : Z) (sch : schema) :
  StronglySorted (λ t t' : Z * Z * Z, type_then_id_le (t.2, t.1.2) (t'.2, t'.1.2))
    (graph_nodes_from ntype_id offset sch).
Proof.
  revert ntype_id offset. induction sch as [|[name counts] sch IH];
    intros ntype_id offset; [constructor|].
  cbn [graph_nodes_from]. apply StronglySorted_app_2; [| |apply IH].
  - intros t t' Ht Ht'. apply list_elem_of_fmap in Ht as (j & -> & _).
    apply graph_nodes_from_types in Ht'.
    left. simpl. lia.
  - eapply StronglySorted_fmap; [|apply (StronglySorted_seqZ 0)].
    intros j j' Hj. right. simpl. lia.
Qed.

Section node_synthesis_more.

Variable partition_of : Z → Z.

(** X5.  The node table that [gen_node_data] synthesizes is already in
    order, whatever the partition assignment: within every local partition
    the global node ids are strictly ascending, the three columns have the
    same length, and the records are sorted by node type id and, within a
    type, by per-type node id. *)
Theorem node_synthesis_sorted (rank W P : nat) (sch : schema)
    (node_data : dict) (l : nat) :
  sch ≠ [] → NoDup sch.*1 →
  Forall (λ p, p.2 ≠ [] ∧ Forall (λ c, 0 ≤ c) p.2) sch →
  gen_node_data partition_of rank W P (get_node_types sch) sch
  = Ok node_data →
  (l < P / W)%nat →
  ∃ gnids ntype_ids tnids,
    node_data !! (GLOBAL_NID, l) = Some gnids
    ∧ node_data !! (NTYPE_ID, l) = Some ntype_ids
    ∧ node_data !! (GLOBAL_TYPE_NID, l) = Some tnids
    ∧ length ntype_ids = length gnids
    ∧ length tnids = length gnids
    ∧ StronglySorted Z.lt gnids
    ∧ sorted_by_type_then_id ntype_ids tnids.
Proof.
  intros Hne Hnd Hsch Hok Hl.
  assert (Hc1 : Forall (λ p : string * list Z, p.2 ≠ []) sch).
  { eapply Forall_impl; [exact Hsch|]. by intros p [? _]. }
  assert (Hc2 : Forall (λ p : string * list Z, Forall (λ c, 0 ≤ c) p.2) sch).
  { eapply Forall_impl; [exact Hsch|]. by intros p [_ ?]. }
  destruct (gen_node_data_Ok partition_of rank W P sch Hne Hnd Hc1)
    as (nd & Hok' & Hcols).
  rewrite Hok in Hok'. injection Hok' as <-.
  destruct (Hcols l Hl) as (H1 & H2 & H3).
  set (kept := filter (owns partition_of rank W l) (graph_nodes sch)) in *.
  eexists _, _, _. split; [exact H1|]. split; [exact H2|].
  split; [exact H3|]. rewrite !length_fmap.
  split; [done|]. split; [done|]. split.
  - assert ((λ t : Z * Z * Z, t.1.1) <$> kept
            = filter (λ g, partition_of g = Z.of_nat (rank + l * W))
                (seqZ 0 (num_nodes sch))) as ->.
    { subst kept. rewrite <-graph_nodes_gids by done.
      by rewrite (filter_fmap (λ t : Z * Z * Z, t.1.1)). }
    apply StronglySorted_filter, StronglySorted_seqZ.
  - unfold sorted_by_type_then_id.
    assert (zip ((λ t : Z * Z * Z, t.2) <$> kept)
                ((λ t : Z * Z * Z, t.1.2) <$> kept)
            = (λ t : Z * Z * Z, (t.2, t.1.2)) <$> kept) as ->.
    { clear. induction kept as [|t kept IH]; [done|]. csimpl. by rewrite IH. }
    apply StronglySorted_Sorted.
    eapply StronglySorted_fmap;
      [|apply StronglySorted_filter, graph_nodes_from_sorted].
    done.
Qed.

Lemma foldl_insert_lookup_None {V V'} (f : V → V') (l : list (string * V))
    (k : string) :
  k ∉ l.*1 →
  foldl (λ (m : gmap string V') p, <[p.1 := f p.2]> m) ∅ l !! k = None.
Proof.
  induction l as [|p l IH] using rev_ind; intros Hk; [done|].
  rewrite foldl_snoc. rewrite fmap_app in Hk.
  apply not_elem_of_app in Hk as [Hk Hp].
  rewrite lookup_insert_ne; [by apply IH|].
  intros <-. apply Hp. left.
Qed.

Lemma sequence_fmap_first_error {B C} (f : B → result C) (e : error)
    (l : list B) :
  (∀ b, b ∈ l → is_Ok (f b) ∨ f b = Err e) →
  (∃ b, b ∈ l ∧ f b = Err e) →
  sequence (f <$> l) = Err e.
Proof.
  induction l as [|b l IH]; intros Hall (b0 & Hb0 & He).
  - by apply elem_of_nil in Hb0.
  - rewrite fmap_cons, sequence_cons.
    destruct (Hall b) as [[c Hc]|Hc]; [left| |by rewrite Hc].
    rewrite Hc, bind_Ok. rewrite IH; [done| |].
    + intros b' Hb'. apply Hall. by right.
    + apply elem_of_cons in Hb0 as [->|Hb0]; [congruence|]. eauto.
Qed.

(** X6.  A node type that the type map names but the schema does not list
    makes [gen_node_data] fail with [KeyError] (the lookup of its id ranges),
    wherever it stands in the map and whatever the partition assignment. *)
Theorem node_synthesis_unknown_type (rank W P : nat)
    (ntid_ntype_map : list (Z * string)) (sch : schema) (ntype_id : Z)
    (ntype_name : string) :
  NoDup sch.*1 → Forall (λ p, p.2 ≠ []) sch →
  (ntype_id, ntype_name) ∈ ntid_ntype_map → ntype_name ∉ sch.*1 →
  gen_node_data partition_of rank W P ntid_ntype_map sch = Err KeyError.
Proof.
  intros Hnd Hcounts Hin Hunknown. unfold gen_node_data.
  destruct (get_idranges sch) as [tnd gnd] eqn:Hdicts.
  rewrite (sequence_fmap_first_error _ KeyError); [done| |].
  - intros [i name] _. cbn [fst snd].
    destruct (decide (name ∈ sch.*1)) as [Hname|Hname].
    + left. rewrite <-(idranges_from_names 0) in Hname.
      apply list_elem_of_fmap in Hname as ([name' r] & -> & Hr). simpl.
      destruct (get_idranges_lookup sch name' r Hnd Hr) as [Ht Hg].
      rewrite Hdicts in Ht, Hg. simpl in Ht, Hg.
      assert (∃ counts, counts ≠ [] ∧ r.1 = chunk_ranges 0 counts)
        as (counts & Hc & Hr1).
      { clear -Hr Hcounts. revert Hr. generalize 0 at 1 as offset.
        induction Hcounts as [|[n c] sch Hc _ IH]; intros offset Hr;
          [by apply elem_of_nil in Hr|].
        cbn [idranges_from] in Hr. apply elem_of_cons in Hr as [[= _ ->]|Hr].
        - by exists c.
        - by eapply IH. }
      rewrite Hr1 in Ht.
      rewrite (node_type_ranges_Ok tnd gnd name' counts r.2 Hc Ht Hg).
      by eexists.
    + right. unfold node_type_ranges.
      assert (tnd !! name = None) as ->; [|done].
      pose proof (foldl_insert_lookup_None fst (idranges_from 0 sch) name)
        as Hnone.
      rewrite idranges_from_names in Hnone. specialize (Hnone Hname).
      unfold get_idranges in Hdicts. by injection Hdicts as <- _.
  - exists (ntype_id, ntype_name). split; [done|]. cbn [fst snd].
    unfold node_type_ranges.
    assert (tnd !! ntype_name = None) as ->; [|done].
    pose proof (foldl_insert_lookup_None fst (idranges_from 0 sch) ntype_name)
      as Hnone.
    rewrite idranges_from_names in Hnone. specialize (Hnone Hunknown).
    unfold get_idranges in Hdicts. by injection Hdicts as <- _.
Qed.

End node_synthesis_more.

Lemma sample_gen_node_data_Ok :
  is_Ok (gen_node_data sample_partition_of 0 2 2
           (get_node_types sample_schema) sample_schema).
Proof.
  destruct sample_schema_wf as (H1 & H2 & H3).
  destruct (gen_node_data_Ok sample_partition_of 0 2 2 sample_schema H1 H2)
    as (nd & Hnd & _).
  - eapply Forall_impl; [exact H3|]. by intros p [? _].
  - by exists nd.
Qed.

Lemma node_synthesis_sorted_witness :
  ∃ node_data gnids,
    gen_node_data sample_partition_of 0 2 2
      (get_node_types sample_schema) sample_schema = Ok node_data
    ∧ node_data !! (GLOBAL_NID, 0%nat) = Some gnids
    ∧ StronglySorted Z.lt gnids.
Proof.
  destruct sample_gen_node_data_Ok as [nd Hnd].
  destruct sample_schema_wf as (H1 & H2 & H3).
  destruct (node_synthesis_sorted sample_partition_of 0 2 2 sample_schema
              nd 0 H1 H2 H3 Hnd ltac:(vm_compute; lia))
    as (gn & nt & tn & Hg & _ & _ & _ & _ & Hs & _).
  exists nd, gn. done.
Defined.

Lemma node_synthesis_unknown_type_witness :
  gen_node_data sample_partition_of 0 2 2
    [(0, "author"%string); (1, "venue"%string)] sample_schema
  = Err KeyError.
Proof.
  destruct sample_schema_wf as (H1 & H2 & H3).
  apply (node_synthesis_unknown_type sample_partition_of 0 2 2 _ _
           1 "venue"%string).
  - exact H2.
  - eapply Forall_impl; [exact H3|]. by intros p [? _].
  - right. left.
  - simpl. intros Hin. apply elem_of_cons in Hin as [Hin|Hin]; [done|].
    apply elem_of_cons in Hin as [Hin|Hin]; [done|].
    by apply elem_of_nil in Hin.
Defined.

(** * Further properties of [reorder_data] *)

Lemma in_range_argsort_length {A} (v : list A) (col : list Z) :
  in_range v (argsort col) ↔ (length col ≤ length v)%nat.
Proof.
  unfold in_range. rewrite argsort_perm. rewrite Forall_forall. split.
  - intros Hall. destruct (length col) as [|n] eqn:Hn; [lia|].
    specialize (Hall n). rewrite elem_of_seq in Hall. lia.
  - intros Hle i [_ Hi]%elem_of_seq. lia.
Qed.

(** X7.  On [world_size > 0] workers, [reorder_data] returns exactly
    when, for every local partition below [num_parts // world_size], the
    key column is present and no column of that local partition is shorter
    than it; a missing key column of the first local partition raises
    [KeyError]. *)
Theorem reorder_data_returns_iff (num_parts world_size : nat) (data : dict)
    (key : string) :
  (0 < world_size)%nat →
  (is_Ok (reorder_data num_parts world_size data key)
   ↔ ∀ l, (l < num_parts / world_size)%nat →
       ∃ col, data !! (key, l) = Some col
         ∧ ∀ c v, data !! (c, l) = Some v → (length col ≤ length v)%nat)
  ∧ ((0 < num_parts / world_size)%nat → data !! (key, 0%nat) = None →
     reorder_data num_parts world_size data key = Err KeyError).
Proof.
  intros _. split; [split|].
  - intros [out Hout] l Hl. unfold reorder_data in Hout.
    apply reorder_fold_Ok in Hout as (Hin & _ & _); [|apply NoDup_seq].
    destruct (Hin l) as (col & Hcol & Hcols); [apply elem_of_seq; lia|].
    exists col. split; [done|]. intros c v Hv.
    apply in_range_argsort_length. by apply (Hcols c v Hv).
  - apply reorder_data_total.
  - intros Hk Hnone. unfold reorder_data.
    destruct (num_parts / world_size)%nat as [|k]; [lia|].
    change (seq 0 (S k)) with (0%nat :: seq 1 k).
    change (foldl ?f (Ok data) (0%nat :: seq 1 k))
      with (foldl f (reorder_part key 0 data) (seq 1 k)).
    unfold reorder_part. rewrite Hnone. cbn [from_option].
    rewrite bind_Err. apply foldl_result_Err.
Qed.

Lemma gather_zip {A B} (v1 : list A) (v2 : list B) (idx : list nat) :
  in_range v1 idx → in_range v2 idx →
  zip (gather v1 idx) (gather v2 idx) = gather (zip v1 v2) idx.
Proof.
  unfold in_range, gather. induction idx as [|i idx IH]; intros H1 H2;
    [done|].
  apply Forall_cons in H1 as [Hi1 H1]. apply Forall_cons in H2 as [Hi2 H2].
  destruct (lookup_lt_is_Some_2 v1 i Hi1) as [x Hx].
  destruct (lookup_lt_is_Some_2 v2 i Hi2) as [y Hy].
  csimpl. rewrite Hx, Hy.
  assert (zip v1 v2 !! i = Some (x, y)) as -> by by apply lookup_zip_Some.
  simpl. f_equal. by apply IH.
Qed.

(** X8.  [reorder_data] keeps the records intact: it permutes the rows of a
    local partition, it does not mix them.  Any two columns of a local
    partition that are as long as the key column are rearranged together,
    so the pairs of their entries are the same before and after. *)
Theorem reorder_data_keeps_rows (num_parts world_size : nat)
    (data out : dict) (key c1 c2 : string) (l : nat) (col v1 v2 : list Z) :
  reorder_data num_parts world_size data key = Ok out →
  (l < num_parts / world_size)%nat →
  data !! (key, l) = Some col →
  data !! (c1, l) = Some v1 → length v1 = length col →
  data !! (c2, l) = Some v2 → length v2 = length col →
  ∃ o1 o2, out !! (c1, l) = Some o1 ∧ out !! (c2, l) = Some o2
    ∧ length o1 = length col ∧ length o2 = length col
    ∧ zip o1 o2 ≡ₚ zip v1 v2.
Proof.
  intros Hout Hl Hcol Hv1 Hlen1 Hv2 Hlen2. unfold reorder_data in Hout.
  apply reorder_fold_Ok in Hout as (Hin & _ & _); [|apply NoDup_seq].
  destruct (Hin l) as (col' & Hcol' & Hcols); [apply elem_of_seq; lia|].
  rewrite Hcol in Hcol'. injection Hcol' as <-.
  destruct (Hcols c1 v1 Hv1) as [Hr1 Ho1].
  destruct (Hcols c2 v2 Hv2) as [Hr2 Ho2].
  exists (gather v1 (argsort col)), (gather v2 (argsort col)).
  split; [done|]. split; [done|].
  rewrite !gather_length by done.
  assert (length (argsort col) = length col) as Hlen.
  { by rewrite argsort_perm, length_seq. }
  split; [done|]. split; [done|].
  rewrite gather_zip by done. apply gather_perm.
  rewrite length_zip_with, Hlen1, Hlen2, Nat.min_id. apply argsort_perm.
Qed.

Lemma reorder_data_returns_iff_witness :
  reorder_data 2 1 unsorted_edge_data GLOBAL_NID = Err KeyError.
Proof.
  refine (proj2 (reorder_data_returns_iff 2 1 unsorted_edge_data GLOBAL_NID
                   _) _ _).
  - lia.
  - vm_compute. lia.
  - unfold unsorted_edge_data. do 5 (rewrite lookup_insert_ne by done).
    apply lookup_empty.
Defined.

Lemma reorder_data_keeps_rows_witness :
  ∃ out o1 o2,
    reorder_data 1 1 unsorted_edge_data ETYPE_ID = Ok out
    ∧ out !! (GLOBAL_SRC_ID, 0%nat) = Some o1
    ∧ out !! (GLOBAL_DST_ID, 0%nat) = Some o2
    ∧ zip o1 o2 ≡ₚ [(7, 4); (5, 6)].
Proof.
  destruct unsorted_edge_data_reorders as [out Hout].
  destruct (reorder_data_keeps_rows 1 1 unsorted_edge_data out ETYPE_ID
              GLOBAL_SRC_ID GLOBAL_DST_ID 0 [0; 0] [7; 5] [4; 6] Hout)
    as (o1 & o2 & H1 & H2 & _ & _ & Hp).
  - vm_compute. lia.
  - apply lookup_insert_eq.
  - unfold unsorted_edge_data. do 3 (rewrite lookup_insert_ne by done).
    apply lookup_insert_eq.
  - done.
  - unfold unsorted_edge_data. do 4 (rewrite lookup_insert_ne by done).
    apply lookup_insert_eq.
  - done.
  - exists out, o1, o2.
    split; [exact Hout|]. split; [exact H1|]. split; [exact H2|exact Hp].
Defined.

(** * The re-ordering of the received features *)

Lemma intersect1d_Permutation (ar1 ar2 ar2' : list Z) :
  ar2 ≡ₚ ar2' →
  (intersect1d ar1 ar2).1 = (intersect1d ar1 ar2').1.
Proof.
  intros Hp. unfold intersect1d. cbn [fst].
  assert (filter (λ v, v ∈ ar2) (np_unique ar1)
          = filter (λ v, v ∈ ar2') (np_unique ar1)) as ->; [|done].
  apply list_filter_iff. intros v. by rewrite Hp.
Qed.

(** X9.  The re-ordering of a feature table looks at the received global
    ids only as a set: two arrival orders of the same ids lead to the same
    rearrangement of the feature rows.  (The positions [idx2] of the ids
    in the received column, which [np.intersect1d] also returns, are
    discarded.) *)
Theorem reorder_feature_ignores_arrival_order {A} (ids shuffle_ids : list Z)
    (rcvd_global_ids rcvd_global_ids' : list Z) (rcvd_features : list A) :
  rcvd_global_ids ≡ₚ rcvd_global_ids' →
  reorder_feature ids shuffle_ids rcvd_global_ids rcvd_features
  = reorder_feature ids shuffle_ids rcvd_global_ids' rcvd_features.
Proof.
  intros Hp. unfold reorder_feature.
  pose proof (intersect1d_Permutation ids _ _ Hp) as Heq.
  destruct (intersect1d ids rcvd_global_ids) as [[c1 i1] j1].
  destruct (intersect1d ids rcvd_global_ids') as [[c2 i2] j2].
  simpl in Heq. by injection Heq as -> ->.
Qed.

Lemma reorder_feature_ignores_arrival_order_witness :
  reorder_feature [0; 1; 2; 3] [0; 1; 2; 3] [0; 2; 1; 3]
    ["a"; "c"; "b"; "d"]%string
  = reorder_feature [0; 1; 2; 3] [0; 1; 2; 3] [0; 1; 2; 3]
      ["a"; "c"; "b"; "d"]%string.
Proof.
  apply reorder_feature_ignores_arrival_order.
  apply Permutation_skip, Permutation_swap.
Defined.

Lemma first_index_lookup (a : list Z) (v : Z) :
  v ∈ a → a !! first_index a v = Some v.
Proof.
  intros Hv. unfold first_index.
  destruct (list_find (λ x, x = v) a) as [[i x]|] eqn:Hfind.
  - apply list_find_Some in Hfind as (Hi & -> & _). done.
  - apply list_find_None in Hfind.
    by eapply Forall_forall in Hfind.
Qed.

Lemma gather_fmap {B C} (f : B → C) (v : list B) (idx : list nat) :
  gather (f <$> v) idx = f <$> gather v idx.
Proof.
  unfold gather. rewrite list_fmap_omap. apply list_omap_ext.
  apply Forall_Forall2_diag, Forall_forall. intros i _.
  by rewrite list_lookup_fmap.
Qed.

Lemma fancy_index_Ok {B} (a : list B) (idx : list nat) :
  in_range a idx → fancy_index a idx = Ok (gather a idx).
Proof. intros Hr. unfold fancy_index. by rewrite decide_True. Qed.

Lemma gather_shuffle_ids (ids shuffle_ids rcvd : list Z) :
  length shuffle_ids = length ids → (∀ g, g ∈ rcvd → g ∈ ids) →
  in_range shuffle_ids (first_index ids <$> rcvd)
  ∧ gather shuffle_ids (first_index ids <$> rcvd)
    = shuffle_id_of ids shuffle_ids <$> rcvd.
Proof.
  intros Hlen Hsub. unfold in_range, gather.
  induction rcvd as [|g rcvd IH]; [done|].
  destruct IH as [IH1 IH2]; [intros; apply Hsub; by right|].
  assert (first_index ids g < length shuffle_ids)%nat as Hlt.
  { rewrite Hlen. eapply lookup_lt_Some, first_index_lookup, Hsub. left. }
  split.
  - rewrite fmap_cons. by constructor.
  - rewrite !fmap_cons. cbn [omap list_omap]. unfold shuffle_id_of at 1.
    destruct (lookup_lt_is_Some_2 _ _ Hlt) as [s ->]. simpl.
    f_equal. exact IH2.
Qed.

Lemma intersect1d_sorted_subset (ids rcvd : list Z) :
  StronglySorted Z.lt rcvd → (∀ g, g ∈ rcvd → g ∈ ids) →
  (intersect1d ids rcvd).1 = (rcvd, first_index ids <$> rcvd).
Proof.
  intros Hs Hsub. unfold intersect1d. cbn [fst].
  assert (filter (λ v, v ∈ rcvd) (np_unique ids) = rcvd) as ->; [|done].
  apply (Sorted_unique Z.le).
  - apply StronglySorted_Sorted, StronglySorted_filter.
    apply (StronglySorted_merge_sort Z.le).
  - apply StronglySorted_Sorted.
    clear -Hs. induction Hs as [|x l _ IH Hx]; constructor; [done|].
    eapply Forall_impl; [exact Hx|]. intros y ?. lia.
  - apply NoDup_Permutation.
    + apply NoDup_filter. unfold np_unique.
      rewrite merge_sort_Permutation. apply NoDup_remove_dups.
    + clear -Hs. induction Hs as [|x l _ IH Hx]; constructor; [|done].
      intros Hin. eapply Forall_forall in Hx; [|exact Hin]. lia.
    + intros x. rewrite list_elem_of_filter. unfold np_unique.
      rewrite merge_sort_Permutation, elem_of_remove_dups.
      split; [tauto|]. intros Hx. split; [done|]. by apply Hsub.
Qed.

(** X10.  When the global ids received with a feature table arrive in
    strictly ascending order and all belong to the renumbered table, the
    re-ordering succeeds and aligns the feature rows with the records: it
    applies to the rows a permutation that puts the ids received with them
    in ascending order of their shuffle-global ids. *)
Theorem reorder_feature_aligns_ascending_arrival {A}
    (ids shuffle_ids rcvd_global_ids : list Z) (rcvd_features : list A) :
  StronglySorted Z.lt rcvd_global_ids →
  (∀ g, g ∈ rcvd_global_ids → g ∈ ids) →
  length shuffle_ids = length ids →
  length rcvd_features = length rcvd_global_ids →
  ∃ feature_idx,
    feature_idx ≡ₚ seq 0 (length rcvd_global_ids)
    ∧ reorder_feature ids shuffle_ids rcvd_global_ids rcvd_features
      = Ok (gather rcvd_features feature_idx)
    ∧ gather rcvd_features feature_idx ≡ₚ rcvd_features
    ∧ Sorted Z.le (shuffle_id_of ids shuffle_ids
                     <$> gather rcvd_global_ids feature_idx).
Proof.
  intros Hs Hsub Hlen Hflen.
  exists (argsort (shuffle_id_of ids shuffle_ids <$> rcvd_global_ids)).
  assert (Hperm : argsort (shuffle_id_of ids shuffle_ids <$> rcvd_global_ids)
                  ≡ₚ seq 0 (length rcvd_global_ids)).
  { rewrite argsort_perm. by rewrite length_fmap. }
  split; [done|]. split; [|split].
  - unfold reorder_feature.
    pose proof (intersect1d_sorted_subset ids rcvd_global_ids Hs Hsub) as Hi.
    destruct (intersect1d ids rcvd_global_ids) as [[c i1] j1].
    simpl in Hi. injection Hi as -> ->.
    destruct (gather_shuffle_ids ids shuffle_ids rcvd_global_ids Hlen Hsub)
      as [Hr Hg].
    rewrite (fancy_index_Ok shuffle_ids) by done.
    rewrite bind_Ok, Hg.
    apply fancy_index_Ok, perm_seq_in_range. by rewrite Hflen.
  - apply gather_perm. by rewrite Hflen.
  - rewrite <-gather_fmap. apply argsort_sorted.
Qed.

Lemma reorder_feature_aligns_ascending_arrival_witness :
  ∃ feature_idx,
    reorder_feature [2; 0; 3; 1] [12; 10; 13; 11] [0; 1; 3]
      ["a"; "b"; "d"]%string
    = Ok (gather ["a"; "b"; "d"]%string feature_idx)
    ∧ Sorted Z.le (shuffle_id_of [2; 0; 3; 1] [12; 10; 13; 11]
                     <$> gather [0; 1; 3] feature_idx).
Proof.
  destruct (reorder_feature_aligns_ascending_arrival
              [2; 0; 3; 1] [12; 10; 13; 11] [0; 1; 3]
              ["a"; "b"; "d"]%string)
    as (idx & _ & Hok & _ & Hsorted).
  - repeat constructor; lia.
  - intros g Hg. apply list_elem_of_In in Hg. simpl in Hg.
    apply list_elem_of_In. simpl. lia.
  - reflexivity.
  - reflexivity.
  - exists idx. split; [exact Hok|exact Hsorted].
Defined.

(** * The chunk count of the feature shuffle *)

Lemma get_num_chunks_checks (shapes : list Z) (dtype_sz : Z)
    (rank world_size : nat) (msg_size : Z) (s0 : Z) :
  shapes !! 0%nat = Some s0 → s0 ≠ 0 → world_size ≠ 0%nat →
  (length shapes mod world_size)%nat = 0%nat →
  _get_num_chunks shapes dtype_sz rank world_size msg_size
  = if decide (msg_size = 0) then Ok 1
    else
      let sizes := peer_sizes shapes dtype_sz world_size in
      Ok (ceil_div (if decide (np_amax sizes < MB) then 1
                    else np_amax sizes / MB) msg_size).
Proof.
  intros Hs0 Hne HW Hdiv. unfold _get_num_chunks, np_split, assert.
  rewrite Hs0. cbn [from_option]. rewrite bind_Ok.
  destruct (decide (s0 ≠ 0)); [|done]. rewrite bind_Ok.
  destruct (decide (world_size = 0%nat)); [done|].
  destruct (decide ((length shapes mod world_size)%nat = 0%nat)); [|done].
  rewrite bind_Ok. done.
Qed.

(** X11.  With a maximum message size of 0, [_get_num_chunks] never
    returns anything but 1, whatever the shapes and the element size: it
    returns 1 exactly when its entry checks pass (a first gathered
    dimension other than 0, and a shape vector that splits evenly among
    [world_size > 0] workers), raises [AssertionError] when the first
    gathered dimension is 0, and raises [ValueError] when the shape vector
    does not split evenly. *)
Theorem get_num_chunks_unbounded (shapes : list Z) (dtype_sz : Z)
    (rank world_size : nat) :
  (∀ n, _get_num_chunks shapes dtype_sz rank world_size 0 = Ok n → n = 1)
  ∧ (_get_num_chunks shapes dtype_sz rank world_size 0 = Ok 1
     ↔ (∃ s0, shapes !! 0%nat = Some s0 ∧ s0 ≠ 0) ∧ world_size ≠ 0%nat
       ∧ (length shapes mod world_size)%nat = 0%nat)
  ∧ (shapes !! 0%nat = Some 0 →
     _get_num_chunks shapes dtype_sz rank world_size 0 = Err AssertionError)
  ∧ (∀ s0, shapes !! 0%nat = Some s0 → s0 ≠ 0 → world_size ≠ 0%nat →
     (length shapes mod world_size)%nat ≠ 0%nat →
     _get_num_chunks shapes dtype_sz rank world_size 0 = Err ValueError).
Proof.
  unfold _get_num_chunks, np_split, assert.
  destruct (shapes !! 0%nat) as [s0|] eqn:Hs0; cbn [from_option].
  2:{ rewrite bind_Err. split; [done|]. split; [|done].
      split; [done|]. by intros [[s0 [? _]] _]. }
  rewrite bind_Ok.
  destruct (decide (s0 ≠ 0)) as [Hne|Heq].
  2:{ rewrite bind_Err. split; [done|]. split; [|split].
      - split; [done|]. intros [(s0' & [= <-] & ?) _]. done.
      - done.
      - intros s0' [= <-] ?. done. }
  rewrite bind_Ok.
  destruct (decide (world_size = 0%nat)) as [HW|HW].
  { rewrite bind_Err. split; [done|]. split; [|split].
    - split; [done|]. by intros (_ & ? & _).
    - intros [= ->]. done.
    - done. }
  destruct (decide ((length shapes mod world_size)%nat = 0%nat))
    as [Hdiv|Hdiv].
  - rewrite bind_Ok. rewrite decide_True by done.
    split; [by intros n [= <-]|]. split; [|split].
    + split; [|done]. intros _. split; [by exists s0|done].
    + intros [= ->]. done.
    + done.
  - rewrite bind_Err. split; [done|]. split; [|split].
    + split; [done|]. by intros (_ & _ & ?).
    + intros [= ->]. done.
    + done.
Qed.

(** X12.  With a positive maximum message size, and when its entry checks
    pass, [_get_num_chunks] returns the least number of chunks [n >= 1]
    such that [n * msg_size] reaches the size, in whole MiB and at least 1,
    of the largest feature tensor held by a worker: sizes are rounded down
    to whole MiB before they are compared with the message size.  (The
    largest size is below [2 ^ 31] MiB, so that the cast to [int32] is
    exact.) *)
Theorem get_num_chunks_bounded (shapes : list Z) (dtype_sz : Z)
    (rank world_size : nat) (msg_size s0 : Z) :
  0 < msg_size →
  shapes !! 0%nat = Some s0 → s0 ≠ 0 → world_size ≠ 0%nat →
  (length shapes mod world_size)%nat = 0%nat →
  np_amax (peer_sizes shapes dtype_sz world_size) < 2 ^ 31 * MB →
  let max_bytes := np_amax (peer_sizes shapes dtype_sz world_size) in
  let max_mib := Z.max 1 (max_bytes / MB) in
  ∃ n, _get_num_chunks shapes dtype_sz rank world_size msg_size = Ok n
    ∧ 1 ≤ n
    ∧ (n - 1) * msg_size < max_mib ≤ n * msg_size
    ∧ max_bytes < (max_mib + 1) * MB.
Proof.
  intros Hmsg Hs0 Hne HW Hdiv _ max_bytes max_mib.
  rewrite (get_num_chunks_checks _ _ _ _ _ s0) by done.
  rewrite decide_False by lia. cbv zeta. fold max_bytes.
  assert (0 ≤ max_bytes) as Hnn by apply np_amax_nonneg.
  assert (0 < MB) as HMB by done.
  pose proof (Z.div_mod max_bytes MB ltac:(lia)) as Hdm.
  pose proof (Z.mod_pos_bound max_bytes MB HMB) as Hmb.
  assert ((if decide (max_bytes < MB) then 1 else max_bytes / MB) = max_mib)
    as ->.
  { subst max_mib. case_decide as Hlt.
    - rewrite Z.div_small by lia. lia.
    - assert (1 ≤ max_bytes / MB) by (apply Z.div_le_lower_bound; lia). lia. }
  eexists. split; [done|].
  pose proof (ceil_div_bounds max_mib msg_size Hmsg) as Hb.
  split; [subst max_mib; nia|]. split; [done|].
  subst max_mib. nia.
Qed.

Lemma get_num_chunks_bounded_witness :
  (* two workers, float32 tensors of shapes (3, 262144) and (4, 262144),
     i.e. 3 MiB and 4 MiB, messages of at most 3 MiB *)
  ∃ n, _get_num_chunks [3; 262144; 4; 262144] 4 0 2 3 = Ok n
    ∧ 1 ≤ n ∧ (n - 1) * 3 < 4 ≤ n * 3.
Proof.
  destruct (get_num_chunks_bounded [3; 262144; 4; 262144] 4 0 2 3 3)
    as (n & Hn & H1 & H2 & _);
    [lia|reflexivity|lia|lia|reflexivity|reflexivity|].
  exists n. split; [exact Hn|]. split; [exact H1|exact H2].
Defined.

(** * The chunk plan of the feature shuffle *)

Lemma get_num_chunks_pos (shapes : list Z) (dtype_sz : Z)
    (rank world_size : nat) (msg_size s0 : Z) :
  0 ≤ msg_size →
  shapes !! 0%nat = Some s0 → s0 ≠ 0 → world_size ≠ 0%nat →
  (length shapes mod world_size)%nat = 0%nat →
  ∃ n, _get_num_chunks shapes dtype_sz rank world_size msg_size = Ok n
    ∧ 1 ≤ n.
Proof.
  intros Hmsg Hs0 Hne HW Hdiv.
  rewrite (get_num_chunks_checks _ _ _ _ _ s0) by done.
  case_decide as Hm; [by exists 1|]. cbv zeta.
  eexists. split; [done|].
  set (m := if decide _ then 1 else _).
  assert (1 ≤ m) as Hm1.
  { subst m. case_decide as Hlt; [done|].
    apply Z.div_le_lower_bound; [done|]. lia. }
  pose proof (ceil_div_bounds m msg_size ltac:(lia)). nia.
Qed.

Lemma get_num_chunks_Ok_pos (shapes : list Z) (dtype_sz : Z)
    (rank world_size : nat) (msg_size n : Z) :
  0 ≤ msg_size →
  _get_num_chunks shapes dtype_sz rank world_size msg_size = Ok n → 1 ≤ n.
Proof.
  intros Hmsg. unfold _get_num_chunks.
  intros (s0 & _ & (_ & _ & (sh & _ & H)%bind_Ok_inv)%bind_Ok_inv)%bind_Ok_inv.
  cbv zeta in H. case_decide as Hm; [by injection H as <-|].
  injection H as <-.
  set (m := if decide _ then 1 else _).
  assert (1 ≤ m) as Hm1.
  { subst m. case_decide as Hlt; [done|].
    apply Z.div_le_lower_bound; [done|]. lia. }
  pose proof (ceil_div_bounds m msg_size ltac:(lia)). nia.
Qed.

Lemma rows_per_chunk_bounds (rows n : Z) :
  1 ≤ rows → 1 ≤ n → 1 ≤ rows_per_chunk rows n ≤ rows.
Proof.
  intros Hr Hn. unfold rows_per_chunk. case_decide as Hlt; [lia|].
  split.
  - apply Z.div_le_lower_bound; lia.
  - apply Z.div_le_upper_bound; nia.
Qed.

Lemma chunk_loop_closed (n : nat) (rows rpc ts gs j : Z) :
  0 < rpc → 0 ≤ j →
  (n = 0%nat ∨ (j + Z.of_nat n - 1) * rpc < rows) →
  chunk_loop n rows rpc (ts + rows) (gs + rows)
    (ChunkBounds (j * rpc) (j * rpc) (ts + j * rpc) (ts + j * rpc)
                 (gs + j * rpc) (gs + j * rpc))
  = (λ k, let s := k * rpc in
          let e := Z.min (s + rpc) rows in
          ChunkBounds s e (ts + s) (ts + e) (gs + s) (gs + e))
      <$> seqZ j (Z.of_nat n).
Proof.
  intros Hrpc. revert j. induction n as [|n IH]; intros j Hj Hn; [done|].
  rewrite seqZ_cons by lia. rewrite fmap_cons.
  replace (Z.pred (Z.of_nat (S n))) with (Z.of_nat n) by lia.
  cbn [chunk_loop cb_end cb_typeid_end cb_gid_end cb_start cb_typeid_start
       cb_gid_start]. cbv zeta.
  destruct Hn as [Hn|Hn]; [done|].
  case_decide as Hgt.
  - (* the clamped chunk is the last one *)
    assert (n = 0%nat) as -> by nia.
    cbn [chunk_loop seqZ]. rewrite Z.min_r by lia. done.
  - rewrite Z.min_l by lia.
    cbn [cb_end cb_typeid_end cb_gid_end].
    specialize (IH (Z.succ j) ltac:(lia)).
    replace (Z.succ j * rpc) with (j * rpc + rpc) in IH by lia.
    replace (ts + (j * rpc + rpc)) with (ts + j * rpc + rpc) in * by lia.
    replace (gs + (j * rpc + rpc)) with (gs + j * rpc + rpc) in * by lia.
    f_equal. apply IH. destruct n; [by left|right]. nia.
Qed.

Lemma slice_clip {A} (a b : Z) (l : list A) :
  0 ≤ a → slice a (Z.min b (Z.of_nat (length l))) l = slice a b l.
Proof.
  intros Ha. unfold slice.
  destruct (decide (b ≤ Z.of_nat (length l))) as [Hb|Hb].
  - by rewrite Z.min_l by lia.
  - rewrite Z.min_r by lia. rewrite !take_ge; [done| |];
      rewrite length_drop; lia.
Qed.

Lemma chunk_slices_cover {A} (l : list A) (rpc : Z) :
  0 < rpc →
  mjoin ((λ k, slice (k * rpc) (Z.min (k * rpc + rpc) (Z.of_nat (length l))) l)
           <$> seqZ 0 (ceil_div (Z.of_nat (length l)) rpc)) = l.
Proof.
  intros Hrpc.
  pose proof (ceil_div_bounds (Z.of_nat (length l)) rpc Hrpc) as Hb.
  etrans;
    [|apply (slices_cover l rpc (ceil_div (Z.of_nat (length l)) rpc)); lia].
  f_equal. apply list_fmap_ext. intros i k Hk.
  apply lookup_seqZ in Hk as [-> _].
  rewrite slice_clip by lia. f_equal. lia.
Qed.

Lemma feature_chunks_closed {A} (all_dims : list Z) (rank world_size : nat)
    (feat_mesg_size begin_global_id : Z) (inp : feature_input (A:=A))
    (t : tensor A) (n0 : Z) :
  fi_feature_data inp = Some t →
  let rows := Z.of_nat (length (tensor_rows t)) in
  1 ≤ rows → 1 ≤ n0 →
  fi_type_id_end inp - fi_type_id_start inp = rows →
  _get_num_chunks all_dims (element_size (tensor_dtype t)) rank world_size
    feat_mesg_size = Ok n0 →
  let rpc := rows_per_chunk rows n0 in
  feature_chunks all_dims rank world_size feat_mesg_size begin_global_id inp
  = Ok ((λ k, let s := k * rpc in
              let e := Z.min (s + rpc) rows in
              FeatureArgs (fi_data inp) (Some (tensor_slice s e t))
                (begin_global_id + fi_type_id_start inp + s)
                (begin_global_id + fi_type_id_start inp + e)
                (fi_type_id_start inp + s) (fi_type_id_start inp + e))
          <$> seqZ 0 (ceil_div rows rpc)).
Proof.
  intros Ht rows Hrows Hn0 Hrange Hnum rpc.
  pose proof (rows_per_chunk_bounds rows n0 Hrows Hn0) as Hrpc. fold rpc in Hrpc.
  pose proof (ceil_div_bounds rows rpc ltac:(lia)) as Hb.
  unfold feature_chunks. rewrite Ht. cbn [from_option]. rewrite bind_Ok.
  rewrite Hnum, bind_Ok. cbv zeta. fold rows. fold rpc.
  rewrite decide_False by lia. f_equal.
  replace (fi_type_id_end inp) with (fi_type_id_start inp + rows) by lia.
  replace (begin_global_id + (fi_type_id_start inp + rows))
    with (begin_global_id + fi_type_id_start inp + rows) by lia.
  set (ts := fi_type_id_start inp). set (gs := begin_global_id + ts).
  replace (ChunkBounds 0 0 ts ts gs gs)
    with (ChunkBounds (0 * rpc) (0 * rpc) (ts + 0 * rpc) (ts + 0 * rpc)
            (gs + 0 * rpc) (gs + 0 * rpc)) by (f_equal; lia).
  rewrite chunk_loop_closed; [|lia|lia|right; nia].
  rewrite <-list_fmap_compose. rewrite Z2Nat.id by nia. done.
Qed.

(** X13.  The chunk plan of [exchange_features].  A worker that holds a
    tensor of [rows >= 1] rows whose type-id range has exactly [rows] ids
    issues [ceil(rows / rpc)] calls of [exchange_feature], where
    [rpc = rows_per_chunk rows n0], [1 <= rpc <= rows], and [n0] is the
    count of [_get_num_chunks]: call [k] carries the rows
    [k * rpc .. min((k+1) * rpc, rows)) of the tensor together with the
    type ids and the global ids at the same offsets.  The chunks are
    consecutive and their rows concatenate to the whole tensor. *)
Theorem feature_chunks_plan {A} (all_dims : list Z) (rank world_size : nat)
    (feat_mesg_size begin_global_id : Z) (inp : feature_input (A:=A))
    (t : tensor A) (s0 : Z) :
  fi_feature_data inp = Some t →
  let rows := Z.of_nat (length (tensor_rows t)) in
  1 ≤ rows < 2 ^ 31 →
  fi_type_id_end inp - fi_type_id_start inp = rows →
  0 ≤ feat_mesg_size →
  all_dims !! 0%nat = Some s0 → s0 ≠ 0 → world_size ≠ 0%nat →
  (length all_dims mod world_size)%nat = 0%nat →
  np_amax (peer_sizes all_dims (element_size (tensor_dtype t)) world_size)
    < 2 ^ 31 * MB →
  ∃ n0,
    _get_num_chunks all_dims (element_size (tensor_dtype t)) rank world_size
      feat_mesg_size = Ok n0
    ∧ let rpc := rows_per_chunk rows n0 in
      let chunk_ids := seqZ 0 (ceil_div rows rpc) in
      1 ≤ rpc ≤ rows
      ∧ feature_chunks all_dims rank world_size feat_mesg_size
          begin_global_id inp
        = Ok ((λ k, let s := k * rpc in
                    let e := Z.min (s + rpc) rows in
                    FeatureArgs (fi_data inp) (Some (tensor_slice s e t))
                      (begin_global_id + fi_type_id_start inp + s)
                      (begin_global_id + fi_type_id_start inp + e)
                      (fi_type_id_start inp + s) (fi_type_id_start inp + e))
                <$> chunk_ids)
      ∧ mjoin ((λ k, tensor_rows
                       (tensor_slice (k * rpc) (Z.min (k * rpc + rpc) rows) t))
                 <$> chunk_ids) = tensor_rows t.
Proof.
  intros Ht rows [Hrows _] Hrange Hmsg Hs0 Hne HW Hdiv _.
  destruct (get_num_chunks_pos all_dims (element_size (tensor_dtype t)) rank
              world_size feat_mesg_size s0) as (n0 & Hnum & Hn0); try done.
  exists n0. split; [done|]. cbv zeta.
  pose proof (rows_per_chunk_bounds rows n0 Hrows Hn0) as Hrpc.
  split; [done|]. split.
  - by apply feature_chunks_closed.
  - cbn [tensor_slice tensor_rows]. apply chunk_slices_cover. lia.
Qed.

Lemma feature_chunks_plan_witness :
  (* a float32 tensor of shape (5, 131072), 2.5 MiB, on each of two workers,
     messages of at most 1 MiB: chunks of 2, 2 and 1 rows *)
  is_Ok (feature_chunks [5; 131072; 5; 131072] 0 2 1 100
           (FeatureInput (Some (Tensor [1; 2; 3; 4; 5] [131072] F32))
              0 5 None)).
Proof.
  destruct (feature_chunks_plan [5; 131072; 5; 131072] 0 2 1 100
              (FeatureInput (Some (Tensor [1; 2; 3; 4; 5] [131072] F32))
                 0 5 None)
              (Tensor [1; 2; 3; 4; 5] [131072] F32) 5)
    as (n0 & _ & _ & H & _);
    [reflexivity|simpl; lia|reflexivity|lia|reflexivity|lia|lia|reflexivity
    |reflexivity|].
  eexists. exact H.
Defined.

Lemma tensor_slice_all {A} (t : tensor A) :
  tensor_slice 0 (Z.of_nat (length (tensor_rows t))) t = t.
Proof.
  destruct t as [rows sh dt]. unfold tensor_slice, slice.
  cbn [tensor_rows tensor_row_shape tensor_dtype]. f_equal.
  rewrite Nat2Z.id. change (Z.to_nat 0) with 0%nat.
  rewrite Nat.sub_0_r, drop_0. by apply take_ge.
Qed.

Lemma feature_chunks_single {A} (all_dims : list Z) (rank world_size : nat)
    (begin_global_id : Z) (inp : feature_input (A:=A)) (t : tensor A) :
  fi_feature_data inp = Some t →
  let rows := Z.of_nat (length (tensor_rows t)) in
  1 ≤ rows →
  ∀ feat_mesg_size,
  _get_num_chunks all_dims (element_size (tensor_dtype t)) rank world_size
    feat_mesg_size = Ok 1 →
  feature_chunks all_dims rank world_size feat_mesg_size begin_global_id inp
  = Ok [FeatureArgs (fi_data inp) (Some t)
          (begin_global_id + fi_type_id_start inp)
          (begin_global_id + fi_type_id_start inp + rows)
          (fi_type_id_start inp) (fi_type_id_start inp + rows)].
Proof.
  intros Ht rows Hrows msg Hnum.
  unfold feature_chunks. rewrite Ht. cbn [from_option]. rewrite bind_Ok.
  rewrite Hnum, bind_Ok. cbv zeta. fold rows.
  assert (rows_per_chunk rows 1 = rows) as ->.
  { unfold rows_per_chunk. case_decide; [done|]. apply Z.div_1_r. }
  rewrite decide_False by lia.
  assert (ceil_div rows rows = 1) as ->.
  { pose proof (ceil_div_bounds rows rows ltac:(lia)). nia. }
  change (Z.to_nat 1) with 1%nat.
  cbn [chunk_loop cb_end cb_typeid_end cb_gid_end cb_start cb_typeid_start
       cb_gid_start]. cbv zeta.
  rewrite decide_False by lia.
  rewrite fmap_cons, fmap_nil.
  cbn [cb_end cb_typeid_end cb_gid_end cb_start cb_typeid_start cb_gid_start].
  rewrite Z.add_0_l. subst rows. rewrite tensor_slice_all. done.
Qed.

(** X14.  With a maximum message size of 0 a worker that holds a tensor of
    [rows >= 1] rows issues exactly one call of [exchange_feature], with
    the whole tensor, the global ids [gid_start .. gid_start + rows) and
    the type ids [type_id_start .. type_id_start + rows): the end of the
    type-id range given for the tensor is not used. *)
Theorem feature_chunks_unbounded {A} (all_dims : list Z)
    (rank world_size : nat) (begin_global_id : Z)
    (inp : feature_input (A:=A)) (t : tensor A) (s0 : Z) :
  fi_feature_data inp = Some t →
  let rows := Z.of_nat (length (tensor_rows t)) in
  1 ≤ rows < 2 ^ 31 →
  all_dims !! 0%nat = Some s0 → s0 ≠ 0 → world_size ≠ 0%nat →
  (length all_dims mod world_size)%nat = 0%nat →
  feature_chunks all_dims rank world_size 0 begin_global_id inp
  = Ok [FeatureArgs (fi_data inp) (Some t)
          (begin_global_id + fi_type_id_start inp)
          (begin_global_id + fi_type_id_start inp + rows)
          (fi_type_id_start inp) (fi_type_id_start inp + rows)].
Proof.
  intros Ht rows [Hrows _] Hs0 Hne HW Hdiv.
  apply feature_chunks_single; [done..|].
  by rewrite (get_num_chunks_checks _ _ _ _ _ s0).
Qed.

Lemma feature_chunks_unbounded_witness :
  (* three rows, a type-id range [0, 7) that is too long *)
  feature_chunks [3; 2; 3; 2] 0 2 0 100
    (FeatureInput (Some (Tensor [1; 2; 3] [2] F32)) 0 7 None)
  = Ok [FeatureArgs None (Some (Tensor [1; 2; 3] [2] F32)) 100 103 0 3].
Proof.
  apply (feature_chunks_unbounded [3; 2; 3; 2] 0 2 100
           (FeatureInput (Some (Tensor [1; 2; 3] [2] F32)) 0 7 None)
           (Tensor [1; 2; 3] [2] F32) 3);
    [reflexivity|simpl; lia|reflexivity|lia|lia|reflexivity].
Defined.

(** * Workers without rows *)

Lemma sequence_imap_Ok {B C} (f : nat → B → result C) (l : list B)
    (r : list C) (i : nat) (b : B) :
  sequence (imap f l) = Ok r → l !! i = Some b → is_Ok (f i b).
Proof.
  revert f r i. induction l as [|x l IH]; intros f r i Hs Hi; [done|].
  rewrite imap_cons, sequence_cons in Hs.
  apply bind_Ok_inv in Hs as (c & Hc & (r' & Hr & _)%bind_Ok_inv).
  destruct i as [|i].
  - injection Hi as <-. by exists c.
  - exact (IH (f ∘ S) r' i Hr Hi).
Qed.

Lemma feature_chunks_Ok_rows {A} (all_dims : list Z) (rank world_size : nat)
    (feat_mesg_size begin_global_id : Z) (inp : feature_input (A:=A)) :
  0 ≤ feat_mesg_size →
  is_Ok (feature_chunks all_dims rank world_size feat_mesg_size
           begin_global_id inp) →
  ∃ t, fi_feature_data inp = Some t ∧ tensor_rows t ≠ [].
Proof.
  intros Hmsg [calls H]. unfold feature_chunks in H.
  apply bind_Ok_inv in H as (t & Ht & H).
  destruct (fi_feature_data inp) as [t'|]; [|done].
  injection Ht as ->. exists t. split; [done|].
  apply bind_Ok_inv in H as (n0 & Hn0 & H).
  apply get_num_chunks_Ok_pos in Hn0; [|done].
  cbv zeta in H. case_decide as Hrpc; [done|].
  intros Hnil. apply Hrpc. rewrite Hnil. unfold rows_per_chunk.
  cbn [length]. rewrite decide_True by lia. done.
Qed.

Lemma exchange_features_first_part {A} (partition_of : Z → Z)
    (world_size num_parts : nat) (feat_mesg_size begin_global_id : Z)
    (ft : feat_type) (feat_key : string * string)
    (inputs : list (feature_input (A:=A))) :
  (0 < num_parts / world_size)%nat →
  is_Ok (exchange_features partition_of world_size num_parts feat_mesg_size
           begin_global_id ft feat_key inputs) →
  is_Ok (exchange_features_part partition_of world_size feat_mesg_size
           begin_global_id ft feat_key inputs 0
           (replicate world_size empty_store)).
Proof.
  intros Hk [out H]. unfold exchange_features in H.
  destruct (num_parts / world_size)%nat as [|k]; [lia|].
  cbn [seq foldl] in H. rewrite bind_Ok in H.
  destruct (exchange_features_part _ _ _ _ _ _ _ _ _) as [s|e]; [by eexists|].
  by rewrite foldl_result_Err in H.
Qed.

(** X15.  [exchange_features] cannot complete when one of the workers has
    no rows for the feature: a worker that holds no tensor ([None]) or a
    tensor of zero rows makes the run raise, for every maximum message size
    [>= 0] and whenever a worker has at least one local partition.  (Rank 0
    without rows stops at the log message that formats the undefined name
    [local_feat_key]; another worker at [featdata_key.element_size()] or at
    the division by [rows_per_chunk = 0].) *)
Theorem exchange_features_needs_rows {A} (partition_of : Z → Z)
    (world_size num_parts : nat) (feat_mesg_size begin_global_id : Z)
    (ft : feat_type) (feat_key : string * string)
    (inputs : list (feature_input (A:=A))) (r : nat)
    (inp : feature_input (A:=A)) :
  (0 < num_parts / world_size)%nat → 0 ≤ feat_mesg_size →
  inputs !! r = Some inp →
  (∀ t, fi_feature_data inp = Some t → tensor_rows t = []) →
  ∃ e, exchange_features partition_of world_size num_parts feat_mesg_size
         begin_global_id ft feat_key inputs = Err e.
Proof.
  intros Hk Hmsg Hr Hrows.
  destruct (exchange_features _ _ _ _ _ _ _ _) as [out|e] eqn:Hrun;
    [exfalso|by exists e].
  assert (is_Ok (exchange_features partition_of world_size num_parts
                   feat_mesg_size begin_global_id ft feat_key inputs))
    as Hok by (by exists out).
  apply exchange_features_first_part in Hok as [s Hs]; [|done].
  unfold exchange_features_part in Hs.
  apply bind_Ok_inv in Hs as (dim0 & _ & Hs).
  case_decide as Hdim; [done|].
  apply bind_Ok_inv in Hs as (plans & Hplans & _).
  destruct (feature_chunks_Ok_rows _ _ _ _ _ inp Hmsg
              (sequence_imap_Ok _ _ _ r inp Hplans Hr)) as (t & Ht & Hne).
  apply Hne, Hrows, Ht.
Qed.

Lemma exchange_features_needs_rows_witness :
  (* rank 1 of two workers holds no tensor *)
  ∃ e, exchange_features (A:=Z) (λ g, g `mod` 2) 2 2 0 0 STR_NODE_FEATURES
         ("paper"%string, "feat"%string)
         [FeatureInput (Some (Tensor [1; 2] [] F32)) 0 2 None;
          FeatureInput None 0 0 None] = Err e.
Proof.
  apply (exchange_features_needs_rows (λ g, g `mod` 2) 2 2 0 0
           STR_NODE_FEATURES ("paper"%string, "feat"%string)
           [FeatureInput (Some (Tensor [1; 2] [] F32)) 0 2 None;
            FeatureInput None 0 0 None]
           1 (FeatureInput None 0 0 None));
    [simpl; lia|lia|reflexivity|intros t Ht; discriminate Ht].
Defined.

(** * The exchange of one chunk *)

Section exchange_feature_facts.

Context {A : Type}.
Variable partition_of : Z → Z.

Lemma node_partids_Ok (args : list (feature_args A)) :
  sequence (feature_partids partition_of STR_NODE_FEATURES <$> args)
  = Ok ((λ a, get_partition_ids partition_of
                (arange (fa_gid_start a) (fa_gid_end a))) <$> args).
Proof. by apply sequence_fmap_all_Ok. Qed.

Lemma all_lens_lookup (args : list (feature_args A)) (r : nat) :
  allgather_sizes ((λ a, [feat_dim_len (fa_featdata_key a)]) <$> args) !! r
  = (λ a, feat_dim_len (fa_featdata_key a)) <$> args !! r.
Proof.
  unfold allgather_sizes.
  rewrite (join_singletons (λ a, feat_dim_len (fa_featdata_key a))).
  apply list_lookup_fmap.
Qed.

Lemma feat_dim_len_pos (t : tensor A) : 0 < feat_dim_len (Some t).
Proof. unfold feat_dim_len, shape. cbn [length]. lia. Qed.

(** X16.  [exchange_feature] decides from rank 0 alone whether there is
    anything to exchange: when rank 0 holds no tensor for a node feature,
    the call returns the dictionaries of every worker unchanged, whatever
    rows the other workers hold for it. *)
Theorem exchange_feature_rank0_decides (world_size : nat)
    (feat_key : string * string) (local_part_id : nat)
    (args : list (feature_args A)) (stores : list (feature_store A))
    (a0 : feature_args A) :
  args !! 0%nat = Some a0 → fa_featdata_key a0 = None →
  exchange_feature partition_of world_size STR_NODE_FEATURES feat_key
    local_part_id args stores = Ok stores.
Proof.
  intros Ha0 Hnone. unfold exchange_feature.
  rewrite node_partids_Ok, bind_Ok. cbv zeta.
  rewrite all_lens_lookup, Ha0. cbn [fmap option_fmap option_map from_option].
  rewrite bind_Ok, Hnone. cbn [feat_dim_len].
  by rewrite decide_True.
Qed.


End exchange_feature_facts.

Lemma exchange_feature_rank0_decides_witness :
  (* rank 0 holds nothing, rank 1 holds two rows: nothing is delivered *)
  exchange_feature (A:=Z) (λ g, g `mod` 2) 2 STR_NODE_FEATURES
    ("paper"%string, "feat"%string) 0
    [FeatureArgs None None 0 0 0 0;
     FeatureArgs None (Some (Tensor [7; 8] [] F32)) 0 2 0 2]
    [empty_store; empty_store]
  = Ok [empty_store; empty_store].
Proof.
  apply (exchange_feature_rank0_decides (λ g, g `mod` 2) 2
           ("paper"%string, "feat"%string) 0
           [FeatureArgs None None 0 0 0 0;
            FeatureArgs None (Some (Tensor [7; 8] [] F32)) 0 2 0 2]
           [empty_store; empty_store] (FeatureArgs None None 0 0 0 0));
    reflexivity.
Defined.


(** ** What a worker sends *)

Lemma gather_mask_seq {B} (m : list bool) (pre xs : list B) :
  in_range (pre ++ xs) (mask_select m (seq (length pre) (length xs)))
  ∧ gather (pre ++ xs) (mask_select m (seq (length pre) (length xs)))
    = mask_select m xs.
Proof.
  revert m pre. induction xs as [|x xs IH]; intros m pre.
  - destruct m; split; done || constructor.
  - destruct m as [|b m]; [split; done || constructor|].
    cbn [length seq mask_select].
    specialize (IH m (pre ++ [x])).
    rewrite <-app_assoc, length_app, Nat.add_1_r in IH. cbn [app length] in IH.
    destruct IH as [IH1 IH2]. destruct b; [|done].
    split.
    + constructor; [|done]. rewrite length_app. cbn [length]. lia.
    + unfold gather in *. csimpl. rewrite list_lookup_middle by done.
      cbn. by rewrite IH2.
Qed.

Lemma mask_select_map {B C} (f : B → C) (m : list bool) (xs : list B) :
  f <$> mask_select m xs = mask_select m (f <$> xs).
Proof.
  revert m. induction xs as [|x xs IH]; intros [|b m]; try done.
  csimpl. destruct b; csimpl; by rewrite IH.
Qed.

Lemma to_nat_arange (n : Z) : Z.to_nat <$> arange 0 n = seq 0 (Z.to_nat n).
Proof.
  unfold arange, seqZ. rewrite Z.sub_0_r, <-list_fmap_compose.
  rewrite <-(list_fmap_id (seq 0 (Z.to_nat n))) at 2.
  apply list_fmap_ext. intros i k _. cbn. lia.
Qed.

Lemma length_arange (a b : Z) : length (arange a b) = Z.to_nat (b - a).
Proof. unfold arange. apply length_seqZ. Qed.

Lemma fmap_join {B C} (f : B → C) (ls : list (list B)) :
  f <$> mjoin ls = mjoin (fmap f <$> ls).
Proof.
  induction ls as [|l ls IH]; [done|]. csimpl. by rewrite fmap_app, IH.
Qed.

Lemma REV_DATA_TYPE_ID_tag (dt : dtype) :
  REV_DATA_TYPE_ID (DATA_TYPE_ID dt) = Some dt.
Proof. by destruct dt. Qed.

Lemma length_join_const {B} (ls : list (list B)) (k : nat) :
  Forall (λ l, length l = k) ls → length (mjoin ls) = (length ls * k)%nat.
Proof.
  induction 1 as [|l ls Hl _ IH]; [done|].
  csimpl. rewrite length_app, Hl, IH. lia.
Qed.

Lemma zip_fmap_self {B C} (g : B → C) (l : list B) :
  zip l (g <$> l) = (λ x, (x, g x)) <$> l.
Proof. induction l as [|x l IH]; [done|]. csimpl. by rewrite IH. Qed.

Lemma filter_length_fmap {B C D} (P : C → Prop) (Q : D → Prop)
    `{∀ x, Decision (P x)} `{∀ x, Decision (Q x)}
    (f : B → C) (g : B → D) (l : list B) :
  (∀ x, P (f x) ↔ Q (g x)) →
  length (filter P (f <$> l)) = length (filter Q (g <$> l)).
Proof.
  intros HPQ. induction l as [|x l IH]; [done|].
  rewrite !fmap_cons, !filter_cons.
  destruct (decide (P (f x))) as [HP|HP], (decide (Q (g x))) as [HQ|HQ];
    cbn [length]; rewrite ?IH; try done; by apply HPQ in HP || apply HPQ in HQ.
Qed.

(** Every worker succeeds, and the results are related to the inputs. *)
Lemma sequence_imap_rel {B C} (f : nat → B → result C)
    (Q : nat → B → C → Prop) (l : list B) :
  (∀ i x, l !! i = Some x → ∃ y, f i x = Ok y ∧ Q i x y) →
  ∃ r, sequence (imap f l) = Ok r
    ∧ length r = length l
    ∧ ∀ i x y, l !! i = Some x → r !! i = Some y → Q i x y.
Proof.
  revert f Q. induction l as [|x l IH]; intros f Q Hl.
  - exists []. by split; [|split].
  - destruct (Hl 0%nat x eq_refl) as (y & Hy & HQ).
    destruct (IH (f ∘ S) (Q ∘ S)) as (r & Hr & Hlen & Hrel).
    { intros i x' Hx'. apply (Hl (S i) x' Hx'). }
    exists (y :: r). rewrite imap_cons, sequence_cons, Hy, bind_Ok.
    rewrite Hr, bind_Ok. split; [done|]. split; [by cbn; rewrite Hlen|].
    intros [|i] x' y' Hx' Hy'.
    + injection Hx' as <-. by injection Hy' as <-.
    + apply (Hrel i x' y' Hx' Hy').
Qed.

Section exchange_feature_delivery.

Context {A : Type}.
Variable partition_of : Z → Z.
Variable world_size : nat.
Variable local_part_id : nat.
Variable rs : list Z.
Variable dt : dtype.

(** What a worker sends to rank [idx]: the rows of its tensor that the
    rank owns, and their global ids. *)
Lemma feature_send_lists_node (a : feature_args A) (all_dims_dtype : list Z) :
  call_wf rs dt a →
  (rs = [] ∨ ∀ r, (r < world_size)%nat →
     owned_rows partition_of world_size local_part_id r a ≠ []) →
  (length all_dims_dtype mod world_size)%nat = 0%nat →
  (length all_dims_dtype / world_size)%nat = (length rs + 2)%nat →
  all_dims_dtype !! (length all_dims_dtype / world_size - 1)%nat
  = Some (DATA_TYPE_ID dt) →
  feature_send_lists world_size local_part_id a
    (get_partition_ids partition_of
       (arange (fa_gid_start a) (fa_gid_end a))) all_dims_dtype
  = Ok ((λ idx,
           (Tensor (owned_rows partition_of world_size local_part_id idx a).*1
              rs dt,
            Tensor (owned_rows partition_of world_size local_part_id idx a).*2
              [] I64))
          <$> seq 0 world_size).
Proof.
  intros (t & Ht & Hrs & Hdt & Hrows & Hgids) Hbuckets Hmod Hdim Htag.
  unfold feature_send_lists. cbv zeta.
  apply sequence_fmap_all_Ok. intros idx [_ Hidx]%elem_of_seq.
  unfold owned_rows, chunk_rows. rewrite Ht.
  set (gids := arange (fa_gid_start a) (fa_gid_end a)).
  set (tgt := Z.of_nat (idx + local_part_id * world_size)).
  set (ps := zip (tensor_rows t) gids).
  assert (length (tensor_rows t) = length gids) as Hlen.
  { subst gids. rewrite length_arange. lia. }
  assert (gids = ps.*2) as Hg2 by (subst ps; rewrite snd_zip; [done|lia]).
  assert (tensor_rows t = ps.*1) as Hg1
    by (subst ps; rewrite fst_zip; [done|lia]).
  assert ((λ p, bool_decide (p = tgt)) <$> get_partition_ids partition_of gids
          = (λ p : A * Z, bool_decide (partition_of p.2 = tgt)) <$> ps)
    as Hcond.
  { unfold get_partition_ids. rewrite Hg2, <-!list_fmap_compose. done. }
  rewrite Hcond.
  assert (mask_select
            ((λ p : A * Z, bool_decide (partition_of p.2 = tgt)) <$> ps) gids
          = (filter (λ p : A * Z, partition_of p.2 = tgt) ps).*2) as Hids.
  { rewrite Hg2 at 1.
    apply (mask_select_fmap (λ p : A * Z, partition_of p.2 = tgt) snd). }
  rewrite Hids.
  case_decide as Hempty.
  - unfold assert. rewrite decide_True by done. rewrite bind_Ok.
    rewrite Htag. cbn [from_option]. rewrite bind_Ok, REV_DATA_TYPE_ID_tag.
    cbn [from_option]. rewrite bind_Ok.
    rewrite length_fmap in Hempty. apply nil_length_inv in Hempty.
    rewrite Hempty. cbn [fmap list_fmap]. rewrite Hdim.
    destruct Hbuckets as [->|Hne].
    + by replace (0 + 2 - 2)%nat with 0%nat by lia.
    + exfalso. apply (Hne idx Hidx). unfold owned_rows, chunk_rows.
      rewrite Ht. exact Hempty.
  - cbn [from_option]. rewrite bind_Ok.
    rewrite mask_select_map, to_nat_arange.
    replace (Z.to_nat (fa_type_id_end a - fa_type_id_start a))
      with (length (tensor_rows t)) by lia.
    destruct (gather_mask_seq
                ((λ p : A * Z, bool_decide (partition_of p.2 = tgt)) <$> ps)
                [] (tensor_rows t)) as [Hin Hga].
    cbn [app length] in Hin, Hga.
    rewrite fancy_index_Ok by done. rewrite bind_Ok, Hga, Hrs, Hdt.
    do 3 f_equal. rewrite Hg1 at 1.
    apply (mask_select_fmap (λ p : A * Z, partition_of p.2 = tgt) fst).
Qed.

Lemma all_dims_dtype_tag (args : list (feature_args A))
    (rank0_shape_len : Z) :
  world_size ≠ 0%nat → length args = world_size →
  Forall (call_wf rs dt) args →
  let v := allgather_sizes
             ((λ a, feat_dims_dtype rank0_shape_len (fa_featdata_key a))
                <$> args) in
  (length v mod world_size)%nat = 0%nat
  ∧ (length v / world_size)%nat = (length rs + 2)%nat
  ∧ v !! (length v / world_size - 1)%nat = Some (DATA_TYPE_ID dt).
Proof.
  intros HW Hlen Hwf v.
  assert (length v = (world_size * (length rs + 2))%nat) as Hv.
  { subst v. unfold allgather_sizes.
    rewrite (length_join_const _ (length rs + 2)%nat).
    - by rewrite length_fmap, Hlen.
    - apply Forall_fmap. eapply Forall_impl; [exact Hwf|].
      intros a (t & Ht & Hd & _). cbn. rewrite Ht.
      unfold feat_dims_dtype, shape.
      rewrite length_app. cbn [length]. rewrite Hd. lia. }
  rewrite Hv. split; [by rewrite Nat.mul_comm, Nat.Div0.mod_mul|].
  rewrite Nat.mul_comm, Nat.div_mul by done. split; [done|].
  destruct args as [|a0 args]; [by subst world_size|].
  apply Forall_cons in Hwf as [(t0 & Ht0 & Hd0 & Hdt0 & _) _].
  subst v. unfold allgather_sizes.
  rewrite fmap_cons. csimpl. rewrite Ht0. unfold feat_dims_dtype.
  rewrite lookup_app_l.
  - replace (length rs + 2 - 1)%nat with (length (shape t0) + 0)%nat
      by (unfold shape; cbn [length]; rewrite Hd0; lia).
    rewrite lookup_app_r, Nat.add_sub' by lia. by rewrite Hdt0.
  - rewrite length_app. unfold shape. cbn [length]. rewrite Hd0. lia.
Qed.

Variable feat_key : string * string.

(** The stitching on rank [r], given what the transport returns there. *)
Lemma stitch_delivered (args : list (feature_args A)) (r : nat)
    (st : feature_store A) :
  store_wf rs (feat_key.1, feat_key.2, local_part_id) st →
  let feats :=
    (λ a, Tensor (owned_rows partition_of world_size local_part_id r a).*1
            rs dt) <$> args in
  let ids :=
    (λ a, Tensor (owned_rows partition_of world_size local_part_id r a).*2
            [] I64) <$> args in
  ∃ st',
    stitch (feat_key.1, feat_key.2, local_part_id) st
      (filter (λ b, length (tensor_rows b) ≠ 0%nat) feats)
      (filter (λ b, length (tensor_rows b) ≠ 0%nat) ids) = Ok st'
    ∧ delivered partition_of world_size local_part_id feat_key rs args r
        st st'.
Proof.
  intros Hwf feats ids.
  set (k := (feat_key.1, feat_key.2, local_part_id)) in *.
  set (got := mjoin (owned_rows partition_of world_size local_part_id r
                       <$> args)).
  set (rf := filter _ feats). set (ri := filter _ ids).
  assert (mjoin (tensor_rows <$> rf) = got.*1) as Hrf.
  { subst rf feats got. rewrite nonempty_rows_join, fmap_join.
    by rewrite <-!list_fmap_compose. }
  assert (mjoin (tensor_rows <$> ri) = got.*2) as Hri.
  { subst ri ids got. rewrite nonempty_rows_join, fmap_join.
    by rewrite <-!list_fmap_compose. }
  assert (length rf = length ri) as Hlen.
  { subst rf ri feats ids. apply filter_length_fmap.
    intros a. cbn. by rewrite !length_fmap. }
  assert (Forall (λ b : tensor A, tensor_row_shape b = rs) rf) as Hshape_f.
  { subst rf feats. apply Forall_forall.
    intros b [_ (a & -> & _)%list_elem_of_fmap]%list_elem_of_filter. done. }
  assert (Forall (λ b : tensor Z, tensor_row_shape b = []) ri) as Hshape_i.
  { subst ri ids. apply Forall_forall.
    intros b [_ (a & -> & _)%list_elem_of_fmap]%list_elem_of_filter. done. }
  unfold stitch, assert.
  destruct (decide (length rf = length ri)) as [_|]; [|done].
  rewrite bind_Ok.
  destruct (decide (0 < length rf)%nat) as [Hpos|Hzero].
  - destruct (torch_cat_uniform rf rs) as [dtf Hcf]; [|done|].
    { intros Hnil. rewrite Hnil in Hpos. cbn in Hpos. lia. }
    destruct (torch_cat_uniform ri []) as [dti Hci]; [|done|].
    { intros Hnil. rewrite Hnil in Hlen. rewrite Hlen in Hpos.
      cbn in Hpos. lia. }
    rewrite Hcf, bind_Ok, Hci, bind_Ok, Hrf, Hri.
    destruct Hwf as (Hboth & Hsf & Hsi). fold k.
    destruct (cur_features st !! k) as [temp|] eqn:Hcur.
    + destruct (cur_global_ids st !! k) as [temp_ids|] eqn:Hcid.
      2:{ pose proof (proj2 Hboth eq_refl) as Hbad. discriminate Hbad. }
      destruct (torch_cat_uniform [temp; Tensor got.*1 rs dtf] rs)
        as [dtf' Hcf']; [done| |].
      { repeat constructor. by apply Hsf. }
      destruct (torch_cat_uniform [temp_ids; Tensor got.*2 [] dti] [])
        as [dti' Hci']; [done| |].
      { repeat constructor. by apply Hsi. }
      rewrite Hcf', bind_Ok. cbn [from_option]. rewrite bind_Ok, Hci', bind_Ok.
      eexists. split; [reflexivity|].
      unfold delivered. cbv zeta. fold k. cbn [cur_features cur_global_ids].
      rewrite !lookup_insert_eq, Hcur, Hcid.
      cbn [fmap option_fmap option_map default tensor_rows mjoin list_join
           list_fmap].
      rewrite !app_nil_r. split; [reflexivity|]. split; [reflexivity|].
      split.
      * unfold store_wf. cbn [cur_features cur_global_ids].
        rewrite !lookup_insert_eq. split; [done|].
        split; by intros t' [= <-].
      * intros k' Hk'. cbn [cur_features cur_global_ids].
        by rewrite !lookup_insert_ne.
    + pose proof (proj1 Hboth eq_refl) as Hcid.
      eexists. split; [reflexivity|].
      unfold delivered. cbv zeta. fold k. cbn [cur_features cur_global_ids].
      rewrite !lookup_insert_eq, Hcur, Hcid.
      cbn [fmap option_fmap option_map default tensor_rows app].
      split; [reflexivity|]. split; [reflexivity|]. split.
      * unfold store_wf. cbn [cur_features cur_global_ids].
        rewrite !lookup_insert_eq. split; [done|].
        split; by intros t' [= <-].
      * intros k' Hk'. cbn [cur_features cur_global_ids].
        by rewrite !lookup_insert_ne.
  - assert (rf = []) as Hrf0 by (destruct rf; [done|cbn in Hzero; lia]).
    assert (ri = []) as Hri0.
    { rewrite Hrf0 in Hlen. destruct ri; [done|cbn in Hlen; lia]. }
    rewrite Hrf0 in Hrf. rewrite Hri0 in Hri. cbn in Hrf, Hri.
    exists st. split; [done|].
    unfold delivered. cbv zeta. fold k. fold got.
    rewrite <-Hrf, <-Hri, !app_nil_r.
    split; [reflexivity|]. split; [reflexivity|]. split; [exact Hwf|].
    intros k' _. split; reflexivity.
Qed.

Lemma exchange_feature_node_Ok (args : list (feature_args A))
    (stores : list (feature_store A)) :
  world_size ≠ 0%nat → length args = world_size →
  length stores = world_size →
  Forall (call_wf rs dt) args →
  (rs = [] ∨ ∀ a r, a ∈ args → (r < world_size)%nat →
     owned_rows partition_of world_size local_part_id r a ≠ []) →
  Forall (store_wf rs (feat_key.1, feat_key.2, local_part_id)) stores →
  ∃ stores',
    exchange_feature partition_of world_size STR_NODE_FEATURES feat_key
      local_part_id args stores = Ok stores'
    ∧ length stores' = world_size
    ∧ ∀ r st st', stores !! r = Some st → stores' !! r = Some st' →
        delivered partition_of world_size local_part_id feat_key rs args r
          st st'.
Proof.
  intros HW Hlen Hslen Hwf Hbuckets Hst. unfold exchange_feature.
  rewrite node_partids_Ok, bind_Ok. cbv zeta.
  destruct args as [|a0 args0] eqn:Hargs; [by subst world_size|].
  rewrite <-Hargs in *.
  assert (args !! 0%nat = Some a0) as Ha0 by (by rewrite Hargs).
  pose proof Hwf as Hwf0. rewrite Hargs in Hwf0.
  apply Forall_cons in Hwf0 as [(t0 & Ht0 & Hd0 & _) _].
  rewrite all_lens_lookup, Ha0. cbn [fmap option_fmap option_map from_option].
  rewrite bind_Ok, Ht0.
  rewrite decide_False by (pose proof (feat_dim_len_pos t0); lia).
  (* the check of the numbers of dimensions *)
  assert (is_Ok (check_shape_lens world_size
            (allgather_sizes
               ((λ a, [feat_dim_len (fa_featdata_key a)]) <$> args))
            (feat_dim_len (Some t0)))) as [u ->].
  { unfold check_shape_lens. apply sequence_fmap_total.
    intros idx [Hidx1 Hidx2]%elem_of_seq. rewrite all_lens_lookup.
    destruct (lookup_lt_is_Some_2 args idx) as [a' Ha']; [lia|].
    rewrite Ha'. cbn [fmap option_fmap option_map from_option].
    rewrite bind_Ok. unfold assert. rewrite decide_True; [by eexists|].
    right.
    destruct (proj1 (Forall_forall _ _) Hwf a') as (t' & Ht' & Hd' & _);
      [by eapply list_elem_of_lookup_2|].
    rewrite Ht'. unfold feat_dim_len, shape. cbn [length].
    by rewrite Hd', Hd0. }
  rewrite bind_Ok.
  (* what every worker sends *)
  set (v := allgather_sizes _).
  destruct (all_dims_dtype_tag args (feat_dim_len (Some t0)) HW Hlen Hwf)
    as (Hmod & Hdim & Htag). fold v in Hmod, Hdim, Htag.
  rewrite zip_fmap_self, <-list_fmap_compose.
  set (send_of := λ a : feature_args A,
         (λ idx,
            (Tensor (owned_rows partition_of world_size local_part_id idx a).*1
               rs dt,
             Tensor (owned_rows partition_of world_size local_part_id idx a).*2
               [] I64)) <$> seq 0 world_size).
  rewrite (sequence_fmap_all_Ok _ send_of).
  2:{ intros a Ha. cbn.
      apply feature_send_lists_node; try done.
      - by apply (proj1 (Forall_forall _ _) Hwf a Ha).
      - destruct Hbuckets as [->|Hne]; [by left|right].
        intros r Hr. by apply Hne. }
  rewrite bind_Ok. rewrite <-!list_fmap_compose.
  (* the transport serves both calls *)
  assert (frames_agree
            (((λ s : list (tensor A * tensor Z), s.*1) ∘ send_of) <$> args))
    as Hframes_f.
  { apply (frames_agree_intro _ (rs, dt)).
    intros inp b (a & -> & _)%list_elem_of_fmap Hb. cbn in Hb.
    apply list_elem_of_fmap in Hb as (p & -> & Hp).
    by apply list_elem_of_fmap in Hp as (idx & -> & _). }
  assert (frames_agree
            (((λ s : list (tensor A * tensor Z), s.*2) ∘ send_of) <$> args))
    as Hframes_i.
  { apply (frames_agree_intro _ ([], I64)).
    intros inp b (a & -> & _)%list_elem_of_fmap Hb. cbn in Hb.
    apply list_elem_of_fmap in Hb as (p & -> & Hp).
    by apply list_elem_of_fmap in Hp as (idx & -> & _). }
  destruct (sequence_imap_rel
              (λ rank store,
                 output_feat_list ← alltoallv_cpu
                   (((λ s : list (tensor A * tensor Z), s.*1) ∘ send_of)
                      <$> args) rank;
                 output_id_list ← alltoallv_cpu
                   (((λ s : list (tensor A * tensor Z), s.*2) ∘ send_of)
                      <$> args) rank;
                 stitch (feat_key.1, feat_key.2, local_part_id) store
                   output_feat_list output_id_list)
              (λ r st st',
                 delivered partition_of world_size local_part_id feat_key rs
                   args r st st') stores) as (stores' & Hrun & Hlen' & Hrel).
  { intros r st Hr.
    assert (r < world_size)%nat as Hrlt
      by (rewrite <-Hslen; by eapply lookup_lt_Some).
    rewrite !alltoallv_cpu_Ok by done. rewrite !bind_Ok.
    assert (omap (λ inp : list (tensor A), inp !! r)
              (((λ s : list (tensor A * tensor Z), s.*1) ∘ send_of) <$> args)
            = (λ a, Tensor
                      (owned_rows partition_of world_size local_part_id r a).*1
                      rs dt) <$> args) as ->.
    { rewrite <-(list_fmap_id (omap _ _)). apply omap_lookup_fmap.
      intros a _. cbn. subst send_of. cbn.
      by rewrite !list_lookup_fmap, lookup_seq_lt. }
    assert (omap (λ inp : list (tensor Z), inp !! r)
              (((λ s : list (tensor A * tensor Z), s.*2) ∘ send_of) <$> args)
            = (λ a, Tensor
                      (owned_rows partition_of world_size local_part_id r a).*2
                      [] I64) <$> args) as ->.
    { rewrite <-(list_fmap_id (omap _ _)). apply omap_lookup_fmap.
      intros a _. cbn. subst send_of. cbn.
      by rewrite !list_lookup_fmap, lookup_seq_lt. }
    apply stitch_delivered.
    by apply (proj1 (Forall_forall _ _) Hst st), list_elem_of_lookup_2 with r. }
  exists stores'. split; [exact Hrun|]. split; [by rewrite Hlen'|done].
Qed.

End exchange_feature_delivery.

(** X19.  Delivery of one chunk of a node feature.  Let every worker call
    [exchange_feature] with a tensor of the same trailing dimensions and
    the same element type, with ranges that have as many ids as the tensor
    has rows, and let the tensors be one-dimensional or every worker hold
    at least one row for every rank (so that no worker has to send the
    placeholder of shape [(0, ..., 0)], whose trailing dimensions differ
    from those of the tensors).  Then the call returns on every worker,
    and rank [r] has appended, under the key of the local partition,
    exactly the rows whose global id is owned by the global partition
    [r + local_part_id * world_size]: sender after sender in rank order,
    each sender's rows in their order, every row together with the global
    id at its offset of the sender's range.  The other keys are
    untouched. *)
Theorem exchange_feature_delivers {A} (partition_of : Z → Z)
    (world_size local_part_id : nat) (feat_key : string * string)
    (args : list (feature_args A)) (stores : list (feature_store A))
    (rs : list Z) (dt : dtype) :
  let k := (feat_key.1, feat_key.2, local_part_id) in
  let owned r a :=
    filter (λ p, partition_of p.2 = Z.of_nat (r + local_part_id * world_size))
      (chunk_rows a) in
  world_size ≠ 0%nat → length args = world_size →
  length stores = world_size →
  Forall (λ a, ∃ t, fa_featdata_key a = Some t
                 ∧ tensor_row_shape t = rs
                 ∧ tensor_dtype t = dt
                 ∧ Z.of_nat (length (tensor_rows t))
                   = fa_type_id_end a - fa_type_id_start a
                 ∧ fa_gid_end a - fa_gid_start a
                   = fa_type_id_end a - fa_type_id_start a) args →
  (rs = [] ∨ ∀ a r, a ∈ args → (r < world_size)%nat → owned r a ≠ []) →
  Forall (λ st,
            (cur_features st !! k = None ↔ cur_global_ids st !! k = None)
            ∧ (∀ t, cur_features st !! k = Some t → tensor_row_shape t = rs)
            ∧ (∀ t, cur_global_ids st !! k = Some t
                    → tensor_row_shape t = [])) stores →
  ∃ stores',
    exchange_feature partition_of world_size STR_NODE_FEATURES feat_key
      local_part_id args stores = Ok stores'
    ∧ length stores' = world_size
    ∧ ∀ r st, stores !! r = Some st →
        ∃ st', stores' !! r = Some st'
          ∧ let got := mjoin (owned r <$> args) in
            default [] (tensor_rows <$> cur_features st' !! k)
            = default [] (tensor_rows <$> cur_features st !! k) ++ got.*1
            ∧ default [] (tensor_rows <$> cur_global_ids st' !! k)
              = default [] (tensor_rows <$> cur_global_ids st !! k) ++ got.*2
            ∧ ∀ k', k' ≠ k →
                cur_features st' !! k' = cur_features st !! k'
                ∧ cur_global_ids st' !! k' = cur_global_ids st !! k'.
Proof.
  intros k owned HW Hlen Hslen Hwf Hbuckets Hst.
  destruct (exchange_feature_node_Ok partition_of world_size local_part_id
              rs dt feat_key args stores HW Hlen Hslen Hwf Hbuckets Hst)
    as (stores' & Hrun & Hlen' & Hrel).
  exists stores'. split; [exact Hrun|]. split; [exact Hlen'|].
  intros r st Hr.
  destruct (lookup_lt_is_Some_2 stores' r) as [st' Hr'].
  { rewrite Hlen', <-Hslen. by eapply lookup_lt_Some. }
  exists st'. split; [exact Hr'|].
  destruct (Hrel r st st' Hr Hr') as (Hf & Hi & _ & Hother).
  split; [exact Hf|]. split; [exact Hi|exact Hother].
Qed.

Lemma exchange_feature_delivers_witness :
  (* two workers, two rows each; nodes 0 and 2 belong to partition 0 *)
  ∃ stores',
    exchange_feature (A:=Z) (λ g, g `mod` 2) 2 STR_NODE_FEATURES
      ("paper"%string, "feat"%string) 0
      [FeatureArgs None (Some (Tensor [10; 11] [] F32)) 0 2 0 2;
       FeatureArgs None (Some (Tensor [12; 13] [] F32)) 2 4 2 4]
      [empty_store; empty_store] = Ok stores'
    ∧ length stores' = 2%nat.
Proof.
  destruct (exchange_feature_delivers (A:=Z) (λ g, g `mod` 2) 2 0
              ("paper"%string, "feat"%string)
              [FeatureArgs None (Some (Tensor [10; 11] [] F32)) 0 2 0 2;
               FeatureArgs None (Some (Tensor [12; 13] [] F32)) 2 4 2 4]
              [empty_store; empty_store] [] F32)
    as (stores' & Hrun & Hlen & _).
  - lia.
  - reflexivity.
  - reflexivity.
  - repeat constructor.
    + exists (Tensor [10; 11] [] F32). repeat split; reflexivity.
    + exists (Tensor [12; 13] [] F32). repeat split; reflexivity.
  - left. reflexivity.
  - assert (∀ k, (cur_features (A:=Z) empty_store !! k = None
                  ↔ cur_global_ids (A:=Z) empty_store !! k = None)
                 ∧ (∀ t, cur_features (A:=Z) empty_store !! k = Some t
                         → tensor_row_shape t = [])
                 ∧ (∀ t, cur_global_ids (A:=Z) empty_store !! k = Some t
                         → tensor_row_shape t = [])) as Hempty.
    { intros k. unfold empty_store. cbn [cur_features cur_global_ids].
      rewrite !lookup_empty. split; [done|]. split; intros t Ht; discriminate Ht. }
    constructor; [apply Hempty|]. constructor; [apply Hempty|]. constructor.
  - exists stores'. split; [exact Hrun|exact Hlen].
Defined.

(** Calls that the exchange does not serve: tensors whose trailing
    dimensions differ, tensors of different element types, and
    two-dimensional tensors when a rank is to receive nothing (the
    placeholder has the shape [(0, 0)]). *)
Example exchange_feature_trailing_dims_differ :
  ∃ e, exchange_feature (A:=Z) (λ g, g `mod` 2) 2 STR_NODE_FEATURES
         ("paper"%string, "feat"%string) 0
         [FeatureArgs None (Some (Tensor [10; 11] [3] F32)) 0 2 0 2;
          FeatureArgs None (Some (Tensor [12; 13] [4] F32)) 2 4 2 4]
         [empty_store; empty_store] = Err e.
Proof. eexists. vm_compute. reflexivity. Qed.

Example exchange_feature_dtypes_differ :
  ∃ e, exchange_feature (A:=Z) (λ g, g `mod` 2) 2 STR_NODE_FEATURES
         ("paper"%string, "feat"%string) 0
         [FeatureArgs None (Some (Tensor [10; 11] [] F32)) 0 2 0 2;
          FeatureArgs None (Some (Tensor [12; 13] [] F64)) 2 4 2 4]
         [empty_store; empty_store] = Err e.
Proof. eexists. vm_compute. reflexivity. Qed.

Example exchange_feature_placeholder :
  ∃ e, exchange_feature (A:=Z) (λ g, 0) 2 STR_NODE_FEATURES
         ("paper"%string, "feat"%string) 0
         [FeatureArgs None (Some (Tensor [10; 11] [3] F32)) 0 2 0 2;
          FeatureArgs None (Some (Tensor [12; 13] [3] F32)) 2 4 2 4]
         [empty_store; empty_store] = Err e.
Proof. eexists. vm_compute. reflexivity. Qed.

(** * The feature shuffle without a message cap *)

Lemma sequence_imap_all_Ok {B C} (f : nat → B → result C) (g : B → C)
    (l : list B) :
  (∀ i x, l !! i = Some x → f i x = Ok (g x)) →
  sequence (imap f l) = Ok (g <$> l).
Proof.
  revert f. induction l as [|x l IH]; intros f Hf; [done|].
  rewrite imap_cons, sequence_cons, (Hf 0%nat x eq_refl), bind_Ok.
  rewrite (IH (f ∘ S)) by (intros i y Hy; apply (Hf (S i) y Hy)).
  done.
Qed.

Lemma omap_head_singletons {B C} (g : B → C) (l : list B) :
  omap (λ q : list C, q !! 0%nat) ((λ x, [g x]) <$> l) = g <$> l.
Proof. induction l as [|x l IH]; [done|]. csimpl. by rewrite IH. Qed.

Lemma lockstep_singletons {B C} (g : B → C) (l : list B) :
  l ≠ [] → lockstep ((λ x, [g x]) <$> l) = Ok [g <$> l].
Proof.
  intros Hl. destruct l as [|x l]; [done|].
  unfold lockstep. rewrite fmap_cons.
  case_decide as Hall.
  - cbn [length seq]. rewrite fmap_cons, fmap_nil. do 2 f_equal.
    apply (omap_head_singletons g (x :: l)).
  - exfalso. apply Hall. constructor; [done|].
    apply Forall_fmap, Forall_true. done.
Qed.

Section exchange_features_unbounded.

Context {A : Type}.
Variable partition_of : Z → Z.
Variable world_size num_parts : nat.
Variable begin_global_id : Z.
Variable feat_key : string * string.
Variable inputs : list (feature_input (A:=A)).
Variable rs : list Z.
Variable dt : dtype.

Hypothesis world_size_pos : world_size ≠ 0%nat.
Hypothesis inputs_length : length inputs = world_size.
Hypothesis inputs_rows :
  Forall (λ inp, ∃ t, fi_feature_data inp = Some t
                   ∧ 1 ≤ Z.of_nat (length (tensor_rows t)) < 2 ^ 31
                   ∧ tensor_row_shape t = rs
                   ∧ tensor_dtype t = dt) inputs.
Hypothesis inputs_buckets :
  rs = [] ∨ ∀ inp r l, inp ∈ inputs → (r < world_size)%nat →
              (l < num_parts / world_size)%nat →
              filter (λ p, partition_of p.2 = Z.of_nat (r + l * world_size))
                (input_rows begin_global_id inp) ≠ [].

Lemma whole_call_rows (inp : feature_input (A:=A)) :
  chunk_rows (whole_call begin_global_id inp) = input_rows begin_global_id inp.
Proof.
  unfold chunk_rows, input_rows, whole_call, arange.
  cbn [fa_featdata_key fa_gid_start fa_gid_end].
  destruct (fi_feature_data inp) as [t|]; [|done].
  cbn [default]. unfold id. f_equal. f_equal. lia.
Qed.

Lemma all_dims_checks :
  let all_dims :=
    allgather_sizes ((λ inp, feat_dims (fi_feature_data inp)) <$> inputs) in
  (∃ s0, all_dims !! 0%nat = Some s0 ∧ 0 < s0)
  ∧ (length all_dims mod world_size)%nat = 0%nat.
Proof.
  intros all_dims. split.
  - destruct inputs as [|inp0 inputs0] eqn:Hin; [by subst world_size|].
    pose proof inputs_rows as Hrows.
    apply Forall_cons in Hrows as [(t0 & Ht0 & Hr0 & _) _].
    exists (Z.of_nat (length (tensor_rows t0))). split; [|lia].
    subst all_dims. unfold allgather_sizes. rewrite fmap_cons. csimpl.
    rewrite Ht0. done.
  - subst all_dims. unfold allgather_sizes.
    rewrite (length_join_const _ (length rs + 1)%nat).
    + rewrite length_fmap, inputs_length, Nat.mul_comm.
      apply Nat.Div0.mod_mul.
    + apply Forall_fmap. eapply Forall_impl; [exact inputs_rows|].
      intros inp (t & Ht & _ & Hd & _). cbn. rewrite Ht.
      unfold feat_dims, shape. cbn [length]. rewrite Hd. lia.
Qed.

Lemma exchange_features_part_unbounded (local_part_id : nat)
    (stores : list (feature_store A)) :
  exchange_features_part partition_of world_size 0 begin_global_id
    STR_NODE_FEATURES feat_key inputs local_part_id stores
  = exchange_feature partition_of world_size STR_NODE_FEATURES feat_key
      local_part_id (whole_call begin_global_id <$> inputs) stores.
Proof.
  unfold exchange_features_part. cbv zeta.
  destruct all_dims_checks as [(s0 & Hs0 & Hpos) Hmod].
  rewrite Hs0. cbn [from_option]. rewrite bind_Ok.
  rewrite decide_False by lia.
  rewrite (sequence_imap_all_Ok _ (λ inp, [whole_call begin_global_id inp])).
  2:{ intros rank inp Hinp.
      destruct (proj1 (Forall_forall _ _) inputs_rows inp
                  (list_elem_of_lookup_2 _ _ _ Hinp)) as (t & Ht & Hr & _).
      rewrite (feature_chunks_single _ _ _ _ _ t Ht) ; [| lia |].
      - unfold whole_call. rewrite Ht. done.
      - rewrite (get_num_chunks_checks _ _ _ _ _ s0); [done|done|lia|done|done]. }
  rewrite bind_Ok.
  rewrite lockstep_singletons by (intros Hnil; rewrite Hnil in inputs_length;
                                   by subst world_size).
  rewrite bind_Ok. cbn [foldl]. by rewrite bind_Ok.
Qed.

Lemma whole_calls_wf :
  Forall (call_wf rs dt) (whole_call begin_global_id <$> inputs).
Proof.
  apply Forall_fmap. eapply Forall_impl; [exact inputs_rows|].
  intros inp (t & Ht & _ & Hrs & Hdt). exists t. unfold whole_call.
  cbn [fa_featdata_key fa_gid_start fa_gid_end fa_type_id_start
       fa_type_id_end]. rewrite Ht. cbn [default]. unfold id.
  split; [done|]. split; [done|]. split; [done|]. lia.
Qed.

Lemma whole_call_owned (n r : nat) (inp : feature_input (A:=A)) :
  owned_rows partition_of world_size n r (whole_call begin_global_id inp)
  = filter (λ p, partition_of p.2 = Z.of_nat (r + n * world_size))
      (input_rows begin_global_id inp).
Proof. unfold owned_rows. by rewrite whole_call_rows. Qed.

Lemma exchange_features_part_step (n : nat)
    (stores : list (feature_store A)) :
  (n < num_parts / world_size)%nat →
  shuffled_upto partition_of world_size begin_global_id feat_key inputs n
    stores →
  ∃ stores',
    exchange_features_part partition_of world_size 0 begin_global_id
      STR_NODE_FEATURES feat_key inputs n stores = Ok stores'
    ∧ shuffled_upto partition_of world_size begin_global_id feat_key inputs
        (S n) stores'.
Proof.
  intros Hn [Hlen Hst]. rewrite exchange_features_part_unbounded.
  destruct (exchange_feature_node_Ok partition_of world_size n rs dt feat_key
              (whole_call begin_global_id <$> inputs) stores world_size_pos)
    as (stores' & Hrun & Hlen' & Hrel).
  - by rewrite length_fmap.
  - done.
  - exact whole_calls_wf.
  - destruct inputs_buckets as [->|Hne]; [by left|right].
    intros a r (inp & -> & Hinp)%list_elem_of_fmap Hr.
    rewrite whole_call_owned. by apply Hne.
  - apply Forall_forall. intros st [r Hr]%list_elem_of_lookup_1.
    destruct (Hst r st Hr) as [_ Hfresh].
    destruct (Hfresh n (le_n n)) as [Hf Hi].
    unfold store_wf. rewrite Hf, Hi. split; [done|].
    split; intros t Ht; discriminate Ht.
  - exists stores'. split; [exact Hrun|]. split; [exact Hlen'|].
    intros r st' Hr'.
    destruct (lookup_lt_is_Some_2 stores r) as [st Hr].
    { rewrite Hlen, <-Hlen'. by eapply lookup_lt_Some. }
    destruct (Hst r st Hr) as [Hold Hfresh].
    destruct (Hrel r st st' Hr Hr') as (Hf & Hi & _ & Hother).
    cbv zeta in Hf, Hi. split.
    + intros l Hl. destruct (decide (l = n)) as [->|Hne].
      * destruct (Hfresh n (le_n n)) as [Hfn Hin].
        rewrite Hfn in Hf. rewrite Hin in Hi.
        cbn [fmap option_fmap option_map default app] in Hf, Hi.
        assert (owned_rows partition_of world_size n r
                  <$> (whole_call begin_global_id <$> inputs)
                = (λ inp, filter
                     (λ p : A * Z,
                        partition_of p.2 = Z.of_nat (r + n * world_size))
                     (input_rows begin_global_id inp)) <$> inputs) as Hmap.
        { rewrite <-list_fmap_compose. apply list_fmap_ext.
          intros i inp _. apply whole_call_owned. }
        rewrite Hmap in Hf, Hi. unfold expected_rows. by rewrite Hf, Hi.
      * destruct (Hother (feat_key.1, feat_key.2, l)) as [-> ->];
          [intros Heq; injection Heq; lia|].
        apply Hold. lia.
    + intros l Hl.
      destruct (Hother (feat_key.1, feat_key.2, l)) as [-> ->];
        [intros Heq; injection Heq; lia|].
      apply Hfresh. lia.
Qed.

Lemma exchange_features_loop (m n : nat) (stores : list (feature_store A)) :
  (n + m ≤ num_parts / world_size)%nat →
  shuffled_upto partition_of world_size begin_global_id feat_key inputs n
    stores →
  ∃ stores',
    foldl (λ acc local_part_id,
             stores ← acc;
             exchange_features_part partition_of world_size 0 begin_global_id
               STR_NODE_FEATURES feat_key inputs local_part_id stores)
          (Ok stores) (seq n m) = Ok stores'
    ∧ shuffled_upto partition_of world_size begin_global_id feat_key inputs
        (n + m) stores'.
Proof.
  revert n stores. induction m as [|m IH]; intros n stores Hle Hh.
  - exists stores. by rewrite Nat.add_0_r.
  - cbn [seq foldl]. rewrite bind_Ok.
    destruct (exchange_features_part_step n stores ltac:(lia) Hh)
      as (s1 & -> & Hh1).
    destruct (IH (S n) s1 ltac:(lia) Hh1) as (s2 & Hs2 & Hh2).
    exists s2. split; [done|]. by rewrite Nat.add_succ_r.
Qed.

Lemma exchange_features_unbounded_Ok :
  ∃ stores,
    exchange_features partition_of world_size num_parts 0 begin_global_id
      STR_NODE_FEATURES feat_key inputs = Ok stores
    ∧ shuffled_upto partition_of world_size begin_global_id feat_key inputs
        (num_parts / world_size) stores.
Proof.
  unfold exchange_features.
  apply (exchange_features_loop (num_parts / world_size) 0); [lia|].
  split; [by rewrite length_replicate|].
  intros r st [-> _]%lookup_replicate. split; [lia|].
  intros l _. unfold empty_store. cbn [cur_features cur_global_ids].
  split; apply lookup_empty.
Qed.

End exchange_features_unbounded.

(** X20.  The feature shuffle without a message cap.  Let every worker
    hold, for a node feature, a tensor with at least one row, all of the
    same trailing dimensions and element type, and let the tensors be
    one-dimensional or every worker hold at least one row for every
    partition (so that no placeholder of shape [(0, ..., 0)] is sent).
    Then [exchange_features] with a maximum message size of 0 returns on
    every worker, and rank [r] holds under the key of each of its local
    partitions [l] exactly the rows whose global id is owned by the global
    partition [r + l * world_size]: the rows of rank 0 first, then those of
    rank 1 and so on, each worker's rows in the order in which it read
    them, every row together with its global id
    [begin_global_id + type_id_start + i]. *)
Theorem exchange_features_unbounded_delivers {A} (partition_of : Z → Z)
    (world_size num_parts : nat) (begin_global_id : Z)
    (feat_key : string * string) (inputs : list (feature_input (A:=A)))
    (rs : list Z) (dt : dtype) :
  let owned r l inp :=
    filter (λ p, partition_of p.2 = Z.of_nat (r + l * world_size))
      (input_rows begin_global_id inp) in
  world_size ≠ 0%nat → length inputs = world_size →
  Forall (λ inp, ∃ t, fi_feature_data inp = Some t
                   ∧ 1 ≤ Z.of_nat (length (tensor_rows t)) < 2 ^ 31
                   ∧ tensor_row_shape t = rs
                   ∧ tensor_dtype t = dt) inputs →
  (rs = [] ∨ ∀ inp r l, inp ∈ inputs → (r < world_size)%nat →
               (l < num_parts / world_size)%nat → owned r l inp ≠ []) →
  ∃ stores,
    exchange_features partition_of world_size num_parts 0 begin_global_id
      STR_NODE_FEATURES feat_key inputs = Ok stores
    ∧ length stores = world_size
    ∧ ∀ r l, (r < world_size)%nat → (l < num_parts / world_size)%nat →
        ∃ st, stores !! r = Some st
          ∧ let got := mjoin (owned r l <$> inputs) in
            default [] (tensor_rows
                          <$> cur_features st !! (feat_key.1, feat_key.2, l))
            = got.*1
            ∧ default [] (tensor_rows
                            <$> cur_global_ids st
                                  !! (feat_key.1, feat_key.2, l))
              = got.*2.
Proof.
  intros owned HW Hlen Hrows Hbuckets.
  destruct (exchange_features_unbounded_Ok partition_of world_size num_parts
              begin_global_id feat_key inputs rs dt HW Hlen Hrows Hbuckets)
    as (stores & Hrun & Hslen & Hst).
  exists stores. split; [done|]. split; [done|].
  intros r l Hr Hl.
  destruct (lookup_lt_is_Some_2 stores r) as [st Hstr]; [lia|].
  exists st. split; [done|].
  destruct (Hst r st Hstr) as [Hold _]. destruct (Hold l Hl) as [Hf Hi].
  split; [exact Hf|exact Hi].
Qed.

Lemma exchange_features_unbounded_delivers_witness :
  (* two workers and two partitions; the five nodes of a type that starts
     at global id 100, three read by rank 0 and two by rank 1 *)
  ∃ stores,
    exchange_features (A:=Z) (λ g, g `mod` 2) 2 2 0 100 STR_NODE_FEATURES
      ("paper"%string, "feat"%string)
      [FeatureInput (Some (Tensor [10; 11; 12] [] F32)) 0 3 None;
       FeatureInput (Some (Tensor [13; 14] [] F32)) 3 5 None] = Ok stores
    ∧ length stores = 2%nat.
Proof.
  destruct (exchange_features_unbounded_delivers (A:=Z) (λ g, g `mod` 2) 2 2
              100 ("paper"%string, "feat"%string)
              [FeatureInput (Some (Tensor [10; 11; 12] [] F32)) 0 3 None;
               FeatureInput (Some (Tensor [13; 14] [] F32)) 3 5 None] [] F32)
    as (stores & Hrun & Hlen & _).
  - lia.
  - reflexivity.
  - repeat constructor.
    + exists (Tensor [10; 11; 12] [] F32).
      split; [reflexivity|]. split; [simpl; lia|]. split; reflexivity.
    + exists (Tensor [13; 14] [] F32).
      split; [reflexivity|]. split; [simpl; lia|]. split; reflexivity.
  - left. reflexivity.
  - exists stores. split; [exact Hrun|exact Hlen].
Defined.

(** * The number of exchange rounds of a worker *)

Lemma chunk_loop_length (n : nat) (rows rpc type_id_end gid_end : Z)
    (st : chunk_bounds) :
  length (chunk_loop n rows rpc type_id_end gid_end st) = n.
Proof.
  revert st. induction n as [|n IH]; intros st; [done|].
  cbn [chunk_loop length]. cbv zeta. by rewrite IH.
Qed.

Lemma feature_chunks_length {A} (all_dims : list Z) (rank world_size : nat)
    (feat_mesg_size begin_global_id : Z) (inp : feature_input (A:=A))
    (calls : list (feature_args A)) :
  feature_chunks all_dims rank world_size feat_mesg_size begin_global_id inp
  = Ok calls →
  ∃ t n0,
    fi_feature_data inp = Some t
    ∧ _get_num_chunks all_dims (element_size (tensor_dtype t)) rank
        world_size feat_mesg_size = Ok n0
    ∧ let rows := Z.of_nat (length (tensor_rows t)) in
      length calls = Z.to_nat (ceil_div rows (rows_per_chunk rows n0)).
Proof.
  unfold feature_chunks. intros (t & Ht & H)%bind_Ok_inv.
  destruct (fi_feature_data inp) as [t'|]; [|done]. injection Ht as ->.
  apply bind_Ok_inv in H as (n0 & Hn0 & H).
  exists t, n0. split; [done|]. split; [done|].
  cbv zeta in H. case_decide; [done|]. injection H as <-.
  cbv zeta. by rewrite length_fmap, chunk_loop_length.
Qed.

Lemma ceil_div_unique (a b n : Z) :
  0 < b → (n - 1) * b < a ≤ n * b → ceil_div a b = n.
Proof.
  intros Hb Hn. pose proof (ceil_div_bounds a b Hb). nia.
Qed.

Lemma chunk_count_formula (rows n0 : Z) :
  1 ≤ rows → 1 ≤ n0 →
  ceil_div rows (rows_per_chunk rows n0)
  = if decide (rows < n0) then 1
    else n0 + ceil_div (rows `mod` n0) (rows / n0).
Proof.
  intros Hrows Hn0. unfold rows_per_chunk. case_decide as Hlt.
  - apply ceil_div_unique; lia.
  - assert (1 ≤ rows / n0) as Hq by (apply Z.div_le_lower_bound; lia).
    pose proof (Z.div_mod rows n0 ltac:(lia)) as Hdm.
    pose proof (Z.mod_pos_bound rows n0 ltac:(lia)) as Hr.
    pose proof (ceil_div_bounds (rows `mod` n0) (rows / n0) ltac:(lia)) as Hc.
    apply ceil_div_unique; [lia|]. nia.
Qed.

(** X18.  The number of calls of [exchange_feature] a worker issues for a
    tensor depends on its own number of rows, not only on the chunk count
    [n0] of [_get_num_chunks], which is the same on every worker for a
    given element size: it is 1 when [rows < n0], and
    [n0 + ceil((rows mod n0) / floor(rows / n0))] otherwise, which is [n0]
    exactly when [n0] divides [rows].  Each call is a round of collectives
    in which all the workers must take part. *)
Theorem feature_chunks_count {A} (all_dims : list Z) (rank world_size : nat)
    (feat_mesg_size begin_global_id : Z) (inp : feature_input (A:=A))
    (t : tensor A) (s0 : Z) :
  fi_feature_data inp = Some t →
  let rows := Z.of_nat (length (tensor_rows t)) in
  1 ≤ rows < 2 ^ 31 →
  0 ≤ feat_mesg_size →
  all_dims !! 0%nat = Some s0 → s0 ≠ 0 → world_size ≠ 0%nat →
  (length all_dims mod world_size)%nat = 0%nat →
  np_amax (peer_sizes all_dims (element_size (tensor_dtype t)) world_size)
    < 2 ^ 31 * MB →
  ∃ n0 calls,
    _get_num_chunks all_dims (element_size (tensor_dtype t)) rank world_size
      feat_mesg_size = Ok n0
    ∧ feature_chunks all_dims rank world_size feat_mesg_size
        begin_global_id inp = Ok calls
    ∧ Z.of_nat (length calls)
      = (if decide (rows < n0) then 1
         else n0 + ceil_div (rows `mod` n0) (rows / n0))
    ∧ (n0 ≤ rows → (Z.of_nat (length calls) = n0 ↔ rows `mod` n0 = 0)).
Proof.
  intros Ht rows [Hrows _] Hmsg Hs0 Hne HW Hdiv _.
  destruct (get_num_chunks_pos all_dims (element_size (tensor_dtype t)) rank
              world_size feat_mesg_size s0) as (n0 & Hnum & Hn0); try done.
  pose proof (rows_per_chunk_bounds rows n0 Hrows Hn0) as Hrpc.
  pose proof (ceil_div_bounds rows (rows_per_chunk rows n0) ltac:(lia)) as Hb.
  destruct (feature_chunks all_dims rank world_size feat_mesg_size
              begin_global_id inp) as [calls|e] eqn:Hrun.
  2:{ exfalso. unfold feature_chunks in Hrun. rewrite Ht in Hrun.
      cbn [from_option] in Hrun. rewrite bind_Ok, Hnum, bind_Ok in Hrun.
      cbv zeta in Hrun. fold rows in Hrun.
      by rewrite decide_False in Hrun by lia. }
  destruct (feature_chunks_length _ _ _ _ _ _ _ Hrun)
    as (t' & n0' & Ht' & Hnum' & Hlen).
  rewrite Ht in Ht'. injection Ht' as <-.
  rewrite Hnum in Hnum'. injection Hnum' as <-.
  cbv zeta in Hlen. fold rows in Hlen.
  exists n0, calls. split; [done|]. split; [done|].
  assert (Z.of_nat (length calls) = ceil_div rows (rows_per_chunk rows n0))
    as Hcount by (rewrite Hlen; nia).
  rewrite Hcount, chunk_count_formula by done.
  split; [done|]. intros Hge. rewrite decide_False by lia.
  assert (1 ≤ rows / n0) as Hq by (apply Z.div_le_lower_bound; lia).
  pose proof (Z.mod_pos_bound rows n0 ltac:(lia)) as Hr.
  pose proof (ceil_div_bounds (rows `mod` n0) (rows / n0) ltac:(lia)) as Hc.
  split; intros H; nia.
Qed.

Lemma feature_chunks_count_witness :
  (* five rows of 0.5 MiB, messages of at most 1 MiB: n0 = 2, three calls *)
  ∃ calls,
    feature_chunks [5; 131072; 5; 131072] 0 2 1 100
      (FeatureInput (Some (Tensor [1; 2; 3; 4; 5] [131072] F32)) 0 5 None)
    = Ok calls ∧ length calls = 3%nat.
Proof.
  destruct (feature_chunks_count [5; 131072; 5; 131072] 0 2 1 100
              (FeatureInput (Some (Tensor [1; 2; 3; 4; 5] [131072] F32))
                 0 5 None)
              (Tensor [1; 2; 3; 4; 5] [131072] F32) 5)
    as (n0 & calls & Hn0 & Hrun & Hcount & _);
    [reflexivity|simpl; lia|lia|reflexivity|lia|lia|reflexivity
    |reflexivity|].
  exists calls. split; [exact Hrun|].
  injection Hn0 as <-. apply Nat2Z.inj. exact Hcount.
Defined.

Lemma sequence_imap_lookup {B C} (f : nat → B → result C) (l : list B)
    (r : list C) (i : nat) (b : B) :
  sequence (imap f l) = Ok r → l !! i = Some b →
  ∃ c, r !! i = Some c ∧ f i b = Ok c.
Proof.
  revert f r i. induction l as [|x l IH]; intros f r i Hs Hi; [done|].
  rewrite imap_cons, sequence_cons in Hs.
  apply bind_Ok_inv in Hs as (c & Hc & (r' & Hr & [= <-])%bind_Ok_inv).
  destruct i as [|i].
  - injection Hi as <-. by exists c.
  - exact (IH (f ∘ S) r' i Hr Hi).
Qed.

Lemma lockstep_Ok_lengths {B} (plans rounds : list (list B)) (i j : nat)
    (p q : list B) :
  lockstep plans = Ok rounds → plans !! i = Some p → plans !! j = Some q →
  length p = length q.
Proof.
  unfold lockstep. destruct plans as [|p0 plans]; [done|].
  case_decide as Hall; [|done]. intros _ Hp Hq.
  rewrite Forall_forall in Hall.
  rewrite (Hall p), (Hall q); [done| |]; by eapply list_elem_of_lookup_2.
Qed.

(** X21.  Workers whose tensors need different numbers of calls of
    [exchange_feature] cannot complete the feature shuffle: every call is
    a round of collectives, and [exchange_features] issues on each worker
    as many rounds as its own row count requires, so that the workers do
    not meet in matching collectives.  ([n1] and [n2] are the chunk counts
    that [_get_num_chunks] returns on the two workers.) *)
Theorem exchange_features_unequal_rounds {A} (partition_of : Z → Z)
    (world_size num_parts : nat) (feat_mesg_size begin_global_id : Z)
    (ft : feat_type) (feat_key : string * string)
    (inputs : list (feature_input (A:=A))) (r1 r2 : nat)
    (inp1 inp2 : feature_input (A:=A)) (t1 t2 : tensor A) (n1 n2 : Z) :
  (0 < num_parts / world_size)%nat → 0 ≤ feat_mesg_size →
  inputs !! r1 = Some inp1 → inputs !! r2 = Some inp2 →
  fi_feature_data inp1 = Some t1 → fi_feature_data inp2 = Some t2 →
  let all_dims :=
    allgather_sizes ((λ inp, feat_dims (fi_feature_data inp)) <$> inputs) in
  let rows1 := Z.of_nat (length (tensor_rows t1)) in
  let rows2 := Z.of_nat (length (tensor_rows t2)) in
  rows1 < 2 ^ 31 → rows2 < 2 ^ 31 →
  np_amax (peer_sizes all_dims (element_size (tensor_dtype t1)) world_size)
    < 2 ^ 31 * MB →
  np_amax (peer_sizes all_dims (element_size (tensor_dtype t2)) world_size)
    < 2 ^ 31 * MB →
  _get_num_chunks all_dims (element_size (tensor_dtype t1)) r1 world_size
    feat_mesg_size = Ok n1 →
  _get_num_chunks all_dims (element_size (tensor_dtype t2)) r2 world_size
    feat_mesg_size = Ok n2 →
  ceil_div rows1 (rows_per_chunk rows1 n1)
  ≠ ceil_div rows2 (rows_per_chunk rows2 n2) →
  ∃ e, exchange_features partition_of world_size num_parts feat_mesg_size
         begin_global_id ft feat_key inputs = Err e.
Proof.
  intros Hk Hmsg Hr1 Hr2 Ht1 Ht2 all_dims rows1 rows2 _ _ _ _ Hn1 Hn2 Hneq.
  destruct (exchange_features _ _ _ _ _ _ _ _) as [out|e] eqn:Hrun;
    [exfalso|by exists e].
  assert (is_Ok (exchange_features partition_of world_size num_parts
                   feat_mesg_size begin_global_id ft feat_key inputs))
    as Hok by (by exists out).
  apply exchange_features_first_part in Hok as [s Hs]; [|done].
  unfold exchange_features_part in Hs. cbv zeta in Hs. fold all_dims in Hs.
  apply bind_Ok_inv in Hs as (dim0 & _ & Hs).
  case_decide as Hdim; [done|].
  apply bind_Ok_inv in Hs as (plans & Hplans & Hs).
  apply bind_Ok_inv in Hs as (rounds & Hrounds & _).
  destruct (sequence_imap_lookup _ _ _ r1 inp1 Hplans Hr1) as (c1 & Hc1 & Hf1).
  destruct (sequence_imap_lookup _ _ _ r2 inp2 Hplans Hr2) as (c2 & Hc2 & Hf2).
  pose proof (lockstep_Ok_lengths _ _ _ _ _ _ Hrounds Hc1 Hc2) as Hlen.
  assert (∀ r inp (t : tensor A) n c,
            fi_feature_data inp = Some t →
            _get_num_chunks all_dims (element_size (tensor_dtype t)) r
              world_size feat_mesg_size = Ok n →
            feature_chunks all_dims r world_size feat_mesg_size
              begin_global_id inp = Ok c →
            Z.of_nat (length c)
            = ceil_div (Z.of_nat (length (tensor_rows t)))
                (rows_per_chunk (Z.of_nat (length (tensor_rows t))) n))
    as Hcount.
  { intros r inp t n c Ht Hn Hf.
    destruct (feature_chunks_Ok_rows all_dims r world_size feat_mesg_size
                begin_global_id inp Hmsg) as (t' & Ht' & Hne);
      [by exists c|].
    rewrite Ht in Ht'. injection Ht' as <-.
    destruct (feature_chunks_length _ _ _ _ _ _ _ Hf)
      as (t' & n' & Ht' & Hn' & Hl).
    rewrite Ht in Ht'. injection Ht' as <-.
    rewrite Hn in Hn'. injection Hn' as <-.
    cbv zeta in Hl. rewrite Hl.
    pose proof (get_num_chunks_Ok_pos _ _ _ _ _ _ Hmsg Hn) as Hpos.
    assert (1 ≤ Z.of_nat (length (tensor_rows t))) as Hrows
      by (destruct (tensor_rows t); [done|cbn [length]; lia]).
    pose proof (rows_per_chunk_bounds _ n Hrows Hpos) as Hrpc.
    pose proof (ceil_div_bounds (Z.of_nat (length (tensor_rows t)))
                  (rows_per_chunk (Z.of_nat (length (tensor_rows t))) n)
                  ltac:(lia)).
    nia. }
  apply Hneq. subst rows1 rows2.
  rewrite <-(Hcount r1 inp1 t1 n1 c1 Ht1 Hn1 Hf1).
  rewrite <-(Hcount r2 inp2 t2 n2 c2 Ht2 Hn2 Hf2).
  by rewrite Hlen.
Qed.

Lemma exchange_features_unequal_rounds_witness :
  (* rows of 0.5 MiB, messages of at most 1 MiB: rank 0 needs three rounds
     for its five rows, rank 1 two rounds for its four rows *)
  ∃ e, exchange_features (A:=Z) (λ g, g `mod` 2) 2 2 1 0 STR_NODE_FEATURES
         ("paper"%string, "feat"%string)
         [FeatureInput (Some (Tensor [1; 2; 3; 4; 5] [131072] F32)) 0 5 None;
          FeatureInput (Some (Tensor [6; 7; 8; 9] [131072] F32)) 5 9 None]
       = Err e.
Proof.
  apply (exchange_features_unequal_rounds (λ g, g `mod` 2) 2 2 1 0
           STR_NODE_FEATURES ("paper"%string, "feat"%string)
           [FeatureInput (Some (Tensor [1; 2; 3; 4; 5] [131072] F32)) 0 5 None;
            FeatureInput (Some (Tensor [6; 7; 8; 9] [131072] F32)) 5 9 None]
           0 1
           (FeatureInput (Some (Tensor [1; 2; 3; 4; 5] [131072] F32)) 0 5 None)
           (FeatureInput (Some (Tensor [6; 7; 8; 9] [131072] F32)) 5 9 None)
           (Tensor [1; 2; 3; 4; 5] [131072] F32)
           (Tensor [6; 7; 8; 9] [131072] F32) 2 2);
    [simpl; lia|lia|reflexivity|reflexivity|reflexivity|reflexivity
    |reflexivity|reflexivity|reflexivity|reflexivity|reflexivity|reflexivity
    |vm_compute; discriminate].
Defined.

(** * Ownership of edge features *)

Lemma np_unique_elem (a : list Z) (v : Z) : v ∈ np_unique a ↔ v ∈ a.
Proof.
  unfold np_unique. rewrite merge_sort_Permutation. apply elem_of_remove_dups.
Qed.

Lemma np_unique_NoDup (a : list Z) : NoDup (np_unique a).
Proof.
  unfold np_unique. rewrite merge_sort_Permutation. apply NoDup_remove_dups.
Qed.

Lemma first_index_lt (a : list Z) (v : Z) :
  v ∈ a → (first_index a v < length a)%nat.
Proof. intros Hv. eapply lookup_lt_Some, first_index_lookup, Hv. Qed.

(** X22.  The owner of an edge feature is the owner of the destination of
    its edge, which [exchange_feature] finds in the edge table the worker
    read: when the table lists every global edge id of the chunk, the
    partition id computed for each row is that of the destination of an
    edge of the table with that global edge id; when one of these ids is
    missing from the table, or the worker has no edge table, the call
    raises [AssertionError]. *)
Theorem edge_feature_owner {A} (partition_of : Z → Z) (a : feature_args A) :
  let global_eids := arange (fa_gid_start a) (fa_gid_end a) in
  (∀ data, fa_data a = Some data →
     (∀ g, g ∈ global_eids → g ∈ global_eid <$> data) →
     ∃ partid_slice,
       feature_partids partition_of STR_EDGE_FEATURES a = Ok partid_slice
       ∧ Forall2 (λ g p, ∃ e, e ∈ data ∧ global_eid e = g
                            ∧ p = partition_of (global_dst_id e))
           global_eids partid_slice)
  ∧ (∀ data g, fa_data a = Some data →
       g ∈ global_eids → g ∉ global_eid <$> data →
       feature_partids partition_of STR_EDGE_FEATURES a = Err AssertionError)
  ∧ (fa_data a = None →
     feature_partids partition_of STR_EDGE_FEATURES a = Err AssertionError).
Proof.
  intros global_eids. split; [|split].
  - intros data Hdata Hall. unfold feature_partids. rewrite Hdata.
    cbn [from_option]. rewrite bind_Ok. fold global_eids.
    set (eids := global_eid <$> data).
    assert (StronglySorted Z.lt global_eids) as Hsorted
      by apply StronglySorted_seqZ.
    pose proof (intersect1d_sorted_subset eids global_eids Hsorted Hall)
      as Hint.
    unfold intersect1d in *. cbv zeta in *. cbn [fst] in Hint.
    injection Hint as Hcommon _. rewrite Hcommon.
    unfold assert. rewrite length_fmap.
    destruct (decide (length global_eids = length global_eids)) as [_|];
      [|done].
    rewrite !bind_Ok.
    destruct (gather_shuffle_ids eids (global_dst_id <$> data) global_eids)
      as [Hin1 Hg1]; [unfold eids; by rewrite !length_fmap|done|].
    destruct (gather_shuffle_ids eids eids global_eids) as [Hin2 Hg2];
      [done|done|].
    rewrite (fancy_index_Ok _ _ Hin1), bind_Ok.
    rewrite (fancy_index_Ok _ _ Hin2), bind_Ok.
    assert (gather eids (first_index eids <$> global_eids) = global_eids)
      as Heq.
    { rewrite Hg2. rewrite <-(list_fmap_id global_eids) at 2.
      apply list_fmap_ext. intros i g Hg. unfold shuffle_id_of.
      rewrite first_index_lookup; [done|].
      apply Hall. by eapply list_elem_of_lookup_2. }
    rewrite Heq. rewrite decide_True by done. rewrite bind_Ok.
    eexists. split; [reflexivity|].
    rewrite Hg1. unfold get_partition_ids. rewrite <-list_fmap_compose.
    apply Forall2_fmap_r, Forall_Forall2_diag, Forall_forall.
    intros g Hg. cbn. unfold shuffle_id_of.
    pose proof (first_index_lookup eids g (Hall g Hg)) as Hlook.
    subst eids. rewrite list_lookup_fmap in Hlook |- *.
    destruct (data !! first_index (global_eid <$> data) g) as [e|] eqn:He;
      [|done].
    cbn in Hlook |- *. injection Hlook as Hge.
    exists e. split; [by eapply list_elem_of_lookup_2|done].
  - intros data g Hdata Hg Hmiss. unfold feature_partids. rewrite Hdata.
    cbn [from_option]. rewrite bind_Ok. fold global_eids.
    set (eids := global_eid <$> data) in *.
    unfold intersect1d. cbv zeta. unfold assert. rewrite length_fmap.
    set (common := filter (λ v, v ∈ global_eids) (np_unique eids)).
    destruct (decide (length common = length common)) as [_|]; [|done].
    rewrite bind_Ok.
    destruct (decide (length common = length global_eids)) as [Hlen|];
      [exfalso|done].
    assert (common ⊆+ global_eids) as Hsub.
    { apply NoDup_submseteq.
      - apply NoDup_filter, np_unique_NoDup.
      - intros v Hv. by apply list_elem_of_filter in Hv as [Hv _]. }
    apply submseteq_length_Permutation in Hsub; [|lia].
    apply Hmiss. rewrite <-Hsub in Hg.
    apply list_elem_of_filter in Hg as [_ Hg]. by apply np_unique_elem.
  - intros Hdata. unfold feature_partids. by rewrite Hdata.
Qed.

Lemma edge_feature_owner_witness :
  (* an edge table that lists the edges 1 and 0, features of the edges
     0 and 1 *)
  is_Ok (feature_partids (A:=Z) (λ g, g `mod` 2) STR_EDGE_FEATURES
           (FeatureArgs (Some [Edge 7 4 0 0 1; Edge 5 6 1 0 0]) None 0 2 0 2)).
Proof.
  destruct (edge_feature_owner (A:=Z) (λ g, g `mod` 2)
              (FeatureArgs (Some [Edge 7 4 0 0 1; Edge 5 6 1 0 0])
                 None 0 2 0 2)) as [Hfound _].
  destruct (Hfound [Edge 7 4 0 0 1; Edge 5 6 1 0 0] eq_refl)
    as (partid_slice & Hrun & _).
  - intros g Hg. apply elem_of_seqZ in Hg. cbn.
    destruct (decide (g = 0)) as [->|Hne].
    + apply list_elem_of_further, list_elem_of_here.
    + assert (g = 1) as -> by (cbn in Hg; lia). apply list_elem_of_here.
  - exists partid_slice. exact Hrun.
Defined.
